(** * The streaming reconstruction of [startDiagnosis] (src/App.jsx)

    A shallow embedding of the read loop of [startDiagnosis]: the
    [TextDecoder], the line buffer, the per-line cascade (differential
    detection, agent detection, status detection, content accumulation)
    and the [catch]/[finally] epilogue, followed by the properties of the
    specification that concern them.

    Conventions of the model.
    - A JavaScript string is the list of its UTF-16 code units; none of
      the regular expressions of the source carries the [u] flag, so they
      all work on code units.
    - [setMessages(f)] queues the function [f].  React calls the queued
      functions, in the order of the calls, when it renders, and it
      renders while the loop waits at [await reader.read()]: after the
      [for] loop of each chunk.  A queued function is a closure over the
      variables [currentAgentName] and [lastMessageId] of
      [startDiagnosis]: it reads them as they are when React calls it,
      not as they were when it was queued.  [setDifferential(v)] passes
      a value, which does not depend on the moment it is applied.
    - An exception thrown by a queued function is thrown while React
      renders, outside the [try] of [startDiagnosis]: the [catch] does
      not see it, and the component is no longer shown.
    - [Date.now()], [Math.random()] and [toLocaleTimeString] are read
      from a [World], indexed by the number of readings made so far. *)

From Stdlib Require Import List NArith ZArith Bool Arith Lia String Ascii DecimalString Sorted.
From Stdlib.Strings Require Import Byte.
Import ListNotations.

(* ================================================================== *)
(** ** JavaScript strings *)
(* ================================================================== *)

Module JS.

Definition char16 := N.
Definition jstr := list char16.

(** An ASCII literal of the source, as code units. *)
Definition u16 (s : string) : jstr := map N_of_ascii (list_ascii_of_string s).

(** A code point as one or two code units (surrogate pair above U+FFFF). *)
Definition utf16 (cp : N) : jstr :=
  if (cp <? 0x10000)%N then [cp]
  else let v := (cp - 0x10000)%N in
       [(0xD800 + N.shiftr v 10)%N; (0xDC00 + N.land v 0x3FF)%N].

Definition codepoints (cps : list N) : jstr := flat_map utf16 cps.

Fixpoint eqb (a b : jstr) : bool :=
  match a, b with
  | [], [] => true
  | x :: a', y :: b' => (x =? y)%N && eqb a' b'
  | _, _ => false
  end.

Definition mem (x : char16) (l : list char16) : bool := existsb (N.eqb x) l.

(** WhiteSpace and LineTerminator of ECMAScript: what [trim] removes and
    what [\s] matches. *)
Definition is_ws (c : char16) : bool :=
  mem c [0x09; 0x0A; 0x0B; 0x0C; 0x0D; 0x20; 0xA0; 0x1680; 0x2028; 0x2029;
         0x202F; 0x205F; 0x3000; 0xFEFF]%N
  || ((0x2000 <=? c)%N && (c <=? 0x200A)%N).

Fixpoint trimStart (s : jstr) : jstr :=
  match s with
  | c :: s' => if is_ws c then trimStart s' else s
  | [] => []
  end.

Definition trimEnd (s : jstr) : jstr := rev (trimStart (rev s)).

Definition trim (s : jstr) : jstr := trimEnd (trimStart s).

Fixpoint startsWith (p s : jstr) : bool :=
  match p, s with
  | [], _ => true
  | x :: p', y :: s' => (x =? y)%N && startsWith p' s'
  | _ :: _, [] => false
  end.

(** [s.slice(n)] for [0 <= n]. *)
Definition slice (n : nat) (s : jstr) : jstr := skipn n s.

Fixpoint includes (needle s : jstr) : bool :=
  startsWith needle s ||
  match s with
  | [] => false
  | _ :: s' => includes needle s'
  end.

(** [s.split(sep)] for a one-unit separator, as its first piece and the
    pieces after it: the result of [split] is never empty. *)
Fixpoint split_pieces (sep : char16) (s : jstr) : jstr * list jstr :=
  match s with
  | [] => ([], [])
  | c :: s' =>
      let (l, ls) := split_pieces sep s' in
      if (c =? sep)%N then ([], l :: ls) else (c :: l, ls)
  end.

Definition split (sep : char16) (s : jstr) : list jstr :=
  let (l, ls) := split_pieces sep s in l :: ls.

Definition LF : char16 := 0x0A%N.

End JS.
Import JS.

(* ================================================================== *)
(** ** Regular expressions *)
(* ================================================================== *)

(** The backtracking matcher of ECMAScript, for the fragment the six
    patterns of the source are written in: classes of one code unit,
    sequence, alternation, quantified classes (greedy or lazy, bounded or
    not), capture groups and [^].  Matchers are in continuation-passing
    style, as in the language definition: a continuation receives the end
    index, the rest of the input and the captures. *)

Module Regex.

Inductive re :=
| Eps
| Bol
| Cls (p : char16 -> bool)
| Seq (a b : re)
| Alt (a b : re)
| Rep (p : char16 -> bool) (lo : nat) (hi : option nat) (greedy : bool)
| Grp (n : nat) (a : re).

Definition caps := list (nat * jstr).
Definition found := option (nat * caps).
Definition cont := nat -> jstr -> caps -> found.

Notation "a <|> b" := (match a with Some r => Some r | None => b end)
  (at level 60, right associativity).

(** RepeatMatcher for an atom that is a class: [hi = Some 0] passes on to
    the continuation; below [lo] the atom is mandatory; from there on a
    greedy quantifier tries the atom first, a lazy one the continuation. *)
Fixpoint rep (p : char16 -> bool) (greedy : bool) (lo : nat) (hi : option nat)
    (i : nat) (s : jstr) (c : caps) (k : cont) {struct s} : found :=
  match hi with
  | Some 0 => k i s c
  | _ =>
      match lo with
      | S _ =>
          match s with
          | x :: s' =>
              if p x then rep p greedy (pred lo) (option_map pred hi) (S i) s' c k
              else None
          | [] => None
          end
      | 0 =>
          if greedy then
            match s with
            | x :: s' =>
                if p x then rep p greedy 0 (option_map pred hi) (S i) s' c k
                else None
            | [] => None
            end <|> k i s c
          else
            k i s c <|>
            match s with
            | x :: s' =>
                if p x then rep p greedy 0 (option_map pred hi) (S i) s' c k
                else None
            | [] => None
            end
      end
  end.

Fixpoint rm (r : re) (i : nat) (s : jstr) (c : caps) (k : cont) : found :=
  match r with
  | Eps => k i s c
  | Bol => if i =? 0 then k i s c else None
  | Cls p =>
      match s with
      | x :: s' => if p x then k (S i) s' c else None
      | [] => None
      end
  | Seq a b => rm a i s c (fun i' s' c' => rm b i' s' c' k)
  | Alt a b => rm a i s c k <|> rm b i s c k
  | Rep p lo hi greedy => rep p greedy lo hi i s c k
  | Grp n a => rm a i s c (fun i' s' c' => k i' s' ((n, firstn (i' - i) s) :: c'))
  end.

(** A match attempt at index [i], where [s] is the input from [i] on. *)
Definition match_at (r : re) (i : nat) (s : jstr) : found :=
  rm r i s [] (fun i' _ c' => Some (i', c')).

Record hit := { h_start : nat; h_end : nat; h_caps : caps }.

(** Capture [n] of a match ([m[n]] for [n >= 1]); a group that took no
    part in the match reads as the empty string here, which none of the
    patterns below can produce for the groups the source reads. *)
Fixpoint group (n : nat) (c : caps) : jstr :=
  match c with
  | [] => []
  | (m, v) :: c' => if m =? n then v else group n c'
  end.

(** [RegExp.prototype.exec] from index [i] on, without the [g] flag: the
    leftmost index at which an attempt succeeds. *)
Fixpoint search (r : re) (i : nat) (s : jstr) : option hit :=
  match match_at r i s with
  | Some (e, c) => Some {| h_start := i; h_end := e; h_caps := c |}
  | None =>
      match s with
      | [] => None
      | _ :: s' => search r (S i) s'
      end
  end.

(** [s.match(r)] for [r] without the [g] flag. *)
Definition match_first (r : re) (s : jstr) : option hit := search r 0 s.

(** The successive matches of a [g] pattern over the whole input
    ([matchAll], and the scan behind [replace]): after a match the scan
    resumes at its end, one unit further when the match was empty.
    [skip] counts the units of the input still inside the last match. *)
Inductive piece :=
| Kept (x : char16)
| Hit (h : hit).

Fixpoint scan (r : re) (i skip : nat) (s : jstr) : list piece :=
  match skip with
  | S skip' =>
      match s with
      | [] => []
      | _ :: s' => scan r (S i) skip' s'
      end
  | 0 =>
      match match_at r i s with
      | Some (e, c) =>
          Hit {| h_start := i; h_end := e; h_caps := c |} ::
          match s with
          | [] => []
          | x :: s' =>
              if e =? i then Kept x :: scan r (S i) 0 s'
              else scan r (S i) (e - i - 1) s'
          end
      | None =>
          match s with
          | [] => []
          | x :: s' => Kept x :: scan r (S i) 0 s'
          end
      end
  end.

Definition hits (ps : list piece) : list hit :=
  flat_map (fun p => match p with Hit h => [h] | Kept _ => [] end) ps.

Definition kept (ps : list piece) : jstr :=
  flat_map (fun p => match p with Hit _ => [] | Kept x => [x] end) ps.

(** [[...s.matchAll(r)]] *)
Definition matchAll (r : re) (s : jstr) : list hit := hits (scan r 0 0 s).

(** [s.replace(r, '')] for a [g] pattern. *)
Definition remove_all (r : re) (s : jstr) : jstr := kept (scan r 0 0 s).

(** Building blocks of the patterns. *)
Definition chr (a : ascii) : re := Cls (N.eqb (N_of_ascii a)).
Definition lit (s : string) : re :=
  fold_right (fun x r => Seq (Cls (N.eqb x)) r) Eps (u16 s).
Definition star p := Rep p 0 None true.
Definition plus p := Rep p 1 None true.
Definition plus_lazy p := Rep p 1 None false.

Definition is_digit (c : char16) : bool := (0x30 <=? c)%N && (c <=? 0x39)%N.
Definition is_lower (c : char16) : bool := (0x61 <=? c)%N && (c <=? 0x7A)%N.
Definition is_upper (c : char16) : bool := (0x41 <=? c)%N && (c <=? 0x5A)%N.
Definition is_char (a : ascii) (c : char16) : bool := (c =? N_of_ascii a)%N.
(** [.] without the [s] flag: anything but a line terminator. *)
Definition is_dot (c : char16) : bool := negb (mem c [0x0A; 0x0D; 0x2028; 0x2029]%N).

End Regex.
Import Regex.

(* ================================================================== *)
(** ** [new TextDecoder()] and [decoder.decode(value, { stream: true })] *)
(* ================================================================== *)

(** The UTF-8 decoder of the Encoding standard, one byte at a time.  With
    [stream: true] the decoder is never flushed: its state, with the
    bytes of an unfinished sequence, is carried to the next call. *)

Module Utf8.

Record decoder := {
  code_point : N;
  bytes_seen : N;
  bytes_needed : N;
  lower : N;
  upper : N;
  bom_seen : bool
}.

Definition init : decoder :=
  {| code_point := 0; bytes_seen := 0; bytes_needed := 0;
     lower := 0x80; upper := 0xBF; bom_seen := false |}.

Definition reset (d : decoder) : decoder :=
  {| code_point := 0; bytes_seen := 0; bytes_needed := 0;
     lower := 0x80; upper := 0xBF; bom_seen := bom_seen d |}.

Definition expect (d : decoder) (n lo hi cp : N) : decoder :=
  {| code_point := cp; bytes_seen := 0; bytes_needed := n;
     lower := lo; upper := hi; bom_seen := bom_seen d |}.

Definition between (lo hi b : N) : bool := ((lo <=? b) && (b <=? hi))%N.

(** A byte met when no sequence is open. *)
Definition lead (d : decoder) (b : N) : decoder * list N :=
  if between 0x00 0x7F b then (d, [b])
  else if between 0xC2 0xDF b then (expect d 1 0x80 0xBF (N.land b 0x1F), [])
  else if between 0xE0 0xEF b then
    (expect d 2 (if b =? 0xE0 then 0xA0 else 0x80) (if b =? 0xED then 0x9F else 0xBF)
       (N.land b 0xF), [])%N
  else if between 0xF0 0xF4 b then
    (expect d 3 (if b =? 0xF0 then 0x90 else 0x80) (if b =? 0xF4 then 0x8F else 0xBF)
       (N.land b 0x7), [])%N
  else (d, [0xFFFD%N]).

(** The handler: the code points a byte gives rise to.  A byte that
    breaks an open sequence yields U+FFFD and is read again as a lead. *)
Definition handler (d : decoder) (b : N) : decoder * list N :=
  if (bytes_needed d =? 0)%N then lead d b
  else if negb (between (lower d) (upper d) b) then
    let (d', out) := lead (reset d) b in (d', 0xFFFD%N :: out)
  else
    let cp := N.lor (N.shiftl (code_point d) 6) (N.land b 0x3F) in
    if (bytes_seen d + 1 =? bytes_needed d)%N then (reset d, [cp])
    else ({| code_point := cp; bytes_seen := bytes_seen d + 1;
             bytes_needed := bytes_needed d;
             lower := 0x80; upper := 0xBF; bom_seen := bom_seen d |}, []).

(** Serialisation of the code points: the first one of the stream is
    dropped when it is the byte order mark (ignoreBOM is false). *)
Fixpoint serialize (seen : bool) (cps : list N) : bool * jstr :=
  match cps with
  | [] => (seen, [])
  | cp :: cps' =>
      let (seen', out) := serialize true cps' in
      if negb seen && (cp =? 0xFEFF)%N then (seen', out)
      else (seen', utf16 cp ++ out)
  end.

Definition step (d : decoder) (b : byte) : decoder * jstr :=
  let (d', cps) := handler d (Byte.to_N b) in
  let (seen, out) := serialize (bom_seen d') cps in
  ({| code_point := code_point d'; bytes_seen := bytes_seen d';
      bytes_needed := bytes_needed d'; lower := lower d'; upper := upper d';
      bom_seen := seen |}, out).

Fixpoint decode (d : decoder) (chunk : list byte) : decoder * jstr :=
  match chunk with
  | [] => (d, [])
  | b :: chunk' =>
      let (d1, out1) := step d b in
      let (d2, out2) := decode d1 chunk' in
      (d2, out1 ++ out2)
  end.

End Utf8.

(* ================================================================== *)
(** ** The component state and the patterns of [startDiagnosis] *)
(* ================================================================== *)

(** The [id] of a message: [null] (the first value of [lastMessageId]),
    a number ([Date.now() + Math.random()] for a turn opened by a header
    and for a status, [Date.now()] for the stop notice) or the string
    ['system-' + Date.now()].  Ids are only ever compared with [===]; a
    number is kept as an integer code of its value, and a string id as
    the number it was built from. *)
Inductive msg_id :=
| IdNull
| IdNumber (n : Z)
| IdSystem (n : Z).

Definition id_eqb (a b : msg_id) : bool :=
  match a, b with
  | IdNull, IdNull => true
  | IdNumber x, IdNumber y => (x =? y)%Z
  | IdSystem x, IdSystem y => (x =? y)%Z
  | _, _ => false
  end.

(** The two shapes of object pushed on [messages]:
    [{ id, agent, content, timestamp }] and [{ id, status, timestamp }]. *)
Inductive message :=
| AgentTurn (id : msg_id) (agent : jstr) (content : jstr) (timestamp : jstr)
| StatusTurn (id : msg_id) (status : jstr) (timestamp : jstr).

Definition msg_ident (m : message) : msg_id :=
  match m with
  | AgentTurn i _ _ _ => i
  | StatusTurn i _ _ => i
  end.

Record dx_item := { diagnosis : jstr; probability : jstr }.

(** The value given to [setDifferential]: [{ items, full }]. *)
Record snapshot := { items : list dx_item; full : jstr }.

(** What the environment answers at the [k]-th reading of the clock. *)
Record World := {
  now_plus_random : nat -> Z;   (* Date.now() + Math.random() *)
  now : nat -> Z;               (* Date.now() *)
  locale_time : nat -> jstr     (* new Date().toLocaleTimeString([], ...) *)
}.

Record js_error := { err_name : jstr; err_message : jstr }.

(** The four functions that the loop passes to [setMessages].  In each,
    [agentName], [content] and [cleanContent] are constants of the
    iteration that builds the function; [currentAgentName] and
    [lastMessageId], which the second, third and fourth mention, are the
    variables of [startDiagnosis] (lines 82-83), read when the function
    is called. *)
Inductive updater :=
| PushAgent (agentName : jstr)           (* lines 129-134 *)
| PushStatus (content : jstr)            (* lines 143-147 *)
| PushDefault                            (* lines 155-160 *)
| AppendContent (cleanContent : jstr).   (* lines 171-184 *)

(** [messages] and [differential] of the component as last rendered, the
    locals [currentAgentName] and [lastMessageId] of [startDiagnosis]
    ([None] and [IdNull] are [null]), the number of readings of the
    clock so far, and the functions queued since the last render. *)
Record state := {
  messages : list message;
  differential : option snapshot;
  currentAgentName : option jstr;
  lastMessageId : msg_id;
  created : nat;
  pending : list updater
}.

(** How a stretch of [startDiagnosis] ends: normally; by an exception
    thrown in the [try] block, which the [catch] receives; or by an
    exception thrown by a queued function while React renders the state
    [st], which the [catch] does not receive. *)
Inductive outcome :=
| Done (st : state)
| Raised (e : js_error) (st : state)
| Crashed (e : js_error) (st : state).

Definition state_of (o : outcome) : state :=
  match o with
  | Done st => st
  | Raised _ st => st
  | Crashed _ st => st
  end.

Module Pat.

(** [/\u001b\[[0-9;]*m/g] *)
Definition ansi : re :=
  Seq (Cls (N.eqb 0x1B)) (Seq (chr "[")
    (Seq (star (fun c => is_digit c || is_char ";" c)) (chr "m"))).

(** [/(?:\d+\.\s+|- )([^:]+?)(?:\s+Probability: |:\s+)(\d+)%/g] *)
Definition dxRegex : re :=
  Seq (Alt (Seq (plus is_digit) (Seq (chr ".") (plus is_ws))) (lit "- "))
   (Seq (Grp 1 (plus_lazy (fun c => negb (is_char ":" c))))
    (Seq (Alt (Seq (plus is_ws) (lit "Probability: ")) (Seq (chr ":") (plus is_ws)))
     (Seq (Grp 2 (plus is_digit)) (chr "%")))).

(** [/Agent Name:\s*([a-zA-Z\.\- ]+)/] *)
Definition agentRegex : re :=
  Seq (lit "Agent Name:")
   (Seq (star is_ws)
     (Grp 1 (plus (fun c => is_lower c || is_upper c || is_char "." c
                            || is_char "-" c || is_char " " c)))).

(** The glyphs between the brackets of the status pattern, as code
    points.  Without the [u] flag each half of a surrogate pair is a
    member of the class on its own. *)
Definition status_glyphs : list N :=
  [0x1F914; 0x1F4B0; 0x1FA7A; 0x1F52C; 0x1F9E0; 0x1F91D; 0x2705; 0x1F3C1;
   0x2B50; 0x274C; 0x1F4CA; 0x1F4C8; 0x1F4C9; 0x1F3E5; 0x1F9EC; 0x1F9EA]%N.

(** [/^.{0,5}[...]/] *)
Definition statusRegex : re :=
  Seq Bol (Seq (Rep is_dot 0 (Some 5) true)
               (Cls (fun c => mem c (codepoints status_glyphs)))).

(** [/[╭╮╯╰─│]/g] *)
Definition box_glyphs : list N := [0x256D; 0x256E; 0x256F; 0x2570; 0x2500; 0x2502]%N.
Definition boxRegex : re := Cls (fun c => mem c box_glyphs).

(** [/[\s\-_]/g] *)
Definition fillerRegex : re :=
  Cls (fun c => is_ws c || is_char "-" c || is_char "_" c).

End Pat.

(** The string literals of the source. *)
Definition data_prefix : jstr := u16 "data: ".
Definition top_marker : jstr := 0xFFFD%N :: u16 " TOP DIFFERENTIAL DIAGNOSES".
Definition updated_marker : jstr := utf16 0x1F4CA ++ u16 " Differential Diagnosis Updated".
Definition agent_name_text : jstr := u16 "Agent Name".
Definition system_orchestrator : jstr := u16 "System Orchestrator".
Definition stopped_by_user : jstr := utf16 0x1F3C1 ++ u16 " Process stopped by user.".
Definition fill_required : jstr := u16 "Please fill in the required fields.".
Definition failed_to_connect : jstr := u16 "Failed to connect to backend: ".
Definition abort_error : jstr := u16 "AbortError".
Definition http_error : jstr := u16 "HTTP error! status: ".

(** Reading [.content] of a status object gives [undefined], and
    [undefined.split] throws. *)
Definition type_error : js_error :=
  {| err_name := u16 "TypeError";
     err_message := u16 "Cannot read properties of undefined (reading 'split')" |}.

(** [!s] for a string or [null]. *)
Definition falsy (s : option jstr) : bool :=
  match s with
  | None => true
  | Some [] => true
  | Some _ => false
  end.

Definition same_name (cur : option jstr) (name : jstr) : bool :=
  match cur with
  | None => false
  | Some n => JS.eqb n name
  end.

(** [messages.findIndex(m => m.id === lastMessageId)] *)
Fixpoint findIndex (target : msg_id) (ms : list message) : option nat :=
  match ms with
  | [] => None
  | m :: ms' =>
      if id_eqb (msg_ident m) target
      then Some 0
      else option_map S (findIndex target ms')
  end.

(** [lines[lines.length - 1]] for [lines = s.split('\n')]. *)
Definition last_line (s : jstr) : jstr := last (split LF s) [].

Section Stream.

Variable w : World.

(** Lines 94-100: the payload of a [data: ] line, without colour codes;
    [None] where the loop says [continue]. *)
Definition content_of (line : jstr) : option jstr :=
  let trimmedLine := trim line in
  if negb (startsWith data_prefix trimmedLine) then None
  else
    let content := remove_all Pat.ansi (trim (slice 6 trimmedLine)) in
    match content with
    | [] => None
    | _ => Some content
    end.

(** Lines 103-118: the value passed to [setDifferential], if any. *)
Definition dx_entry (m : hit) : dx_item :=
  {| diagnosis := trim (group 1 (h_caps m));
     probability := group 2 (h_caps m) ++ u16 "%" |}.

Definition topDiagnoses (content : jstr) : list dx_item :=
  map dx_entry (firstn 3 (matchAll Pat.dxRegex content)).

Definition detect_differential (content : jstr) : option snapshot :=
  if includes top_marker content || includes updated_marker content then
    match matchAll Pat.dxRegex content with
    | [] => None
    | _ :: _ => Some {| items := topDiagnoses content; full := content |}
    end
  else None.

Definition setDifferential (v : snapshot) (st : state) : state :=
  {| messages := messages st; differential := Some v;
     currentAgentName := currentAgentName st;
     lastMessageId := lastMessageId st; created := created st;
     pending := pending st |}.

(** [setMessages(f)]: the function joins the queue. *)
Definition setMessages (f : updater) (st : state) : state :=
  {| messages := messages st; differential := differential st;
     currentAgentName := currentAgentName st;
     lastMessageId := lastMessageId st; created := created st;
     pending := pending st ++ [f] |}.

(** Lines 126-127 and 153-154: the two locals are assigned together, the
    id being made from one reading of the clock. *)
Definition set_current (name : jstr) (i : msg_id) (st : state) : state :=
  {| messages := messages st; differential := differential st;
     currentAgentName := Some name; lastMessageId := i;
     created := S (created st); pending := pending st |}.

(** Line 122: [content.match(...)], then [agentMatch[1].trim()]. *)
Definition agentMatch (content : jstr) : option jstr :=
  match match_first Pat.agentRegex content with
  | Some m => Some (trim (group 1 (h_caps m)))
  | None => None
  end.

(** Lines 140-142. *)
Definition isStatus (content : jstr) : bool :=
  match match_first Pat.statusRegex content with
  | Some _ => true
  | None => false
  end.

Definition status_test (content : jstr) : bool :=
  isStatus content && (List.length content <? 150)
  && negb (includes agent_name_text content).

(** Lines 151-185, once the line is neither a header nor a status. *)
Definition accumulate (content : jstr) (st : state) : state :=
  let st :=
    if falsy (currentAgentName st)
    then setMessages PushDefault
           (set_current system_orchestrator (IdSystem (now w (created st))) st)
    else st in
  let cleanContent := remove_all Pat.boxRegex content in
  match remove_all Pat.fillerRegex cleanContent with
  | [] => st
  | _ :: _ =>
      let cleanContent := trim cleanContent in
      match cleanContent with
      | [] => st
      | _ :: _ => setMessages (AppendContent cleanContent) st
      end
  end.

(** Lines 121-185: what follows the differential detection. *)
Definition fold_turns (content : jstr) (st : state) : state :=
  match agentMatch content with
  | Some agentName =>
      if negb (same_name (currentAgentName st) agentName)
      then setMessages (PushAgent agentName)
             (set_current agentName (IdNumber (now_plus_random w (created st))) st)
      else st
  | None =>
      if status_test content
      then setMessages (PushStatus content) st
      else accumulate content st
  end.

(** The body of [for (let line of lines)], lines 94-185: it assigns the
    locals and queues functions, and throws nothing. *)
Definition process_line (st : state) (line : jstr) : state :=
  match content_of line with
  | None => st
  | Some content =>
      let st :=
        match detect_differential content with
        | Some v => setDifferential v st
        | None => st
        end in
      fold_turns content st
  end.

(** The [for] loop. *)
Definition process_lines (st : state) (lines : list jstr) : state :=
  fold_left process_line lines st.

(** *** The queued functions, as React calls them *)

(** The body of the function of lines 171-184 on [prev], [last] being
    the value of [lastMessageId] at that moment; [None] where
    [existingContent.split] throws, the message found being a status,
    which has no [content]. *)
Fixpoint set_content (n : nat) (c : jstr) (ms : list message) : list message :=
  match ms with
  | [] => []
  | m :: ms' =>
      match n with
      | 0 =>
          match m with
          | AgentTurn i a _ t => AgentTurn i a c t
          | StatusTurn _ _ _ => m
          end :: ms'
      | S n' => m :: set_content n' c ms'
      end
  end.

Definition append_content (last : msg_id) (cleanContent : jstr) (prev : list message)
    : option (list message) :=
  match findIndex last prev with
  | None => Some prev
  | Some msgIndex =>
      match nth_error prev msgIndex with
      | Some (AgentTurn _ _ existingContent _) =>
          if negb (JS.eqb (last_line existingContent) cleanContent) then
            Some (set_content msgIndex
                    (match existingContent with
                     | [] => cleanContent
                     | _ => existingContent ++ LF :: cleanContent
                     end)
                    prev)
          else Some prev
      | Some (StatusTurn _ _ _) => None
      | None => Some prev
      end
  end.

(** [agent: currentAgentName] in the object of lines 155-160.  The
    function is queued after the assignment of line 153 and the variable
    never goes back to [null], so that [null] is not read there by any
    run; the model writes it as the empty string, which the component
    displays alike. *)
Definition agent_text (cur : option jstr) : jstr :=
  match cur with
  | Some a => a
  | None => []
  end.

(** One queued function, called on [prev] when the locals are [cur] and
    [last] and the clock has been read [k] times: the new list and the
    readings, or [None] for a throw. *)
Definition run_updater (cur : option jstr) (last : msg_id) (f : updater)
    (prev : list message) (k : nat) : option (list message * nat) :=
  match f with
  | PushAgent agentName =>
      Some (prev ++ [AgentTurn last agentName [] (locale_time w k)], S k)
  | PushStatus content =>
      Some (prev ++ [StatusTurn (IdNumber (now_plus_random w k)) content
                       (locale_time w k)], S k)
  | PushDefault =>
      Some (prev ++ [AgentTurn last (agent_text cur) [] (locale_time w k)], S k)
  | AppendContent cleanContent =>
      match append_content last cleanContent prev with
      | Some ms => Some (ms, k)
      | None => None
      end
  end.

Fixpoint run_updaters (cur : option jstr) (last : msg_id) (fs : list updater)
    (prev : list message) (k : nat) : option (list message * nat) :=
  match fs with
  | [] => Some (prev, k)
  | f :: fs' =>
      match run_updater cur last f prev k with
      | Some (ms, k') => run_updaters cur last fs' ms k'
      | None => None
      end
  end.

(** A render: React calls the queued functions in order, each on the
    list the previous one returned. *)
Definition render (st : state) : outcome :=
  match run_updaters (currentAgentName st) (lastMessageId st) (pending st)
          (messages st) (created st) with
  | Some (ms, k) =>
      Done {| messages := ms; differential := differential st;
              currentAgentName := currentAgentName st;
              lastMessageId := lastMessageId st; created := k;
              pending := [] |}
  | None => Crashed type_error st
  end.

End Stream.

(* ================================================================== *)
(** ** The read loop and [startDiagnosis] *)
(* ================================================================== *)

(** What [await reader.read()] resolves or rejects with, over the life
    of one response body: chunks, then [done] or an exception. *)
Inductive ending :=
| EndOfStream
| ReadFails (e : js_error).

Record body := { chunks : list (list byte); ending_of : ending }.

(** What [await fetch(...)] gives: an exception, or a response with its
    [ok] flag, its [status] and its body. *)
Inductive fetch_result :=
| FetchFails (e : js_error)
| Response (ok : bool) (status : nat) (b : body).

Record form := { initial_info : jstr; full_case : jstr; ground_truth : jstr }.

(** The React state of [App] and [abortControllerRef.current] ([true]
    when it holds a controller). *)
Record app := {
  inputs : form;
  app_messages : list message;
  app_differential : option snapshot;
  isStreaming : bool;
  error : option jstr;
  abortControllerRef : bool
}.

Definition initial_state : state :=
  {| messages := []; differential := None; currentAgentName := None;
     lastMessageId := IdNull; created := 0; pending := [] |}.

Section Driver.

Variable w : World.

(** Lines 89-93 and the [for] loop, for one chunk: the state after its
    lines, with the new [buffer] and the decoder. *)
Definition feed (st : state) (buffer : jstr) (dec : Utf8.decoder)
    (value : list byte) : state * jstr * Utf8.decoder :=
  let (dec', text) := Utf8.decode dec value in
  let buffer := buffer ++ text in
  let lines := split LF buffer in
  (* buffer = lines.pop() || '' *)
  (process_lines w st (removelast lines), last lines [], dec').

(** [while (true)] over the chunks the reader delivers; React renders
    each time the loop comes back to [await reader.read()]. *)
Fixpoint read_loop (st : state) (buffer : jstr) (dec : Utf8.decoder)
    (values : list (list byte)) : outcome :=
  match values with
  | [] => Done st
  | value :: values' =>
      match feed st buffer dec value with
      | (st1, buffer', dec') =>
          match render w st1 with
          | Done st' => read_loop st' buffer' dec' values'
          | Raised e st' => Raised e st'
          | Crashed e st' => Crashed e st'
          end
      end
  end.

(** Lines 80-187: the loop over a whole body, from the reset state. *)
Definition read_body (b : body) : outcome :=
  match read_loop initial_state [] Utf8.init (chunks b) with
  | Done st =>
      match ending_of b with
      | EndOfStream => Done st
      | ReadFails e => Raised e st
      end
  | Raised e st => Raised e st
  | Crashed e st => Crashed e st
  end.

Definition decimal (n : nat) : jstr :=
  u16 (DecimalString.NilZero.string_of_uint (Nat.to_uint n)).

(** Lines 68-187, the [try] block. *)
Definition try_block (net : fetch_result) : outcome :=
  match net with
  | FetchFails e => Raised e initial_state
  | Response ok status b =>
      if negb ok
      then Raised {| err_name := u16 "Error";
                     err_message := http_error ++ decimal status |} initial_state
      else read_body b
  end.

(** Lines 54-202: the component after the run, or [None] when a queued
    function threw while React was rendering.  The function of lines
    190-194 reads no variable of [startDiagnosis]; nothing else is
    queued when the [catch] runs. *)
Definition startDiagnosis (a : app) (net : fetch_result) : option app :=
  match initial_info (inputs a), full_case (inputs a) with
  | [], _ | _, [] =>
      Some {| inputs := inputs a; app_messages := app_messages a;
              app_differential := app_differential a; isStreaming := isStreaming a;
              error := Some fill_required;
              abortControllerRef := abortControllerRef a |}
  | _, _ =>
      match try_block net with
      | Done st =>
          Some {| inputs := inputs a; app_messages := messages st;
                  app_differential := differential st; isStreaming := false;
                  error := None; abortControllerRef := false |}
      | Raised err st =>
          if JS.eqb (err_name err) abort_error then
            Some {| inputs := inputs a;
                    app_messages :=
                      messages st ++
                      [StatusTurn (IdNumber (now w (created st))) stopped_by_user
                         (locale_time w (created st))];
                    app_differential := differential st; isStreaming := false;
                    error := None; abortControllerRef := false |}
          else
            Some {| inputs := inputs a; app_messages := messages st;
                    app_differential := differential st; isStreaming := false;
                    error := Some (failed_to_connect ++ err_message err);
                    abortControllerRef := false |}
      | Crashed _ _ => None
      end
  end.

End Driver.

(** [stopDiagnosis], lines 204-208, seen from the transport: with a
    controller in [abortControllerRef], [abort()] makes the read that
    follows the [n] chunks already delivered reject with an exception
    named AbortError; without one nothing happens. *)
Definition abort_exception (message : jstr) : js_error :=
  {| err_name := abort_error; err_message := message |}.

Definition stopDiagnosis (ref : bool) (n : nat) (message : jstr) (b : body) : body :=
  if ref
  then {| chunks := firstn n (chunks b); ending_of := ReadFails (abort_exception message) |}
  else b.

(** What an observer compares in two turns: everything but the id and
    the timestamp, which come from the clock. *)
Inductive turn_view :=
| AgentView (agent content : jstr)
| StatusView (status : jstr).

Definition view (m : message) : turn_view :=
  match m with
  | AgentTurn _ a c _ => AgentView a c
  | StatusTurn _ s _ => StatusView s
  end.

(** The lines of a content, and the absence of an immediate repeat. *)
Fixpoint no_adjacent_dup (ls : list jstr) : bool :=
  match ls with
  | a :: (b :: _) as ls' => negb (JS.eqb a b) && no_adjacent_dup ls'
  | _ => true
  end.

Definition content_lines (m : message) : list jstr :=
  match m with
  | AgentTurn _ _ c _ => split LF c
  | StatusTurn _ _ _ => []
  end.

(** The complete lines of a text: all the pieces of [split] but the
    last, which stays in [buffer]. *)
Definition complete_lines (text : jstr) : list jstr := removelast (split LF text).

(** ** What a successful match says about the input *)

(** The quantifier bounds of a pattern are in order ([lo <= hi]), as the
    syntax of the language demands. *)
Fixpoint bounds_ok (r : re) : bool :=
  match r with
  | Eps | Bol | Cls _ => true
  | Seq a b | Alt a b => bounds_ok a && bounds_ok b
  | Rep _ lo (Some hi) _ => lo <=? hi
  | Rep _ _ None _ => true
  | Grp _ a => bounds_ok a
  end.

(** [spans r i s c i' s' c']: from index [i], with [s] ahead and
    captures [c], the pattern [r] can consume up to index [i'], leaving
    [s'] ahead and captures [c']. *)
Fixpoint spans (r : re) (i : nat) (s : jstr) (c : caps)
    (i' : nat) (s' : jstr) (c' : caps) : Prop :=
  match r with
  | Eps => i' = i /\ s' = s /\ c' = c
  | Bol => i = 0 /\ i' = i /\ s' = s /\ c' = c
  | Cls p => exists x, s = x :: s' /\ p x = true /\ i' = S i /\ c' = c
  | Seq a b =>
      exists i1 s1 c1, spans a i s c i1 s1 c1 /\ spans b i1 s1 c1 i' s' c'
  | Alt a b => spans a i s c i' s' c' \/ spans b i s c i' s' c'
  | Rep p lo hi _ =>
      exists u, s = u ++ s' /\ forallb p u = true /\ lo <= List.length u /\
                match hi with Some h => List.length u <= h | None => True end /\
                i' = i + List.length u /\ c' = c
  | Grp n a =>
      exists c1, spans a i s c i' s' c1 /\ c' = (n, firstn (i' - i) s) :: c1
  end.

(** A pattern without capture groups. *)
Fixpoint groupless (r : re) : bool :=
  match r with
  | Eps | Bol | Cls _ | Rep _ _ _ _ => true
  | Seq a b | Alt a b => groupless a && groupless b
  | Grp _ _ => false
  end.

(** The three kinds of line the claims speak of, as the cascade of
    [process_line] tells them apart. *)
Definition recognized_differential (line : jstr) : option snapshot :=
  match content_of line with
  | Some content => detect_differential content
  | None => None
  end.

Definition agent_header (line : jstr) : option jstr :=
  match content_of line with
  | Some content => agentMatch content
  | None => None
  end.

Definition status_line (line : jstr) : option jstr :=
  match content_of line with
  | Some content =>
      match agentMatch content with
      | Some _ => None
      | None => if status_test content then Some content else None
      end
  | None => None
  end.

(** ** Sample inputs *)

(** An environment whose clock never answers twice alike. *)
Definition world_a : World :=
  {| now_plus_random := fun k => (7000 + Z.of_nat k)%Z;
     now := fun k => (1000 + Z.of_nat k)%Z;
     locale_time := fun _ => u16 "10:00 AM" |}.

Definition filled_form : form :=
  {| initial_info := u16 "fever"; full_case := u16 "fever and rash";
     ground_truth := [] |}.

Definition idle_app : app :=
  {| inputs := filled_form; app_messages := []; app_differential := None;
     isStreaming := false; error := None; abortControllerRef := false |}.

Definition bytes (s : string) : list byte := list_byte_of_string s.

(** A line of the feed: [data: ], then glyphs given as code points, then
    ASCII text. *)
Definition data_line (glyphs : list N) (text : string) : jstr :=
  data_prefix ++ codepoints glyphs ++ u16 text.

Definition response (values : list (list byte)) (e : ending) : fetch_result :=
  Response true 200 {| chunks := values; ending_of := e |}.

(** Scenario 3 of the specification. *)
Definition lupus_line : jstr :=
  data_line [0x1F4CA%N] " Differential Diagnosis Updated: - Lupus: 42%".

Definition lupus_snapshot : snapshot :=
  {| items := [{| diagnosis := u16 "Lupus"; probability := u16 "42%" |}];
     full := codepoints [0x1F4CA%N]
             ++ u16 " Differential Diagnosis Updated: - Lupus: 42%" |}.

(** A second differential line, with two other items. *)
Definition other_dx_line : jstr :=
  data_line [0x1F4CA%N] " Differential Diagnosis Updated: - Sarcoidosis: 30% - Gout: 12%".

Definition other_snapshot : snapshot :=
  {| items := [{| diagnosis := u16 "Sarcoidosis"; probability := u16 "30%" |};
               {| diagnosis := u16 "Gout"; probability := u16 "12%" |}];
     full := codepoints [0x1F4CA%N]
             ++ u16 " Differential Diagnosis Updated: - Sarcoidosis: 30% - Gout: 12%" |}.

(** The phrase of the first marker, without the character before it. *)
Definition top_phrase : jstr := u16 "TOP DIFFERENTIAL DIAGNOSES".

(** A line that carries the phrase after the chart glyph, as the backend
    prints it. *)
Definition chart_top_line : jstr :=
  data_line [0x1F4CA%N] " TOP DIFFERENTIAL DIAGNOSES 1. Lupus   Probability: 80%".

(** A line that carries the phrase, not after U+FFFD, and the second
    marker as well. *)
Definition both_phrases_line : jstr :=
  data_line [0x1F4CA%N]
    " Differential Diagnosis Updated: TOP DIFFERENTIAL DIAGNOSES - Lupus: 42%".

(** Scenario 1 of the specification. *)
Definition gathering_line : jstr := data_line [0x1F914%N] " Gathering history...".

(** Scenario 2 of the specification: a header in its frame. *)
Definition house_header : jstr :=
  data_prefix ++ codepoints [0x256D; 0x2500; 0x2500]%N ++ u16 " Agent Name: Dr. House "
  ++ codepoints [0x2500; 0x2500; 0x256E]%N.

Definition house : jstr := u16 "Dr. House".

(** The state the reset state is in after that header and a render. *)
Definition house_state (w : World) : state :=
  {| messages := [AgentTurn (IdNumber (now_plus_random w 0)) house [] (locale_time w 1)];
     differential := None;
     currentAgentName := Some house;
     lastMessageId := IdNumber (now_plus_random w 0);
     created := 2;
     pending := [] |}.

(** Scenario 5 of the specification: the bottom of a frame. *)
Definition frame_glyphs : jstr :=
  codepoints [0x2570; 0x2500; 0x2500; 0x2500; 0x2500; 0x2500; 0x2500; 0x256F]%N.

Definition frame_line : jstr := data_prefix ++ frame_glyphs.

Definition is_box (c : char16) : bool := mem c Pat.box_glyphs.

(** A response in three chunks, for the cancellation scenario. *)
Definition three_chunks : body :=
  {| chunks := [bytes "data: Agent Name: Dr. House
"; bytes "data: Consider vasculitis.
"; bytes "data: Order ANCA.
"];
     ending_of := EndOfStream |}.

Definition network_error : js_error :=
  {| err_name := u16 "TypeError"; err_message := u16 "network error" |}.

(** The content of a turn never shows the same line twice in a row. *)
Definition tidy (m : message) : Prop := no_adjacent_dup (content_lines m) = true.

(** [m'] is [m] with, at most, text added at the end of its content. *)
Definition grows (m m' : message) : Prop :=
  match m, m' with
  | AgentTurn i a c t, AgentTurn i' a' c' t' =>
      i = i' /\ a = a' /\ t = t' /\ exists more, c' = c ++ more
  | StatusTurn i s t, StatusTurn i' s' t' => i = i' /\ s = s' /\ t = t'
  | _, _ => False
  end.

(** The cleaned text of a line that reaches the content updater. *)
Definition content_line (line : jstr) : option jstr :=
  match content_of line with
  | None => None
  | Some content =>
      match agentMatch content with
      | Some _ => None
      | None =>
          if status_test content then None
          else
            match remove_all Pat.fillerRegex (remove_all Pat.boxRegex content) with
            | [] => None
            | _ :: _ =>
                match trim (remove_all Pat.boxRegex content) with
                | [] => None
                | x :: clean => Some (x :: clean)
                end
            end
      end
  end.

(** The content of the turn that [lastMessageId] designates. *)
Definition current_content (st : state) : option jstr :=
  match findIndex (lastMessageId st) (messages st) with
  | None => None
  | Some n =>
      match nth_error (messages st) n with
      | Some (AgentTurn _ _ c _) => Some c
      | _ => None
      end
  end.

(** Scenario 2 of the specification, second line. *)
Definition vasculitis_line : jstr := u16 "data: Consider vasculitis.".

(** The content that the function of lines 171-184 writes. *)
Definition appended (ex c : jstr) : jstr :=
  match ex with
  | [] => c
  | _ :: _ => ex ++ LF :: c
  end.

(** The bytes of a code point in UTF-8, to write the sample streams. *)
Definition byte_of (n : N) : byte :=
  match Byte.of_N n with
  | Some b => b
  | None => x00
  end.

Definition utf8 (cp : N) : list byte :=
  if (cp <? 0x80)%N then [byte_of cp]
  else if (cp <? 0x800)%N then
    [byte_of (0xC0 + N.shiftr cp 6); byte_of (0x80 + N.land cp 0x3F)]%N
  else if (cp <? 0x10000)%N then
    [byte_of (0xE0 + N.shiftr cp 12); byte_of (0x80 + N.land (N.shiftr cp 6) 0x3F);
     byte_of (0x80 + N.land cp 0x3F)]%N
  else
    [byte_of (0xF0 + N.shiftr cp 18); byte_of (0x80 + N.land (N.shiftr cp 12) 0x3F);
     byte_of (0x80 + N.land (N.shiftr cp 6) 0x3F); byte_of (0x80 + N.land cp 0x3F)]%N.

(** The bytes of a frame of the feed: [data: ], glyphs, ASCII text and
    the line feed. *)
Definition frame (glyphs : list N) (text : string) : list byte :=
  bytes "data: " ++ flat_map utf8 glyphs ++ bytes text ++ [x0a].

(** A payload whose second marker is interrupted by a colour code. *)
Definition coloured_marker_line : jstr :=
  data_prefix ++ codepoints [0x1F4CA%N] ++ u16 " Differential"
  ++ 0x1B%N :: u16 "[0m" ++ u16 " Diagnosis Updated: - Lupus: 42%".

(* ================================================================== *)
(** ** The rest of the component: icons and rendering *)
(* ================================================================== *)

(** [AgentIcon], lines 20-26; [name?.includes(...)] is [undefined] for a
    missing name. *)
Inductive icon :=
| IconChallenger
| IconStewardship
| IconSpecialist
| IconOrchestrator
| IconDefault.

Definition AgentIcon (name : option jstr) : icon :=
  match name with
  | None => IconDefault
  | Some n =>
      if includes (u16 "Challenger") n then IconChallenger
      else if includes (u16 "Stewardship") n then IconStewardship
      else if includes (u16 "Specialist") n then IconSpecialist
      else if includes (u16 "Orchestrator") n then IconOrchestrator
      else IconDefault
  end.

(** One entry of the message list, lines 333-356: [msg.status ? ... : ...].
    A message without [status], or with an empty one, is drawn as an
    agent bubble from its [agent] and [content], which a status object
    does not have. *)
Inductive bubble :=
| StatusBubble (timestamp status : jstr)
| AgentBubble (ic : icon) (agent : option jstr) (timestamp : jstr)
    (content : option jstr).

Definition render_message (m : message) : bubble :=
  match m with
  | StatusTurn _ [] t => AgentBubble (AgentIcon None) None t None
  | StatusTurn _ s t => StatusBubble t s
  | AgentTurn _ a c t => AgentBubble (AgentIcon (Some a)) (Some a) t (Some c)
  end.

(** The differential banner, lines 295-319: shown when [differential] is
    set, one entry per item with its rank [idx + 1]. *)
Definition ranked {A} (l : list A) : list (nat * A) :=
  combine (seq 1 (List.length l)) l.

Definition banner (d : option snapshot) : option (list (nat * dx_item)) :=
  option_map (fun v => ranked (items v)) d.

(** The chat area, lines 322-361: the placeholder when there is no
    message and nothing is streaming, the bubbles otherwise. *)
Definition chat (a : app) : option (list bubble) :=
  match app_messages a with
  | [] => if negb (isStreaming a) then None else Some []
  | ms => Some (map render_message ms)
  end.

(* ================================================================== *)
(** ** Notions used by the properties of the whole stream *)
(* ================================================================== *)

(** The decoder has read part of a sequence whose code point cannot end
    up below U+0080: the bits read so far are not all zero, or the next
    byte is bound to bring some. *)
Definition decoding_above_ascii (d : Utf8.decoder) : Prop :=
  Utf8.bytes_needed d = 0%N \/
  Utf8.code_point d <> 0%N \/
  ((Utf8.bytes_seen d + 1 < Utf8.bytes_needed d)%N /\
   (0x90 <= Utf8.lower d)%N /\ (Utf8.upper d <= 0xBF)%N).

(** The class of the agent pattern, [[a-zA-Z\.\- ]]. *)
Definition agent_unit (c : char16) : bool :=
  is_lower c || is_upper c || is_char "." c || is_char "-" c || is_char " " c.

(** The parameters of a colour code, [[0-9;]], and the code itself. *)
Definition sgr_param (c : char16) : bool := is_digit c || is_char ";" c.

Definition sgr (params : jstr) : jstr :=
  0x1B%N :: N_of_ascii "[" :: params ++ [N_of_ascii "m"].

(** What the stream guarantees of a status text, of an agent name and of
    the lines of a content. *)
Definition status_text_ok (s : jstr) : Prop :=
  s <> [] /\ List.length s < 150 /\ ~ In LF s /\
  includes agent_name_text s = false.

Definition agent_name_ok (a : jstr) : Prop :=
  forallb agent_unit a = true /\ trim a = a.

Definition content_line_ok (l : jstr) : Prop :=
  l <> [] /\ trim l = l /\ forallb (fun x => negb (is_box x)) l = true /\ ~ In LF l.

Definition content_ok (c : jstr) : Prop :=
  c = [] \/ Forall content_line_ok (split LF c).

Definition turn_ok (m : message) : Prop :=
  match m with
  | AgentTurn _ a c _ => agent_name_ok a /\ content_ok c
  | StatusTurn _ s _ => status_text_ok s
  end.

(** The bubble each kind of turn is meant for. *)
Definition bubble_of_kind (m : message) : bubble :=
  match m with
  | StatusTurn _ s t => StatusBubble t s
  | AgentTurn _ a c t => AgentBubble (AgentIcon (Some a)) (Some a) t (Some c)
  end.

(** The snapshot left by the last recognized line of a list. *)
Definition last_recognized (lines : list jstr) (d : option snapshot) : option snapshot :=
  fold_left (fun d line =>
               match recognized_differential line with
               | Some v => Some v
               | None => d
               end) lines d.

(** A clock that never answers twice alike. *)
Definition never_repeats (w : World) : Prop :=
  (forall j k, now_plus_random w j = now_plus_random w k -> j = k) /\
  (forall j k, now w j = now w k -> j = k).

(** The documented header, ["╭───── Agent Name: Dr. Test-Chooser  ─────╮"]. *)
Definition documented_header : jstr :=
  codepoints [0x256D; 0x2500; 0x2500; 0x2500; 0x2500; 0x2500]%N
  ++ u16 " Agent Name: Dr. Test-Chooser  "
  ++ codepoints [0x2500; 0x2500; 0x2500; 0x2500; 0x2500; 0x256E]%N.

(** The queued functions that add a turn. *)
Definition is_push (f : updater) : bool :=
  match f with
  | AppendContent _ => false
  | _ => true
  end.

(** A queued content function whose line holds no line feed. *)
Definition one_line (f : updater) : Prop :=
  match f with
  | AppendContent c => ~ In LF c
  | _ => True
  end.

(** Two headers and a line of text: in one chunk, and cut inside the
    second header. *)
Definition two_agents_whole : list (list byte) :=
  [bytes "data: Agent Name: Dr. A
data: Agent Name: Dr. B
data: y
"].

Definition two_agents_cut : list (list byte) :=
  [bytes "data: Agent Name: Dr. A
data: Agent"; bytes " Name: Dr. B
data: y
"].

(** The line of scenario 3, in one chunk and cut inside its glyph. *)
Definition lupus_whole : list (list byte) :=
  [frame [0x1F4CA%N] " Differential Diagnosis Updated: - Lupus: 42%"].

Definition lupus_cut : list (list byte) :=
  [firstn 8 (frame [0x1F4CA%N] " Differential Diagnosis Updated: - Lupus: 42%");
   skipn 8 (frame [0x1F4CA%N] " Differential Diagnosis Updated: - Lupus: 42%")].

(** The buffer and the decoder after some chunks: what the loop carries
    from one chunk to the next besides its state. *)
Fixpoint carried (buffer : jstr) (dec : Utf8.decoder) (values : list (list byte))
    : jstr * Utf8.decoder :=
  match values with
  | [] => (buffer, dec)
  | value :: values' =>
      let (dec', text) := Utf8.decode dec value in
      carried (last (split LF (buffer ++ text)) []) dec' values'
  end.

(** What the loop guarantees of the functions it queues. *)
Definition updater_ok (f : updater) : Prop :=
  match f with
  | PushAgent agentName => agent_name_ok agentName
  | PushStatus content => status_text_ok content
  | PushDefault => True
  | AppendContent cleanContent => content_line_ok cleanContent
  end.

(** The id of every status of a list was made at one of the first [k]
    readings of the clock and is not [last]. *)
Definition status_ids_apart (w : World) (last : msg_id) (k : nat)
    (ms : list message) : Prop :=
  forall i s t,
    In (StatusTurn i s t) ms ->
    i <> last /\ exists j, j < k /\ i = IdNumber (now_plus_random w j).

(** A numeric [last] was made at one of the first [k] readings. *)
Definition id_issued (w : World) (k : nat) (last : msg_id) : Prop :=
  match last with
  | IdNumber n => exists j, j < k /\ n = now_plus_random w j
  | _ => True
  end.

Definition ids_apart (w : World) (st : state) : Prop :=
  status_ids_apart w (lastMessageId st) (created st) (messages st) /\
  id_issued w (created st) (lastMessageId st).

(** A turn that carries the id [last], or a status. *)
Definition carries (last : msg_id) (m : message) : Prop :=
  match m with
  | AgentTurn i _ _ _ => i = last
  | StatusTurn _ _ _ => True
  end.

(* ================================================================== *)
(** * Properties *)
(* ================================================================== *)

(** ** Strings *)

Lemma eqb_eq (a b : jstr) : JS.eqb a b = true <-> a = b.
Proof.
  revert b; induction a as [|x a IH]; intros [|y b]; simpl; split; intro H;
    try reflexivity; try discriminate.
  - apply andb_true_iff in H as [Hx Hab]. apply N.eqb_eq in Hx.
    apply IH in Hab. now subst.
  - injection H as -> ->. rewrite N.eqb_refl. now apply IH.
Qed.

Lemma eqb_refl (a : jstr) : JS.eqb a a = true.
Proof. now apply eqb_eq. Qed.

Lemma eqb_neq (a b : jstr) : JS.eqb a b = false <-> a <> b.
Proof.
  split.
  - intros H E. apply eqb_eq in E. congruence.
  - intro H. destruct (JS.eqb a b) eqn:E; [apply eqb_eq in E; contradiction | reflexivity].
Qed.

Lemma id_eqb_eq (a b : msg_id) : id_eqb a b = true <-> a = b.
Proof.
  destruct a, b; simpl; split; intro H; try discriminate; try reflexivity;
    try (apply Z.eqb_eq in H; now subst);
    try (injection H as ->; apply Z.eqb_refl).
Qed.

Lemma split_cons (sep c : char16) (s : jstr) :
  split sep (c :: s) =
  if (c =? sep)%N then [] :: split sep s
  else match split sep s with
       | l :: ls => (c :: l) :: ls
       | [] => [[c]]
       end.
Proof.
  unfold split; simpl. destruct (split_pieces sep s) as [l ls].
  now destruct (c =? sep)%N.
Qed.

Lemma split_not_nil (sep : char16) (s : jstr) : split sep s <> [].
Proof. unfold split. now destruct (split_pieces sep s). Qed.

Lemma split_nil (sep : char16) : split sep [] = [[]].
Proof. reflexivity. Qed.

(** Splitting a concatenation: the complete pieces of the first part,
    then the pieces of its last piece followed by the second part. *)
Lemma split_app (sep : char16) (a b : jstr) :
  split sep (a ++ b) =
  removelast (split sep a) ++ split sep (last (split sep a) [] ++ b).
Proof.
  induction a as [|c a IH].
  - reflexivity.
  - rewrite <- app_comm_cons, !split_cons.
    destruct (c =? sep)%N eqn:Ec.
    + rewrite IH. pose proof (split_not_nil sep a) as Hne.
      destruct (split sep a) as [|l ls]; [congruence|]. reflexivity.
    + rewrite IH. pose proof (split_not_nil sep a) as Hne.
      destruct (split sep a) as [|l [|l' ls]]; [congruence | |].
      * simpl. rewrite split_cons, Ec. reflexivity.
      * reflexivity.
Qed.

Lemma split_no_sep (sep : char16) (s : jstr) :
  ~ In sep s -> split sep s = [s].
Proof.
  induction s as [|c s IH]; intro H; [reflexivity|].
  rewrite split_cons.
  destruct (c =? sep)%N eqn:Ec.
  - apply N.eqb_eq in Ec. exfalso. apply H. now left.
  - rewrite IH; [reflexivity|]. intro Hin. apply H. now right.
Qed.

Lemma split_pieces_no_sep (sep : char16) (s : jstr) :
  Forall (fun l => ~ In sep l) (split sep s).
Proof.
  induction s as [|c s IH].
  - repeat constructor. intros [].
  - rewrite split_cons. destruct (c =? sep)%N eqn:Ec.
    + constructor; [intros [] | exact IH].
    + destruct (split sep s) as [|l ls]; [repeat constructor|].
      * intros [H|[]]. subst. now rewrite N.eqb_refl in Ec.
      * inversion IH; subst. constructor; [|assumption].
        intros [H|H]; [subst; now rewrite N.eqb_refl in Ec | contradiction].
Qed.

Lemma last_in_forall {A} (P : A -> Prop) (l : list A) (d : A) :
  Forall P l -> l <> [] -> P (last l d).
Proof.
  intros H Hne. rewrite Forall_forall in H. apply H.
  destruct l as [|x l]; [congruence|].
  clear. revert x. induction l as [|y l IH]; intro x; [now left|].
  right. apply IH.
Qed.

Lemma last_split_no_sep (sep : char16) (s : jstr) :
  ~ In sep (last (split sep s) []).
Proof.
  apply (@last_in_forall _ (fun l => ~ In sep l)).
  - apply split_pieces_no_sep.
  - apply split_not_nil.
Qed.

Lemma removelast_in_forall {A} (P : A -> Prop) (l : list A) :
  Forall P l -> Forall P (removelast l).
Proof.
  induction 1 as [|x l Hx Hl IH]; [constructor|].
  simpl. destruct l; [constructor|]. constructor; assumption.
Qed.

Lemma split_two (sep : char16) (x l : jstr) :
  ~ In sep x -> ~ In sep l -> split sep (x ++ sep :: l) = [x; l].
Proof.
  intros Hx Hl. induction x as [|y x IH].
  - simpl. rewrite split_cons, N.eqb_refl, split_no_sep by assumption. reflexivity.
  - rewrite <- app_comm_cons, split_cons.
    destruct (y =? sep)%N eqn:Ey.
    + apply N.eqb_eq in Ey. exfalso. apply Hx. now left.
    + rewrite IH; [reflexivity|]. intro H. apply Hx. now right.
Qed.

(** A line appended after a separator is one more piece. *)
Lemma split_snoc_line (sep : char16) (c l : jstr) :
  ~ In sep l -> split sep (c ++ sep :: l) = split sep c ++ [l].
Proof.
  intro Hl. rewrite split_app.
  rewrite (split_two sep _ l (last_split_no_sep sep c) Hl).
  pose proof (split_not_nil sep c) as Hne.
  rewrite (app_removelast_last [] Hne) at 3.
  rewrite <- app_assoc. reflexivity.
Qed.

(** [includes] is the presence of the needle as a substring. *)
Lemma startsWith_spec (p s : jstr) :
  startsWith p s = true <-> exists post, s = p ++ post.
Proof.
  revert s; induction p as [|x p IH]; intro s.
  - simpl. split; [intros _; now exists s | reflexivity].
  - destruct s as [|y s]; simpl.
    + split; [discriminate | intros [post H]; discriminate].
    + rewrite andb_true_iff, N.eqb_eq, IH. split.
      * intros [-> [post ->]]. now exists post.
      * intros [post H]. injection H as -> ->. split; [reflexivity | now exists post].
Qed.

Lemma includes_spec (needle s : jstr) :
  includes needle s = true <-> exists pre post, s = pre ++ needle ++ post.
Proof.
  induction s as [|y s IH]; simpl.
  - rewrite orb_false_r, startsWith_spec. split.
    + intros [post H]. now exists [], post.
    + intros [pre [post H]]. destruct pre; [now exists post|discriminate].
  - rewrite orb_true_iff, startsWith_spec, IH. split.
    + intros [[post H]|[pre [post H]]].
      * now exists [], post.
      * exists (y :: pre), post. now rewrite H.
    + intros [[|x pre] [post H]].
      * left. now exists post.
      * right. injection H as -> ->. now exists pre, post.
Qed.

(** ** The decoder and the buffer *)

Lemma decode_app (d : Utf8.decoder) (a b : list byte) :
  Utf8.decode d (a ++ b) =
  let (d1, o1) := Utf8.decode d a in
  let (d2, o2) := Utf8.decode d1 b in
  (d2, o1 ++ o2).
Proof.
  revert d; induction a as [|x a IH]; intro d; simpl.
  - now destruct (Utf8.decode d b).
  - destruct (Utf8.step d x) as [d1 o1]. rewrite IH.
    destruct (Utf8.decode d1 a) as [d2 o2].
    destruct (Utf8.decode d2 b) as [d3 o3].
    now rewrite app_assoc.
Qed.

Lemma removelast_app_split (sep : char16) (ls : list jstr) (s : jstr) :
  removelast (ls ++ split sep s) = ls ++ removelast (split sep s).
Proof. apply removelast_app, split_not_nil. Qed.

Lemma last_app_split (sep : char16) (ls : list jstr) (s : jstr) :
  last (ls ++ split sep s) [] = last (split sep s) [].
Proof.
  pose proof (split_not_nil sep s) as Hne.
  induction ls as [|y ls IH]; [reflexivity|].
  rewrite <- app_comm_cons. simpl last.
  destruct (ls ++ split sep s) eqn:E; [|exact IH].
  apply app_eq_nil in E as [_ E]. congruence.
Qed.

Lemma complete_lines_no_LF (text : jstr) :
  Forall (fun l => ~ In LF l) (complete_lines text).
Proof. apply removelast_in_forall, split_pieces_no_sep. Qed.

(** ** The loop only queues *)

Lemma process_lines_cons (w : World) (l : jstr) (ls : list jstr) (st : state) :
  process_lines w st (l :: ls) = process_lines w (process_line w st l) ls.
Proof. reflexivity. Qed.

(** What the content branch does after the default turn is in place. *)
Lemma accumulate_eq (w : World) (content : jstr) (st : state) :
  accumulate w content st =
  let st1 := if falsy (currentAgentName st)
             then setMessages PushDefault
                    (set_current system_orchestrator (IdSystem (now w (created st))) st)
             else st in
  match remove_all Pat.fillerRegex (remove_all Pat.boxRegex content) with
  | [] => st1
  | _ :: _ =>
      match trim (remove_all Pat.boxRegex content) with
      | [] => st1
      | x :: clean => setMessages (AppendContent (x :: clean)) st1
      end
  end.
Proof.
  unfold accumulate. cbv zeta.
  destruct (remove_all Pat.fillerRegex _); [reflexivity|].
  now destruct (trim _).
Qed.

(** The five things a line can do: replace the snapshot, open a turn for
    a header, queue a status, open the default turn, queue content. *)
Lemma process_line_cases (w : World) (P : state -> Prop) (line : jstr) :
  (forall st v, recognized_differential line = Some v -> P st -> P (setDifferential v st)) ->
  (forall st name,
      agent_header line = Some name ->
      same_name (currentAgentName st) name = false ->
      P st ->
      P (setMessages (PushAgent name)
           (set_current name (IdNumber (now_plus_random w (created st))) st))) ->
  (forall st content,
      status_line line = Some content ->
      P st -> P (setMessages (PushStatus content) st)) ->
  (forall st,
      falsy (currentAgentName st) = true ->
      P st ->
      P (setMessages PushDefault
           (set_current system_orchestrator (IdSystem (now w (created st))) st))) ->
  (forall st clean,
      content_line line = Some clean ->
      falsy (currentAgentName st) = false ->
      P st -> P (setMessages (AppendContent clean) st)) ->
  forall st, P st -> P (process_line w st line).
Proof.
  intros Hdiff Hopen Hstatus Hdefault Hcontent st HP.
  unfold recognized_differential, agent_header, status_line, content_line in *.
  unfold process_line.
  destruct (content_of line) as [content|]; [|exact HP].
  set (st0 := match detect_differential content with
              | Some v => setDifferential v st
              | None => st
              end).
  assert (HP0 : P st0).
  { subst st0. destruct (detect_differential content) as [v|]; [|exact HP].
    now apply Hdiff. }
  clearbody st0. clear Hdiff HP.
  unfold fold_turns.
  destruct (agentMatch content) as [name|].
  - destruct (same_name (currentAgentName st0) name) eqn:Es; simpl; [exact HP0|].
    now apply Hopen.
  - destruct (status_test content).
    + now apply Hstatus.
    + rewrite accumulate_eq. cbv zeta.
      assert (Horch : falsy (Some system_orchestrator) = false) by reflexivity.
      destruct (falsy (currentAgentName st0)) eqn:Ef.
      * specialize (Hdefault st0 Ef HP0).
        set (st1 := setMessages PushDefault _) in *.
        destruct (remove_all Pat.fillerRegex _); [exact Hdefault|].
        destruct (trim _) as [|x clean]; [exact Hdefault|].
        apply Hcontent; [reflexivity | exact Horch | exact Hdefault].
      * destruct (remove_all Pat.fillerRegex _); [exact HP0|].
        destruct (trim _) as [|x clean]; [exact HP0|].
        now apply Hcontent.
Qed.

Lemma process_lines_cases (w : World) (P : state -> Prop) (lines : list jstr) :
  Forall (fun line => forall st, P st -> P (process_line w st line)) lines ->
  forall st, P st -> P (process_lines w st lines).
Proof.
  induction 1 as [|l ls Hl _ IH]; intros st HP; [exact HP|].
  rewrite process_lines_cons. apply IH, Hl, HP.
Qed.

(** The loop leaves the rendered list alone, and only adds to the
    queue. *)
Lemma process_line_messages (w : World) (st : state) (line : jstr) :
  messages (process_line w st line) = messages st.
Proof.
  apply (process_line_cases w (fun s => messages s = messages st)); auto.
Qed.

(** ** A render *)

Lemma run_updaters_app (w : World) (cur : option jstr) (last : msg_id)
    (f1 f2 : list updater) (prev : list message) (k : nat) :
  run_updaters w cur last (f1 ++ f2) prev k =
  match run_updaters w cur last f1 prev k with
  | Some (ms, k') => run_updaters w cur last f2 ms k'
  | None => None
  end.
Proof.
  revert prev k; induction f1 as [|f f1 IH]; intros prev k; simpl; [reflexivity|].
  destruct (run_updater w cur last f prev k) as [[ms k']|]; [apply IH | reflexivity].
Qed.

(** An invariant of the queued functions is an invariant of the render. *)
Lemma run_updaters_invariant (w : World) (cur : option jstr) (last : msg_id)
    (R : updater -> Prop) (Q : list message -> nat -> Prop) :
  (forall f prev k ms k',
      R f -> Q prev k -> run_updater w cur last f prev k = Some (ms, k') -> Q ms k') ->
  forall fs prev k ms k',
    Forall R fs -> Q prev k ->
    run_updaters w cur last fs prev k = Some (ms, k') -> Q ms k'.
Proof.
  intros Hstep fs. induction fs as [|f fs IH]; intros prev k ms k' HR HQ H; simpl in H.
  - now injection H as <- <-.
  - inversion HR as [|? ? Hf Hfs]; subst.
    destruct (run_updater w cur last f prev k) as [[ms1 k1]|] eqn:E; [|discriminate].
    eapply IH; [exact Hfs | eapply Hstep; eassumption | exact H].
Qed.

Lemma render_idle (w : World) (st : state) : pending st = [] -> render w st = Done st.
Proof. destruct st as [ms d c l k q]. simpl. intros ->. reflexivity. Qed.

Lemma render_not_raised (w : World) (st : state) (e : js_error) (st' : state) :
  render w st <> Raised e st'.
Proof.
  unfold render. now destruct (run_updaters _ _ _ _ _ _) as [[ms k]|].
Qed.

(** What a render keeps, and what it leaves. *)
Lemma render_done (w : World) (st st' : state) :
  render w st = Done st' ->
  run_updaters w (currentAgentName st) (lastMessageId st) (pending st)
    (messages st) (created st) = Some (messages st', created st') /\
  differential st' = differential st /\
  currentAgentName st' = currentAgentName st /\
  lastMessageId st' = lastMessageId st /\
  pending st' = [].
Proof.
  unfold render.
  destruct (run_updaters _ _ _ _ _ _) as [[ms k]|]; [|discriminate].
  intro H. injection H as <-. simpl. repeat split.
Qed.

Lemma render_crashed (w : World) (st : state) (e : js_error) (st' : state) :
  render w st = Crashed e st' -> e = type_error /\ st' = st.
Proof.
  unfold render.
  destruct (run_updaters _ _ _ _ _ _) as [[ms k]|]; [discriminate|].
  intro H. now injection H as <- <-.
Qed.

(** The content function changes no id. *)
Lemma set_content_ids (n : nat) (c : jstr) (ms : list message) :
  map msg_ident (set_content n c ms) = map msg_ident ms.
Proof.
  revert n; induction ms as [|m ms IH]; intros [|n]; simpl; try reflexivity.
  - now destruct m.
  - now rewrite IH.
Qed.

Lemma findIndex_ids (t : msg_id) (ms ms' : list message) :
  map msg_ident ms = map msg_ident ms' -> findIndex t ms = findIndex t ms'.
Proof.
  revert ms'; induction ms as [|m ms IH]; intros [|m' ms'] H; simpl in *;
    try discriminate; [reflexivity|].
  injection H as Hm Hms. rewrite Hm, (IH ms' Hms). reflexivity.
Qed.

Lemma findIndex_found (t : msg_id) (ms : list message) (n : nat) :
  findIndex t ms = Some n ->
  exists m, nth_error ms n = Some m /\ msg_ident m = t.
Proof.
  revert n; induction ms as [|m ms IH]; intros n H; simpl in H; [discriminate|].
  destruct (id_eqb (msg_ident m) t) eqn:E.
  - injection H as <-. exists m. split; [reflexivity | now apply id_eqb_eq].
  - destruct (findIndex t ms) as [k|]; [|discriminate].
    injection H as <-. exact (IH k eq_refl).
Qed.

(** ** Soundness of the matcher *)

Lemma rep_sound (p : char16 -> bool) (g : bool) (s : jstr) :
  forall lo hi i c (k : cont) res,
    match hi with Some h => lo <= h | None => True end ->
    rep p g lo hi i s c k = Some res ->
    exists u s', s = u ++ s' /\ forallb p u = true /\ lo <= List.length u /\
                 match hi with Some h => List.length u <= h | None => True end /\
                 k (i + List.length u) s' c = Some res.
Proof.
  induction s as [|x s IH]; intros lo hi i c k res Hb H.
  - assert (Hk : lo = 0 /\ k i [] c = Some res).
    { simpl in H. destruct hi as [[|h]|]; destruct lo as [|lo]; try discriminate;
        try lia; try (split; [reflexivity|]);
        try (destruct g; destruct (k i [] c); congruence); assumption. }
    destruct Hk as [-> Hk]. exists [], []. simpl. rewrite Nat.add_0_r.
    repeat split; try assumption; destruct hi; lia.
  - assert (Hstop : lo = 0 -> k i (x :: s) c = Some res ->
              exists u s', x :: s = u ++ s' /\ forallb p u = true /\
                lo <= List.length u /\
                match hi with Some h => List.length u <= h | None => True end /\
                k (i + List.length u) s' c = Some res).
    { intros -> Hk. exists [], (x :: s). simpl. rewrite Nat.add_0_r.
      repeat split; try assumption; destruct hi; lia. }
    assert (Hmore : forall hi', hi = hi' ->
              match hi' with Some 0 => False | _ => True end ->
              p x = true ->
              rep p g (pred lo) (option_map pred hi') (S i) s c k = Some res ->
              exists u s', x :: s = u ++ s' /\ forallb p u = true /\
                lo <= List.length u /\
                match hi with Some h => List.length u <= h | None => True end /\
                k (i + List.length u) s' c = Some res).
    { intros hi' -> Hnz Hp Hr. apply IH in Hr.
      - destruct Hr as (u & s' & -> & Hu & Hlo & Hhi & Hk).
        exists (x :: u), s'. simpl. rewrite Hp, Hu.
        replace (i + S (List.length u)) with (S i + List.length u) by lia.
        repeat split; try assumption; [lia|].
        destruct hi' as [[|h]|]; simpl in *; [contradiction | lia | exact I].
      - destruct hi' as [[|h]|]; simpl in *; [contradiction | lia | exact I]. }
    simpl in H. destruct hi as [[|h]|].
    + apply Hstop; [lia | assumption].
    + destruct lo as [|lo].
      * destruct g.
        -- destruct (p x) eqn:Hp.
           ++ destruct (rep p true 0 (option_map pred (Some (S h))) (S i) s c k) eqn:Hr.
              ** injection H as <-. now apply (Hmore (Some (S h)) eq_refl I eq_refl).
              ** now apply Hstop.
           ++ now apply Hstop.
        -- destruct (k i (x :: s) c) eqn:Hk.
           ++ injection H as <-. now apply Hstop.
           ++ destruct (p x) eqn:Hp; [|discriminate].
              now apply (Hmore (Some (S h)) eq_refl I eq_refl).
      * destruct (p x) eqn:Hp; [|discriminate].
        now apply (Hmore (Some (S h)) eq_refl I eq_refl).
    + destruct lo as [|lo].
      * destruct g.
        -- destruct (p x) eqn:Hp.
           ++ destruct (rep p true 0 (option_map pred None) (S i) s c k) eqn:Hr.
              ** injection H as <-. now apply (Hmore None eq_refl I eq_refl).
              ** now apply Hstop.
           ++ now apply Hstop.
        -- destruct (k i (x :: s) c) eqn:Hk.
           ++ injection H as <-. now apply Hstop.
           ++ destruct (p x) eqn:Hp; [|discriminate].
              now apply (Hmore None eq_refl I eq_refl).
      * destruct (p x) eqn:Hp; [|discriminate].
        now apply (Hmore None eq_refl I eq_refl).
Qed.

(** A successful run of the matcher went through a span of the pattern
    and then through its continuation. *)
Lemma rm_sound (r : re) :
  bounds_ok r = true ->
  forall i s c (k : cont) res,
    rm r i s c k = Some res ->
    exists i' s' c', spans r i s c i' s' c' /\ k i' s' c' = Some res.
Proof.
  induction r as [| |p|a IHa b IHb|a IHa b IHb|p lo hi g|n a IHa];
    intros Hwf i s c k res H; simpl in *.
  - now exists i, s, c.
  - destruct (i =? 0) eqn:E; [|discriminate]. apply Nat.eqb_eq in E.
    now exists i, s, c.
  - destruct s as [|x s]; [discriminate|]. destruct (p x) eqn:Hp; [|discriminate].
    exists (S i), s, c. split; [|assumption]. now exists x.
  - apply andb_true_iff in Hwf as [Ha Hb].
    apply (IHa Ha) in H as (i1 & s1 & c1 & Hs1 & H).
    apply (IHb Hb) in H as (i2 & s2 & c2 & Hs2 & H).
    exists i2, s2, c2. split; [|assumption]. now exists i1, s1, c1.
  - apply andb_true_iff in Hwf as [Ha Hb].
    destruct (rm a i s c k) eqn:Ea.
    + injection H as <-. apply (IHa Ha) in Ea as (i1 & s1 & c1 & Hs1 & Hk).
      exists i1, s1, c1. split; [now left | assumption].
    + apply (IHb Hb) in H as (i1 & s1 & c1 & Hs1 & Hk).
      exists i1, s1, c1. split; [now right | assumption].
  - apply rep_sound in H.
    + destruct H as (u & s' & -> & Hu & Hlo & Hhi & Hk).
      exists (i + List.length u), s', c. split; [|assumption].
      now exists u.
    + destruct hi; [now apply Nat.leb_le | exact I].
  - apply (IHa Hwf) in H as (i1 & s1 & c1 & Hs1 & Hk).
    exists i1, s1, ((n, firstn (i1 - i) s) :: c1). split; [|assumption].
    now exists c1.
Qed.


Lemma match_at_sound (r : re) (i : nat) (s : jstr) (e : nat) (c : caps) :
  bounds_ok r = true ->
  match_at r i s = Some (e, c) ->
  exists s', spans r i s [] e s' c.
Proof.
  intros Hwf H. unfold match_at in H.
  apply (rm_sound r Hwf) in H as (i' & s' & c' & Hs & Hk).
  injection Hk as -> ->. now exists s'.
Qed.

Lemma spans_groupless (r : re) :
  groupless r = true ->
  forall i s c i' s' c', spans r i s c i' s' c' -> c' = c.
Proof.
  induction r as [| |p|a IHa b IHb|a IHa b IHb|p lo hi g|n a IHa];
    intros Hg i s c i' s' c' H; simpl in *; try discriminate.
  - tauto.
  - tauto.
  - destruct H as (x & _ & _ & _ & ->). reflexivity.
  - apply andb_true_iff in Hg as [Ha Hb].
    destruct H as (i1 & s1 & c1 & H1 & H2).
    apply (IHa Ha) in H1. apply (IHb Hb) in H2. congruence.
  - apply andb_true_iff in Hg as [Ha Hb].
    destruct H as [H|H]; [now apply (IHa Ha) in H | now apply (IHb Hb) in H].
  - destruct H as (u & _ & _ & _ & _ & _ & ->). reflexivity.
Qed.

Lemma firstn_span {A} (i : nat) (u s : list A) :
  firstn (i + List.length u - i) (u ++ s) = u.
Proof.
  replace (i + List.length u - i) with (List.length u + 0) by lia.
  rewrite firstn_app_2. simpl. apply app_nil_r.
Qed.

(** ** The scan of a [g] pattern *)







(** ** The differential pattern *)




(** ** What a line does to the snapshot *)

Lemma accumulate_differential (w : World) (content : jstr) (st : state) :
  differential (accumulate w content st) = differential st.
Proof.
  rewrite accumulate_eq. cbv zeta.
  set (st1 := if falsy (currentAgentName st) then _ else st).
  assert (H1 : differential st1 = differential st)
    by (subst st1; now destruct (falsy (currentAgentName st))).
  destruct (remove_all Pat.fillerRegex _); [exact H1|].
  destruct (trim _) as [|y clean]; exact H1.
Qed.

Lemma fold_turns_differential (w : World) (content : jstr) (st : state) :
  differential (fold_turns w content st) = differential st.
Proof.
  unfold fold_turns. destruct (agentMatch content) as [name|].
  - now destruct (negb (same_name (currentAgentName st) name)).
  - destruct (status_test content); [reflexivity|].
    apply accumulate_differential.
Qed.

Lemma process_line_differential (w : World) (st : state) (line : jstr) :
  differential (process_line w st line) =
  match recognized_differential line with
  | Some v => Some v
  | None => differential st
  end.
Proof.
  unfold process_line, recognized_differential.
  destruct (content_of line) as [content|]; [|reflexivity].
  rewrite fold_turns_differential.
  now destruct (detect_differential content).
Qed.

(** The snapshot step and the rest of the cascade do not see each
    other. *)
Lemma accumulate_setDifferential (w : World) (content : jstr) (v : snapshot) (st : state) :
  accumulate w content (setDifferential v st) = setDifferential v (accumulate w content st).
Proof.
  rewrite !accumulate_eq. cbv zeta. simpl currentAgentName. simpl created.
  destruct (falsy (currentAgentName st));
    (destruct (remove_all Pat.fillerRegex _); [reflexivity|]);
    now destruct (trim _).
Qed.

Lemma fold_turns_setDifferential (w : World) (content : jstr) (v : snapshot) (st : state) :
  fold_turns w content (setDifferential v st) = setDifferential v (fold_turns w content st).
Proof.
  unfold fold_turns. simpl currentAgentName. simpl created.
  destruct (agentMatch content) as [name|].
  - now destruct (negb (same_name (currentAgentName st) name)).
  - destruct (status_test content); [reflexivity|].
    apply accumulate_setDifferential.
Qed.

Lemma render_setDifferential (w : World) (v : snapshot) (st : state) :
  render w (setDifferential v st) =
  match render w st with
  | Done s => Done (setDifferential v s)
  | Raised e s => Raised e (setDifferential v s)
  | Crashed e s => Crashed e (setDifferential v s)
  end.
Proof.
  unfold render. simpl.
  now destruct (run_updaters _ _ _ _ _ _) as [[ms k]|].
Qed.

(** A render after one more queued function. *)
Lemma render_setMessages (w : World) (f : updater) (st st1 : state) :
  render w st = Done st1 ->
  render w (setMessages f st) =
  match run_updater w (currentAgentName st) (lastMessageId st) f
          (messages st1) (created st1) with
  | Some (ms, k) =>
      Done {| messages := ms; differential := differential st;
              currentAgentName := currentAgentName st;
              lastMessageId := lastMessageId st; created := k; pending := [] |}
  | None => Crashed type_error (setMessages f st)
  end.
Proof.
  intro H. apply render_done in H as (H & _).
  unfold render. simpl. rewrite run_updaters_app, H. simpl.
  now destruct (run_updater _ _ _ _ _ _) as [[ms k]|].
Qed.

(** ** C7: what the snapshot holds *)

Lemma recognized_differential_inv (line : jstr) (v : snapshot) :
  recognized_differential line = Some v ->
  exists content,
    content_of line = Some content /\
    (includes top_marker content = true \/ includes updated_marker content = true) /\
    matchAll Pat.dxRegex content <> [] /\
    v = {| items := map dx_entry (firstn 3 (matchAll Pat.dxRegex content));
           full := content |}.
Proof.
  unfold recognized_differential, detect_differential, topDiagnoses.
  destruct (content_of line) as [content|]; [|discriminate].
  destruct (includes top_marker content || includes updated_marker content) eqn:E;
    [|discriminate].
  destruct (matchAll Pat.dxRegex content) as [|m ms] eqn:Em; [discriminate|].
  intro H. injection H as <-. exists content. rewrite Em.
  repeat split; [now apply orb_true_iff | discriminate].
Qed.



(** ** C6: the snapshot is replaced *)

(** C6. After two recognized differential lines processed one after the
    other, the snapshot is the one parsed from the second line, whatever
    the first one gave, and the render that follows shows it. *)
Theorem differential_replace_not_merge (w : World) (st : state)
    (l1 l2 : jstr) (v1 v2 : snapshot) :
  recognized_differential l1 = Some v1 ->
  recognized_differential l2 = Some v2 ->
  differential (process_line w st l1) = Some v1 /\
  differential (process_lines w st [l1; l2]) = Some v2 /\
  differential (state_of (render w (process_lines w st [l1; l2]))) = Some v2 /\
  exists content2,
    content_of l2 = Some content2 /\
    v2 = {| items := topDiagnoses content2; full := content2 |}.
Proof.
  intros H1 H2.
  assert (E2 : differential (process_lines w st [l1; l2]) = Some v2).
  { rewrite !process_lines_cons. simpl process_lines.
    now rewrite process_line_differential, H2. }
  split; [|split; [|split]].
  - now rewrite process_line_differential, H1.
  - exact E2.
  - destruct (render w (process_lines w st [l1; l2])) as [s|e s|e s] eqn:E; simpl.
    + apply render_done in E as (_ & -> & _). exact E2.
    + now apply render_not_raised in E.
    + apply render_crashed in E as [_ ->]. exact E2.
  - apply recognized_differential_inv in H2 as (c2 & Hc & _ & _ & ->).
    now exists c2.
Qed.

Lemma differential_replace_not_merge_witness :
  differential (process_lines world_a initial_state [lupus_line; other_dx_line]) =
  Some other_snapshot.
Proof.
  refine (proj1 (proj2 (differential_replace_not_merge world_a initial_state
            lupus_line other_dx_line lupus_snapshot other_snapshot _ _)));
    vm_compute; reflexivity.
Defined.

(** ** C2: a differential line also goes through the rest of the cascade *)

Lemma status_line_step (w : World) (st : state) (line text : jstr) :
  status_line line = Some text ->
  process_line w st line =
  setMessages (PushStatus text)
    match recognized_differential line with
    | Some v => setDifferential v st
    | None => st
    end.
Proof.
  unfold status_line, recognized_differential, process_line.
  destruct (content_of line) as [content|]; [|discriminate].
  unfold fold_turns.
  destruct (agentMatch content); [discriminate|].
  destruct (status_test content); [|discriminate].
  intro H. now injection H as <-.
Qed.

(** A status function queued last shows as one more turn at the end. *)
Lemma render_status (w : World) (text : jstr) (st st1 : state) :
  render w st = Done st1 ->
  render w (setMessages (PushStatus text) st) =
  Done {| messages := messages st1 ++
                      [StatusTurn (IdNumber (now_plus_random w (created st1)))
                         text (locale_time w (created st1))];
          differential := differential st;
          currentAgentName := currentAgentName st;
          lastMessageId := lastMessageId st;
          created := S (created st1); pending := [] |}.
Proof. intro H. now rewrite (render_setMessages w _ st st1 H). Qed.

(** C2, as the code has it.  A recognized differential line replaces the
    snapshot and then goes on through agent, status and content handling:
    locals and queue change as [fold_turns] would change them without
    the snapshot step, so that the render shows the same turn list, and a
    recognized line that is a status line queues a status, which the
    render shows as one more StatusTurn. *)
Theorem differential_line_falls_through (w : World) (st : state)
    (line : jstr) (v : snapshot) :
  recognized_differential line = Some v ->
  exists content,
    content_of line = Some content /\
    process_line w st line = fold_turns w content (setDifferential v st) /\
    process_line w st line = setDifferential v (fold_turns w content st) /\
    differential (process_line w st line) = Some v /\
    messages (state_of (render w (process_line w st line))) =
      messages (state_of (render w (fold_turns w content st))) /\
    (status_line line = Some content ->
     pending (process_line w st line) = pending st ++ [PushStatus content] /\
     forall st1,
       render w st = Done st1 ->
       exists st2,
         render w (process_line w st line) = Done st2 /\
         differential st2 = Some v /\
         messages st2 =
           messages st1 ++ [StatusTurn (IdNumber (now_plus_random w (created st1)))
                              content (locale_time w (created st1))]).
Proof.
  intro Hrec. pose proof (process_line_differential w st line) as Hd.
  rewrite Hrec in Hd.
  assert (Hrec' := Hrec).
  unfold recognized_differential in Hrec.
  destruct (content_of line) as [content|] eqn:Ec; [|discriminate].
  assert (E : process_line w st line = fold_turns w content (setDifferential v st))
    by (unfold process_line; now rewrite Ec, Hrec).
  exists content. split; [reflexivity|]. split; [exact E|].
  split; [now rewrite E, fold_turns_setDifferential|].
  split; [exact Hd|]. split.
  - rewrite E, fold_turns_setDifferential, render_setDifferential.
    now destruct (render w (fold_turns w content st)).
  - intro Hs. rewrite (status_line_step w st line content Hs), Hrec'.
    split; [reflexivity|]. intros st1 H1.
    eexists. split; [apply render_status|].
    + rewrite render_setDifferential, H1. reflexivity.
    + split; reflexivity.
Qed.

Lemma differential_line_falls_through_witness :
  exists st2,
    render world_a (process_line world_a initial_state lupus_line) = Done st2 /\
    differential st2 = Some lupus_snapshot /\
    messages st2 =
      [StatusTurn (IdNumber 7000) (full lupus_snapshot) (u16 "10:00 AM")].
Proof.
  destruct (differential_line_falls_through world_a initial_state lupus_line lupus_snapshot)
    as (content & Hc & _ & _ & _ & _ & Hs); [vm_compute; reflexivity|].
  assert (E : content = full lupus_snapshot)
    by (assert (E0 : content_of lupus_line = Some (full lupus_snapshot))
          by (vm_compute; reflexivity); congruence).
  subst content.
  destruct Hs as [_ Hs]; [vm_compute; reflexivity|].
  exact (Hs initial_state (render_idle world_a initial_state eq_refl)).
Defined.

(** The line of scenario 3 is recognized as a differential line, and
    the render that follows it from the reset state shows a StatusTurn. *)
Lemma differential_line_terminal_counterexample :
  recognized_differential lupus_line = Some lupus_snapshot /\
  render world_a (process_line world_a initial_state lupus_line) =
    Done {| messages := [StatusTurn (IdNumber 7000) (full lupus_snapshot) (u16 "10:00 AM")];
            differential := Some lupus_snapshot;
            currentAgentName := None; lastMessageId := IdNull;
            created := 1; pending := [] |} /\
  messages (state_of (render world_a (process_line world_a initial_state lupus_line))) <>
    messages initial_state.
Proof.
  split; [vm_compute; reflexivity|].
  split; [vm_compute; reflexivity|].
  vm_compute. discriminate.
Qed.

(** ** C10: the two markers *)

(** C10, as the code has it.  The snapshot changes only on a line whose
    payload holds one of the two literals, the first of which begins with
    U+FFFD; a payload holding neither leaves the snapshot as it was, and
    so does the line that carries the phrase after the chart glyph. *)
Theorem differential_markers (w : World) (st : state) (line : jstr) :
  (differential (process_line w st line) <> differential st ->
   exists content pre post,
     content_of line = Some content /\
     (content = pre ++ top_marker ++ post \/
      content = pre ++ updated_marker ++ post)) /\
  (forall content,
      content_of line = Some content ->
      includes top_marker content = false ->
      includes updated_marker content = false ->
      differential (process_line w st line) = differential st) /\
  top_marker = 0xFFFD%N :: 0x20%N :: top_phrase /\
  (includes top_phrase chart_top_line = true /\
   differential (process_line w st chart_top_line) = differential st).
Proof.
  split; [|split; [|split; [reflexivity|split; [reflexivity|]]]].
  - intro Hne. rewrite process_line_differential in Hne.
    destruct (recognized_differential line) as [v|] eqn:Hrec; [|congruence].
    apply recognized_differential_inv in Hrec as (content & Hc & [Hm|Hm] & _).
    + apply includes_spec in Hm as (pre & post & ->).
      exists (pre ++ top_marker ++ post), pre, post. auto.
    + apply includes_spec in Hm as (pre & post & ->).
      exists (pre ++ updated_marker ++ post), pre, post. auto.
  - intros content Hc H1 H2. rewrite process_line_differential.
    unfold recognized_differential, detect_differential. now rewrite Hc, H1, H2.
  - rewrite process_line_differential.
    assert (E : recognized_differential chart_top_line = None) by (vm_compute; reflexivity).
    now rewrite E.
Qed.

Lemma differential_markers_witness :
  exists content pre post,
    content_of lupus_line = Some content /\
    (content = pre ++ top_marker ++ post \/
     content = pre ++ updated_marker ++ post).
Proof.
  apply (proj1 (differential_markers world_a initial_state lupus_line)).
  vm_compute. discriminate.
Defined.

(** A line that holds the phrase, nowhere after U+FFFD, and whose
    snapshot changes all the same, as it holds the second marker too; and
    a line that holds neither literal as written, a colour code standing
    inside the second one, and whose snapshot changes. *)
Lemma differential_markers_counterexample :
  (includes top_phrase both_phrases_line = true /\
   includes top_marker both_phrases_line = false /\
   differential (process_line world_a initial_state both_phrases_line) <>
   differential initial_state) /\
  (includes top_marker coloured_marker_line = false /\
   includes updated_marker coloured_marker_line = false /\
   differential (process_line world_a initial_state coloured_marker_line) <>
   differential initial_state).
Proof.
  split.
  - split; [vm_compute; reflexivity|].
    split; [vm_compute; reflexivity|].
    vm_compute. discriminate.
  - split; [vm_compute; reflexivity|].
    split; [vm_compute; reflexivity|].
    vm_compute. discriminate.
Qed.

(** ** C9: status lines are not deduplicated *)

(** C9. A status line queues a status function in every state, and the
    function, which reads no variable of the loop, adds a StatusTurn
    when React calls it: the same status line fed twice in a row leaves
    two StatusTurns with the same text at the end of the turn list that
    the render would have shown without them; the locals are not
    affected. *)
Theorem status_lines_not_deduplicated (w : World) (st : state) (line text : jstr) :
  status_line line = Some text ->
  pending (process_lines w st [line; line]) =
    pending st ++ [PushStatus text; PushStatus text] /\
  currentAgentName (process_lines w st [line; line]) = currentAgentName st /\
  lastMessageId (process_lines w st [line; line]) = lastMessageId st /\
  forall st1,
    render w st = Done st1 ->
    exists st2,
      render w (process_lines w st [line; line]) = Done st2 /\
      messages st2 =
        messages st1 ++
        [StatusTurn (IdNumber (now_plus_random w (created st1)))
           text (locale_time w (created st1));
         StatusTurn (IdNumber (now_plus_random w (S (created st1))))
           text (locale_time w (S (created st1)))] /\
      map view (messages st2) =
        map view (messages st1) ++ [StatusView text; StatusView text] /\
      currentAgentName st2 = currentAgentName st /\
      lastMessageId st2 = lastMessageId st.
Proof.
  intro H. rewrite !process_lines_cons. simpl process_lines.
  rewrite (status_line_step w _ line text H), (status_line_step w st line text H).
  set (D := fun s : state => match recognized_differential line with
                             | Some v => setDifferential v s
                             | None => s
                             end).
  change (match recognized_differential line with
          | Some v => setDifferential v st
          | None => st
          end) with (D st).
  change (match recognized_differential line with
          | Some v => setDifferential v (setMessages (PushStatus text) (D st))
          | None => setMessages (PushStatus text) (D st)
          end) with (D (setMessages (PushStatus text) (D st))).
  assert (HD : forall s, pending (D s) = pending s /\
                         currentAgentName (D s) = currentAgentName s /\
                         lastMessageId (D s) = lastMessageId s)
    by (intro s; unfold D; destruct (recognized_differential line); repeat split).
  assert (HR : forall s s1, render w s = Done s1 ->
                 exists s2, render w (D s) = Done s2 /\ messages s2 = messages s1 /\
                            created s2 = created s1)
    by (intros s s1 Hs; unfold D; destruct (recognized_differential line);
        [rewrite render_setDifferential, Hs|]; eexists; repeat split; eassumption).
  split; [|split; [|split]].
  - simpl. rewrite (proj1 (HD _)). simpl. rewrite (proj1 (HD st)), <- app_assoc.
    reflexivity.
  - simpl. rewrite (proj1 (proj2 (HD _))). simpl. apply HD.
  - simpl. rewrite (proj2 (proj2 (HD _))). simpl. apply HD.
  - intros st1 H1.
    destruct (HR st st1 H1) as (s2 & E2 & M2 & K2).
    pose proof (render_status w text (D st) s2 E2) as E3.
    destruct (HR _ _ E3) as (s4 & E4 & M4 & K4).
    pose proof (render_status w text _ s4 E4) as E5.
    eexists. split; [exact E5|]. simpl.
    rewrite M4, K4. simpl. rewrite M2, K2, <- app_assoc.
    destruct (HD (setMessages (PushStatus text) (D st))) as (_ & -> & ->). simpl.
    destruct (HD st) as (_ & -> & ->).
    repeat split. rewrite map_app. reflexivity.
Qed.

Lemma status_lines_not_deduplicated_witness :
  exists st2,
    render world_a (process_lines world_a initial_state [gathering_line; gathering_line]) =
      Done st2 /\
    map view (messages st2) =
      [StatusView (codepoints [0x1F914%N] ++ u16 " Gathering history...");
       StatusView (codepoints [0x1F914%N] ++ u16 " Gathering history...")].
Proof.
  destruct (status_lines_not_deduplicated world_a initial_state gathering_line
              (codepoints [0x1F914%N] ++ u16 " Gathering history..."))
    as (_ & _ & _ & H); [vm_compute; reflexivity|].
  destruct (H initial_state (render_idle world_a initial_state eq_refl))
    as (st2 & E & _ & V & _).
  exists st2. split; [exact E | exact V].
Defined.

(** ** C5: agent headers *)

Lemma same_name_true (cur : option jstr) (name : jstr) :
  same_name cur name = true <-> cur = Some name.
Proof.
  destruct cur as [n|]; simpl.
  - rewrite eqb_eq. split; [now intros -> | now intros [= ->]].
  - split; discriminate.
Qed.

Lemma agent_header_step (w : World) (st : state) (line name : jstr) :
  agent_header line = Some name ->
  process_line w st line =
  let st0 := match recognized_differential line with
             | Some v => setDifferential v st
             | None => st
             end in
  if same_name (currentAgentName st) name then st0
  else setMessages (PushAgent name)
         (set_current name (IdNumber (now_plus_random w (created st))) st0).
Proof.
  unfold agent_header, recognized_differential, process_line.
  destruct (content_of line) as [content|]; [|discriminate].
  intro H. unfold fold_turns. rewrite H. cbv zeta.
  destruct (detect_differential content) as [v|]; simpl currentAgentName; simpl created;
    now destruct (same_name (currentAgentName st) name).
Qed.

(** The number of turns a render adds is the number of queued functions
    that push. *)
Lemma set_content_length (n : nat) (c : jstr) (ms : list message) :
  List.length (set_content n c ms) = List.length ms.
Proof.
  revert n; induction ms as [|m ms IH]; intros [|n]; simpl; try reflexivity.
  now rewrite IH.
Qed.

Lemma append_content_length (last : msg_id) (c : jstr) (prev ms : list message) :
  append_content last c prev = Some ms -> List.length ms = List.length prev.
Proof.
  unfold append_content.
  destruct (findIndex last prev) as [n|]; [|now intros [= <-]].
  destruct (nth_error prev n) as [[i a ex t|i s t]|]; try discriminate;
    [|now intros [= <-]].
  destruct (negb (JS.eqb (last_line ex) c)); intros [= <-];
    [apply set_content_length | reflexivity].
Qed.

Lemma run_updaters_length (w : World) (cur : option jstr) (last : msg_id)
    (fs : list updater) :
  forall prev k ms k',
    run_updaters w cur last fs prev k = Some (ms, k') ->
    List.length ms = List.length prev + List.length (filter is_push fs).
Proof.
  induction fs as [|f fs IH]; intros prev k ms k' H; simpl in H.
  - injection H as <- <-. simpl. lia.
  - destruct (run_updater w cur last f prev k) as [[ms1 k1]|] eqn:E; [|discriminate].
    rewrite (IH _ _ _ _ H). clear IH H.
    destruct f as [name|text| |c]; simpl in E |- *;
      try (injection E as <- <-; rewrite length_app; simpl; lia).
    destruct (append_content last c prev) as [ms2|] eqn:Ea; [|discriminate].
    injection E as <- <-. rewrite (append_content_length _ _ _ _ Ea). lia.
Qed.

(** C5, as the code has it.  Of two consecutive headers naming the same
    agent the second never queues anything nor touches the locals, and
    the first opens a turn exactly when the name is not the current
    agent's: the pair adds one turn or none.  A header naming another
    agent than the current one makes that name the current agent's and
    queues one function, which the render shows as one more AgentTurn, of
    that name and with empty content, at the end of the list. *)
Theorem boundary_collapse (w : World) (st : state) (l1 l2 name : jstr) :
  agent_header l1 = Some name ->
  agent_header l2 = Some name ->
  let st1 := process_line w st l1 in
  let st2 := process_line w st1 l2 in
  pending st2 = pending st1 /\
  currentAgentName st2 = Some name /\
  lastMessageId st2 = lastMessageId st1 /\
  created st2 = created st1 /\
  messages (state_of (render w st2)) = messages (state_of (render w st1)) /\
  (currentAgentName st = Some name ->
   pending st2 = pending st /\ lastMessageId st2 = lastMessageId st /\
   messages (state_of (render w st2)) = messages (state_of (render w st))) /\
  (currentAgentName st <> Some name ->
   pending st2 = pending st ++ [PushAgent name] /\
   lastMessageId st2 = IdNumber (now_plus_random w (created st)) /\
   (forall r,
       render w st2 = Done r ->
       exists ms t,
         messages r = ms ++ [AgentTurn (IdNumber (now_plus_random w (created st)))
                               name [] t]) /\
   (forall r0 r,
       render w st = Done r0 -> render w st2 = Done r ->
       List.length (messages r) = S (List.length (messages r0))) /\
   (pending st = [] ->
    exists r,
      render w st2 = Done r /\
      messages r =
        messages st ++ [AgentTurn (IdNumber (now_plus_random w (created st)))
                          name [] (locale_time w (S (created st)))] /\
      currentAgentName r = Some name /\
      lastMessageId r = IdNumber (now_plus_random w (created st)))).
Proof.
  intros H1 H2. cbv zeta.
  (* the snapshot step changes nothing of what is compared here *)
  assert (HD : forall (l : jstr) s,
             let s' := match recognized_differential l with
                       | Some v => setDifferential v s
                       | None => s
                       end in
             pending s' = pending s /\ currentAgentName s' = currentAgentName s /\
             lastMessageId s' = lastMessageId s /\ created s' = created s /\
             messages s' = messages s /\
             messages (state_of (render w s')) = messages (state_of (render w s)) /\
             (forall r, render w s' = Done r ->
                exists r', render w s = Done r' /\ messages r' = messages r /\
                           currentAgentName r' = currentAgentName r /\
                           lastMessageId r' = lastMessageId r)).
  { intros l s. cbv zeta. destruct (recognized_differential l) as [v|].
    - rewrite render_setDifferential. repeat split.
      + now destruct (render w s).
      + intros r Hr. destruct (render w s) as [r'|e r'|e r']; try discriminate.
        injection Hr as <-. exists r'. repeat split.
    - repeat split. intros r Hr. exists r. repeat split. exact Hr. }
  set (st1 := process_line w st l1).
  assert (C1 : currentAgentName st1 = Some name).
  { subst st1. rewrite (agent_header_step w st l1 name H1). cbv zeta.
    destruct (same_name (currentAgentName st) name) eqn:E.
    - destruct (HD l1 st) as (_ & -> & _). now apply same_name_true.
    - reflexivity. }
  assert (E2 : process_line w st1 l2 =
               match recognized_differential l2 with
               | Some v => setDifferential v st1
               | None => st1
               end).
  { rewrite (agent_header_step w st1 l2 name H2). cbv zeta.
    now rewrite (proj2 (same_name_true _ _) C1). }
  destruct (HD l2 st1) as (P2 & N2 & L2 & K2 & M2 & R2 & R2').
  rewrite <- E2 in P2, N2, L2, K2, M2, R2, R2'.
  split; [exact P2|]. split; [congruence|]. split; [exact L2|].
  split; [exact K2|]. split; [exact R2|].
  destruct (HD l1 st) as (P0 & N0 & L0 & K0 & M0 & R0 & R0').
  pose proof (agent_header_step w st l1 name H1) as E1. cbv zeta in E1.
  fold st1 in E1.
  set (st0 := match recognized_differential l1 with
              | Some v => setDifferential v st
              | None => st
              end) in *.
  clearbody st0. split.
  - intro Hc. apply same_name_true in Hc. rewrite Hc in E1.
    rewrite P2, L2, R2, E1. repeat split; assumption.
  - intro Hc.
    assert (Hn : same_name (currentAgentName st) name = false).
    { destruct (same_name (currentAgentName st) name) eqn:E; [|reflexivity].
      apply same_name_true in E. contradiction. }
    rewrite Hn in E1.
    assert (Q1 : pending st1 = pending st ++ [PushAgent name])
      by (rewrite E1; simpl; now rewrite P0).
    assert (I1 : lastMessageId st1 = IdNumber (now_plus_random w (created st)))
      by (rewrite E1; reflexivity).
    split; [congruence|]. split; [congruence|].
    (* the render of [st1], function by function *)
    assert (Hrun : forall r, render w st1 = Done r ->
              exists ms k,
                run_updaters w (Some name) (IdNumber (now_plus_random w (created st)))
                  (pending st) (messages st) (S (created st)) = Some (ms, k) /\
                messages r = ms ++ [AgentTurn (IdNumber (now_plus_random w (created st)))
                                      name [] (locale_time w k)] /\
                currentAgentName r = Some name /\
                lastMessageId r = IdNumber (now_plus_random w (created st))).
    { intros r Hr. apply render_done in Hr as (Hr & _ & Cr & Lr & _).
      rewrite C1, I1, Q1, run_updaters_app in Hr.
      assert (Em : messages st1 = messages st) by (rewrite E1; simpl; exact M0).
      assert (Ek : created st1 = S (created st)) by (rewrite E1; simpl; now rewrite K0).
      rewrite Em, Ek in Hr.
      destruct (run_updaters w _ _ (pending st) (messages st) (S (created st)))
        as [[ms k]|]; [|discriminate].
      simpl in Hr. injection Hr as Hm Hk. exists ms, k.
      repeat split; [now rewrite <- Hm | congruence | congruence]. }
    split; [|split].
    + intros r Hr. destruct (R2' r Hr) as (r' & Hr' & Mr & _).
      destruct (Hrun r' Hr') as (ms & k & _ & Hm & _).
      exists ms, (locale_time w k). congruence.
    + intros r0 r Hr0 Hr. destruct (R2' r Hr) as (r' & Hr' & Mr & _).
      destruct (Hrun r' Hr') as (ms & k & Hq & Hm & _).
      apply render_done in Hr0 as (Hr0 & _).
      apply run_updaters_length in Hq. apply run_updaters_length in Hr0.
      rewrite <- Mr, Hm, length_app. simpl. lia.
    + intro Hq0.
      destruct (render w st1) as [r'|e r'|e r'] eqn:Er.
      * destruct (Hrun r' eq_refl) as (ms & k & Hq & Hm & Cr & Lr).
        rewrite Hq0 in Hq. simpl in Hq. injection Hq as <- <-.
        rewrite E2. destruct (recognized_differential l2) as [v|].
        -- rewrite render_setDifferential, Er. eexists. split; [reflexivity|].
           simpl. repeat split; assumption.
        -- exists r'. repeat split; assumption.
      * now apply render_not_raised in Er.
      * exfalso. unfold render in Er.
        rewrite Q1, Hq0 in Er. simpl in Er. discriminate.
Qed.

Lemma boundary_collapse_witness :
  exists r,
    render world_a (process_lines world_a initial_state [house_header; house_header]) =
      Done r /\
    messages r = [AgentTurn (IdNumber 7000) house [] (u16 "10:00 AM")] /\
    currentAgentName r = Some house.
Proof.
  destruct (boundary_collapse world_a initial_state house_header house_header house)
    as (_ & _ & _ & _ & _ & _ & D); try (vm_compute; reflexivity).
  destruct D as (_ & _ & _ & _ & D); [discriminate|].
  destruct (D eq_refl) as (r & Hr & Hm & Hc & _).
  exists r. repeat split; assumption.
Defined.

(** With Dr. House as the current agent, two more headers naming
    Dr. House add no turn at all. *)
Lemma boundary_collapse_counterexample :
  render world_a (process_line world_a initial_state house_header) =
    Done (house_state world_a) /\
  agent_header house_header = Some house /\
  process_lines world_a (house_state world_a) [house_header; house_header] =
    house_state world_a /\
  render world_a (process_lines world_a (house_state world_a)
                    [house_header; house_header]) = Done (house_state world_a) /\
  ~ exists m,
      messages (state_of (render world_a
                            (process_lines world_a (house_state world_a)
                               [house_header; house_header]))) =
      messages (house_state world_a) ++ [m].
Proof.
  split; [vm_compute; reflexivity|].
  split; [vm_compute; reflexivity|].
  split; [vm_compute; reflexivity|].
  split; [vm_compute; reflexivity|].
  intros [m H]. vm_compute in H. discriminate.
Qed.

(** ** Lines made of frame glyphs *)

Lemma mem_In (c : char16) (l : list char16) : mem c l = true <-> In c l.
Proof.
  unfold mem. rewrite existsb_exists. split.
  - intros (x & Hin & E). apply N.eqb_eq in E. now subst.
  - intro H. exists c. split; [assumption | apply N.eqb_refl].
Qed.

Lemma is_box_cases (c : char16) :
  is_box c = true ->
  c = 0x256D%N \/ c = 0x256E%N \/ c = 0x256F%N \/ c = 0x2570%N \/ c = 0x2500%N
  \/ c = 0x2502%N.
Proof.
  intro H. apply mem_In in H. simpl in H.
  repeat (destruct H as [H|H]; [auto 10|]). contradiction.
Qed.

Lemma box_not_ws (c : char16) : is_box c = true -> is_ws c = false.
Proof.
  intro H. apply is_box_cases in H.
  repeat (destruct H as [H|H]; [subst; reflexivity|]). subst; reflexivity.
Qed.

Lemma box_not_status (c : char16) :
  is_box c = true -> mem c (codepoints Pat.status_glyphs) = false.
Proof.
  intro H. apply is_box_cases in H.
  repeat (destruct H as [H|H]; [subst; reflexivity|]). subst; reflexivity.
Qed.

Lemma box_plain (c : char16) :
  is_box c = true -> c <> 0x1B%N /\ c <> 0x41%N /\ c <> 0xFFFD%N /\ c <> 0xD83D%N.
Proof.
  intro H. apply is_box_cases in H.
  repeat (destruct H as [H|H]; [subst; repeat split; discriminate|]).
  subst; repeat split; discriminate.
Qed.

Lemma trimStart_keeps (c : char16) (s : jstr) :
  is_ws c = false -> trimStart (c :: s) = c :: s.
Proof. intro H. simpl. now rewrite H. Qed.

Lemma trimEnd_keeps (s : jstr) (c : char16) :
  is_ws c = false -> trimEnd (s ++ [c]) = s ++ [c].
Proof.
  intro H. unfold trimEnd. rewrite rev_app_distr.
  change (rev [c] ++ rev s) with (c :: rev s).
  rewrite trimStart_keeps by assumption.
  change (c :: rev s) with ([c] ++ rev s). rewrite rev_app_distr, rev_involutive.
  reflexivity.
Qed.

(** A non-empty string cut into its body and its last unit. *)
Lemma snoc_cases {A} (l : list A) : l = [] \/ exists l' x, l = l' ++ [x].
Proof.
  destruct l as [|y l]; [now left|]. right.
  exists (removelast (y :: l)), (last (y :: l) y).
  apply app_removelast_last. discriminate.
Qed.

Lemma forall_last {A} (P : A -> Prop) (l : list A) (x : A) :
  Forall P (l ++ [x]) -> P x.
Proof. intro H. apply Forall_app in H as [_ H]. now inversion H. Qed.

Lemma scan_step (r : re) (i : nat) (x : char16) (s : jstr) :
  scan r i 0 (x :: s) =
  match match_at r i (x :: s) with
  | Some (e, c) =>
      Hit {| h_start := i; h_end := e; h_caps := c |} ::
      (if e =? i then Kept x :: scan r (S i) 0 s
       else scan r (S i) (e - i - 1) s)
  | None => Kept x :: scan r (S i) 0 s
  end.
Proof. reflexivity. Qed.

(** Removing the matches of a one-unit class is filtering. *)
Lemma remove_all_class (p : char16 -> bool) (s : jstr) :
  remove_all (Cls p) s = filter (fun x => negb (p x)) s.
Proof.
  unfold remove_all.
  enough (H : forall i, kept (scan (Cls p) i 0 s) = filter (fun x => negb (p x)) s)
    by apply H.
  induction s as [|x s IH]; intro i; [reflexivity|].
  rewrite scan_step. unfold match_at. cbn [rm filter].
  destruct (p x) eqn:Hp; cbn [negb].
  - replace (S i =? i) with false by (symmetry; apply Nat.eqb_neq; lia).
    replace (S i - i - 1) with 0 by lia. apply IH.
  - change (kept (Kept x :: scan (Cls p) (S i) 0 s))
      with (x :: kept (scan (Cls p) (S i) 0 s)).
    f_equal. apply IH.
Qed.

Lemma filter_none {A} (f : A -> bool) (l : list A) :
  Forall (fun x => f x = false) l -> filter f l = [].
Proof.
  induction 1 as [|x l Hx Hl IH]; simpl; [reflexivity|]. now rewrite Hx.
Qed.

(** Every hit of a search is a successful attempt on a suffix. *)
Lemma search_sound (r : re) (s : jstr) :
  forall i h,
    search r i s = Some h ->
    exists pre sfx,
      s = pre ++ sfx /\ h_start h = i + List.length pre /\
      match_at r (h_start h) sfx = Some (h_end h, h_caps h).
Proof.
  induction s as [|x s IH]; intros i h H; simpl in H.
  - destruct (match_at r i []) as [[e c]|] eqn:E; [|discriminate].
    injection H as <-. exists [], []. simpl. rewrite Nat.add_0_r. auto.
  - destruct (match_at r i (x :: s)) as [[e c]|] eqn:E.
    + injection H as <-. exists [], (x :: s). simpl. rewrite Nat.add_0_r. auto.
    + apply IH in H as (pre & sfx & -> & Hst & Hm).
      exists (x :: pre), sfx. simpl. repeat split; [lia | assumption].
Qed.

Lemma includes_first (x : char16) (needle s : jstr) :
  includes (x :: needle) s = true -> In x s.
Proof.
  intro H. apply includes_spec in H as (pre & post & ->).
  apply in_or_app. right. now left.
Qed.

Lemma lit_spans_first (a : ascii) (rest : string) (i : nat) (s : jstr) (c : caps)
    (i' : nat) (s' : jstr) (c' : caps) :
  spans (lit (String a rest)) i s c i' s' c' -> exists s0, s = N_of_ascii a :: s0.
Proof.
  unfold lit. simpl. intros (i1 & s1 & c1 & (x & -> & Hx & _) & _).
  apply N.eqb_eq in Hx. subst. now exists s1.
Qed.

(** A header needs a capital A, a status one of the status units. *)
Lemma agentMatch_needs_A (content name : jstr) :
  agentMatch content = Some name -> In 0x41%N content.
Proof.
  unfold agentMatch, match_first.
  destruct (search Pat.agentRegex 0 content) as [h|] eqn:E; [|discriminate].
  intros _. apply search_sound in E as (pre & sfx & -> & _ & Hm).
  apply match_at_sound in Hm as (s' & Hs); [|reflexivity].
  destruct Hs as (i1 & s1 & c1 & H1 & _).
  apply lit_spans_first in H1 as (s0 & ->).
  apply in_or_app. right. now left.
Qed.

Lemma isStatus_needs_glyph (content : jstr) :
  isStatus content = true ->
  exists x, In x content /\ mem x (codepoints Pat.status_glyphs) = true.
Proof.
  unfold isStatus, match_first.
  destruct (search Pat.statusRegex 0 content) as [h|] eqn:E; [|discriminate].
  intros _. apply search_sound in E as (pre & sfx & -> & _ & Hm).
  apply match_at_sound in Hm as (s' & Hs); [|reflexivity].
  destruct Hs as (i1 & s1 & c1 & (_ & _ & -> & _) & i2 & s2 & c2
                  & (u & -> & _) & (x & -> & Hx & _)).
  exists x. split; [|assumption].
  apply in_or_app. right. apply in_or_app. right. now left.
Qed.

Lemma ansi_needs_escape (i : nat) (s : jstr) :
  ~ In 0x1B%N s -> match_at Pat.ansi i s = None.
Proof.
  intro Hno. destruct (match_at Pat.ansi i s) as [[e c]|] eqn:E; [|reflexivity].
  apply match_at_sound in E as (s' & Hs); [|reflexivity].
  destruct Hs as (i1 & s1 & c1 & (x & -> & Hx & _) & _).
  apply N.eqb_eq in Hx. subst. exfalso. apply Hno. now left.
Qed.

Lemma remove_ansi_plain (s : jstr) :
  ~ In 0x1B%N s -> remove_all Pat.ansi s = s.
Proof.
  unfold remove_all.
  enough (H : forall i, ~ In 0x1B%N s -> kept (scan Pat.ansi i 0 s) = s) by apply H.
  induction s as [|x s IH]; intros i Hno.
  - cbn [scan]. now rewrite ansi_needs_escape.
  - rewrite scan_step, ansi_needs_escape by assumption.
    change (kept (Kept x :: scan Pat.ansi (S i) 0 s))
      with (x :: kept (scan Pat.ansi (S i) 0 s)).
    f_equal. apply IH. intro H. apply Hno. now right.
Qed.

Lemma trim_keeps (x y : char16) (s : jstr) :
  is_ws x = false -> is_ws y = false -> trim (x :: s ++ [y]) = x :: s ++ [y].
Proof.
  intros Hx Hy. unfold trim. rewrite trimStart_keeps by assumption.
  change (x :: s ++ [y]) with ((x :: s) ++ [y]). now apply trimEnd_keeps.
Qed.

Lemma trim_box (glyphs : jstr) :
  Forall (fun c => is_box c = true) glyphs -> trim glyphs = glyphs.
Proof.
  intro H. destruct (snoc_cases glyphs) as [->|(g & y & ->)]; [reflexivity|].
  pose proof (forall_last _ _ _ H) as Hy. apply box_not_ws in Hy.
  destruct g as [|x g].
  - simpl. unfold trim. simpl trimStart. rewrite Hy. unfold trimEnd. simpl.
    now rewrite Hy.
  - inversion H as [|? ? Hx _]; subst. apply box_not_ws in Hx.
    now apply trim_keeps.
Qed.

(** The payload of a line of frame glyphs, and what the tests of the
    cascade answer on it. *)
Lemma box_line_payload (glyphs : jstr) :
  glyphs <> [] ->
  Forall (fun c => is_box c = true) glyphs ->
  content_of (data_prefix ++ glyphs) = Some glyphs /\
  detect_differential glyphs = None /\
  agentMatch glyphs = None /\
  status_test glyphs = false /\
  remove_all Pat.boxRegex glyphs = [].
Proof.
  intros Hne Hbox.
  assert (Hplain : forall c, In c glyphs ->
             c <> 0x1B%N /\ c <> 0x41%N /\ c <> 0xFFFD%N /\ c <> 0xD83D%N).
  { intros c Hc. apply box_plain. rewrite Forall_forall in Hbox. now apply Hbox. }
  repeat split.
  - unfold content_of.
    assert (Ht : trim (data_prefix ++ glyphs) = data_prefix ++ glyphs).
    { destruct (snoc_cases glyphs) as [->|(g & y & ->)]; [congruence|].
      pose proof (forall_last _ _ _ Hbox) as Hy. apply box_not_ws in Hy.
      replace (data_prefix ++ g ++ [y])
        with (0x64%N :: (tl data_prefix ++ g) ++ [y]).
      - now apply trim_keeps.
      - rewrite <- app_assoc. reflexivity. }
    rewrite Ht.
    assert (Hs : startsWith data_prefix (data_prefix ++ glyphs) = true)
      by (apply startsWith_spec; now exists glyphs).
    rewrite Hs. simpl negb. cbv iota.
    change (slice 6 (data_prefix ++ glyphs)) with glyphs.
    rewrite trim_box by assumption.
    rewrite remove_ansi_plain.
    + destruct glyphs; [congruence | reflexivity].
    + intro H. apply Hplain in H. tauto.
  - unfold detect_differential.
    assert (H1 : includes top_marker glyphs = false).
    { destruct (includes top_marker glyphs) eqn:E; [|reflexivity].
      apply includes_first in E. apply Hplain in E. tauto. }
    assert (H2 : includes updated_marker glyphs = false).
    { destruct (includes updated_marker glyphs) eqn:E; [|reflexivity].
      change updated_marker with (0xD83D%N :: tl updated_marker) in E.
      apply includes_first in E. apply Hplain in E. tauto. }
    now rewrite H1, H2.
  - destruct (agentMatch glyphs) eqn:E; [|reflexivity].
    apply agentMatch_needs_A in E. apply Hplain in E. tauto.
  - unfold status_test. destruct (isStatus glyphs) eqn:E; [|reflexivity].
    apply isStatus_needs_glyph in E as (x & Hin & Hx).
    rewrite Forall_forall in Hbox. apply Hbox, box_not_status in Hin. congruence.
  - unfold Pat.boxRegex. rewrite remove_all_class. apply filter_none.
    eapply Forall_impl; [|exact Hbox]. intros c Hc. unfold is_box in Hc.
    cbv beta. now rewrite Hc.
Qed.

(** ** C3: a line of frame glyphs *)

(** C3, on the code: a line of frame glyphs changes nothing once an
    agent is current; when none is, it assigns the locals and queues the
    function of the default turn, which the render shows as one more
    AgentTurn, with empty content, at the end of the list. *)
Theorem box_line_turns (w : World) (st : state) (glyphs : jstr) :
  glyphs <> [] ->
  Forall (fun c => is_box c = true) glyphs ->
  process_line w st (data_prefix ++ glyphs) =
    (if falsy (currentAgentName st)
     then setMessages PushDefault
            (set_current system_orchestrator (IdSystem (now w (created st))) st)
     else st) /\
  (falsy (currentAgentName st) = false ->
   process_line w st (data_prefix ++ glyphs) = st) /\
  (falsy (currentAgentName st) = true ->
   (forall r,
       render w (process_line w st (data_prefix ++ glyphs)) = Done r ->
       exists ms t,
         messages r =
           ms ++ [AgentTurn (IdSystem (now w (created st))) system_orchestrator [] t]) /\
   (pending st = [] ->
    render w (process_line w st (data_prefix ++ glyphs)) =
      Done {| messages :=
                messages st ++
                [AgentTurn (IdSystem (now w (created st))) system_orchestrator []
                   (locale_time w (S (created st)))];
              differential := differential st;
              currentAgentName := Some system_orchestrator;
              lastMessageId := IdSystem (now w (created st));
              created := S (S (created st));
              pending := [] |})).
Proof.
  intros Hne Hbox.
  destruct (box_line_payload glyphs Hne Hbox) as (Hc & Hd & Ha & Hs & Hb).
  assert (E : process_line w st (data_prefix ++ glyphs) =
              if falsy (currentAgentName st)
              then setMessages PushDefault
                     (set_current system_orchestrator (IdSystem (now w (created st))) st)
              else st).
  { unfold process_line. rewrite Hc, Hd. unfold fold_turns. rewrite Ha, Hs.
    rewrite accumulate_eq. cbv zeta. rewrite Hb. reflexivity. }
  rewrite E. split; [reflexivity|]. split.
  - now intros ->.
  - intros ->. split.
    + intros r Hr. apply render_done in Hr as (Hr & _).
      simpl in Hr. rewrite run_updaters_app in Hr.
      destruct (run_updaters w _ _ (pending st) _ _) as [[ms k]|]; [|discriminate].
      simpl in Hr. injection Hr as Hm _. exists ms, (locale_time w k). now rewrite <- Hm.
    + intro Hq. unfold render. simpl. rewrite Hq. reflexivity.
Qed.

(** The bottom of a frame, as the first line of a stream. *)
Lemma box_line_turns_witness :
  messages (state_of (render world_a (process_line world_a initial_state frame_line))) =
  [AgentTurn (IdSystem 1000) system_orchestrator [] (u16 "10:00 AM")].
Proof.
  unfold frame_line.
  rewrite (proj2 (proj2 (proj2 (box_line_turns world_a initial_state frame_glyphs
                                  ltac:(discriminate) ltac:(repeat constructor)))
                   eq_refl) eq_refl).
  reflexivity.
Defined.

(** ** C8: cancellation *)

(** C8. When [stopDiagnosis] aborts the request after [n] chunks, the
    run ends with the turns recorded from those chunks followed by one
    StatusTurn with the stop notice, and with no error; an exception of
    another name ends it with the same turns, no notice, and an error
    message. *)
Theorem stop_notice_on_cancel (w : World) (a : app) (status n : nat) (b : body)
    (message : jstr) (st : state) :
  initial_info (inputs a) <> [] ->
  full_case (inputs a) <> [] ->
  read_loop w initial_state [] Utf8.init (firstn n (chunks b)) = Done st ->
  (exists stopped,
      startDiagnosis w a (Response true status (stopDiagnosis true n message b)) =
        Some stopped /\
      app_messages stopped =
        messages st ++ [StatusTurn (IdNumber (now w (created st))) stopped_by_user
                          (locale_time w (created st))] /\
      error stopped = None /\
      isStreaming stopped = false /\
      abortControllerRef stopped = false /\
      app_differential stopped = differential st) /\
  forall e,
    JS.eqb (err_name e) abort_error = false ->
    exists failed,
      startDiagnosis w a
        (Response true status
           {| chunks := firstn n (chunks b); ending_of := ReadFails e |}) = Some failed /\
      app_messages failed = messages st /\
      error failed = Some (failed_to_connect ++ err_message e).
Proof.
  intros Hi Hf Hloop. unfold startDiagnosis, stopDiagnosis.
  destruct (initial_info (inputs a)) as [|x xs]; [congruence|].
  destruct (full_case (inputs a)) as [|y ys]; [congruence|].
  unfold try_block, read_body. simpl negb. cbv iota. simpl chunks. simpl ending_of.
  rewrite Hloop.
  assert (E : JS.eqb (err_name (abort_exception message)) abort_error = true)
    by reflexivity.
  rewrite E. split.
  - eexists. split; [reflexivity|]. simpl. repeat split.
  - intros e He. rewrite He. eexists. split; [reflexivity|]. simpl. split; reflexivity.
Qed.

Lemma stop_notice_on_cancel_witness :
  exists stopped,
    startDiagnosis world_a idle_app
      (Response true 200
         (stopDiagnosis true 2 (u16 "The user aborted a request.") three_chunks)) =
      Some stopped /\
    app_messages stopped =
      [AgentTurn (IdNumber 7000) house (u16 "Consider vasculitis.") (u16 "10:00 AM");
       StatusTurn (IdNumber 1002) stopped_by_user (u16 "10:00 AM")] /\
    error stopped = None.
Proof.
  assert (Hi : initial_info (inputs idle_app) <> []) by discriminate.
  assert (Hf : full_case (inputs idle_app) <> []) by discriminate.
  assert (Hloop : read_loop world_a initial_state [] Utf8.init
                    (firstn 2 (chunks three_chunks)) =
                  Done {| messages := [AgentTurn (IdNumber 7000) house
                                         (u16 "Consider vasculitis.") (u16 "10:00 AM")];
                          differential := None;
                          currentAgentName := Some house;
                          lastMessageId := IdNumber 7000;
                          created := 2;
                          pending := [] |})
    by (vm_compute; reflexivity).
  destruct (stop_notice_on_cancel world_a idle_app 200 2 three_chunks
              (u16 "The user aborted a request.") _ Hi Hf Hloop)
    as ((stopped & Hs & Hm & He & _) & _).
  exists stopped. split; [exact Hs|]. split; [exact Hm | exact He].
Defined.

(** ** C4: the content of a turn *)

Lemma in_trimStart (x : char16) (s : jstr) : In x (trimStart s) -> In x s.
Proof.
  induction s as [|y s IH]; simpl; [auto|].
  destruct (is_ws y); [intro H; right; now apply IH | auto].
Qed.

Lemma in_trim (x : char16) (s : jstr) : In x (trim s) -> In x s.
Proof.
  unfold trim, trimEnd. intro H. apply in_rev in H.
  apply in_trimStart in H. apply in_rev in H. now apply in_trimStart in H.
Qed.

Lemma in_skipn {A} (x : A) (n : nat) (l : list A) : In x (skipn n l) -> In x l.
Proof.
  revert l; induction n as [|n IH]; intros [|y l] H; simpl in *; auto.
Qed.

Lemma in_kept_scan (r : re) (x : char16) (s : jstr) :
  forall i skip, In x (kept (scan r i skip s)) -> In x s.
Proof.
  induction s as [|y s IH]; intros i skip H.
  - destruct skip; simpl in H; [|contradiction].
    destruct (match_at r i []) as [[e c]|]; simpl in H; contradiction.
  - destruct skip as [|skip].
    + rewrite scan_step in H.
      destruct (match_at r i (y :: s)) as [[e c]|].
      * change (kept (Hit ?h :: ?ps)) with (kept ps) in H.
        destruct (e =? i).
        -- destruct H as [H|H]; [now left | right; eapply IH; eassumption].
        -- right; eapply IH; eassumption.
      * destruct H as [H|H]; [now left | right; eapply IH; eassumption].
    + simpl in H. right; eapply IH; eassumption.
Qed.

Lemma in_remove_all (r : re) (x : char16) (s : jstr) :
  In x (remove_all r s) -> In x s.
Proof. apply in_kept_scan. Qed.

Lemma content_of_units (line content : jstr) (x : char16) :
  content_of line = Some content -> In x content -> In x line.
Proof.
  unfold content_of.
  destruct (negb (startsWith data_prefix (trim line))); [discriminate|].
  destruct (remove_all Pat.ansi (trim (slice 6 (trim line)))) eqn:E; [discriminate|].
  intro H. injection H as <-. rewrite <- E. intro Hin.
  apply in_remove_all, in_trim in Hin. unfold slice in Hin.
  apply in_skipn, in_trim in Hin. exact Hin.
Qed.

Lemma content_line_units (line clean : jstr) (x : char16) :
  content_line line = Some clean -> In x clean -> In x line.
Proof.
  unfold content_line.
  destruct (content_of line) as [content|] eqn:Ec; [|discriminate].
  destruct (agentMatch content); [discriminate|].
  destruct (status_test content); [discriminate|].
  destruct (remove_all Pat.fillerRegex _); [discriminate|].
  destruct (trim (remove_all Pat.boxRegex content)) eqn:Et; [discriminate|].
  intro H. injection H as <-. rewrite <- Et. intro Hin.
  apply in_trim, in_remove_all in Hin.
  eapply content_of_units; eassumption.
Qed.

(** A content line queues the content function, after the default turn
    is in place when no agent is current. *)
Lemma process_line_content (w : World) (st : state) (line clean : jstr) :
  content_line line = Some clean ->
  exists st1,
    process_line w st line = setMessages (AppendContent clean) st1 /\
    falsy (currentAgentName st1) = false /\
    messages st1 = messages st /\
    (falsy (currentAgentName st) = false ->
     st1 = match recognized_differential line with
           | Some v => setDifferential v st
           | None => st
           end).
Proof.
  unfold content_line, recognized_differential, process_line.
  destruct (content_of line) as [content|]; [|discriminate].
  unfold fold_turns.
  destruct (agentMatch content); [discriminate|].
  destruct (status_test content); [discriminate|].
  rewrite accumulate_eq. cbv zeta.
  destruct (remove_all Pat.fillerRegex _); [discriminate|].
  destruct (trim _) as [|x cl]; [discriminate|].
  intro H. injection H as <-.
  destruct (detect_differential content) as [v|]; simpl currentAgentName;
    simpl created;
    destruct (falsy (currentAgentName st)) eqn:Ef; eexists;
    (split; [reflexivity|]); simpl; repeat split; try assumption;
    intro; try discriminate; reflexivity.
Qed.

Lemma no_adjacent_dup_snoc (ls : list jstr) (x : jstr) :
  ls <> [] -> no_adjacent_dup ls = true -> last ls [] <> x ->
  no_adjacent_dup (ls ++ [x]) = true.
Proof.
  induction ls as [|a ls IH]; intros Hne Hd Hlast; [congruence|].
  destruct ls as [|b ls].
  - simpl in *. apply eqb_neq in Hlast. now rewrite Hlast.
  - replace (no_adjacent_dup ((a :: b :: ls) ++ [x]))
      with (negb (JS.eqb a b) && no_adjacent_dup ((b :: ls) ++ [x]))
      by reflexivity.
    change (no_adjacent_dup (a :: b :: ls))
      with (negb (JS.eqb a b) && no_adjacent_dup (b :: ls)) in Hd.
    apply andb_true_iff in Hd as [Hab Hd]. rewrite Hab. simpl andb.
    apply IH; [discriminate | assumption | exact Hlast].
Qed.

Lemma last_snoc {A} (l : list A) (x d : A) : last (l ++ [x]) d = x.
Proof. apply last_last. Qed.

Lemma last_line_plain (c : jstr) : ~ In LF c -> last_line c = c.
Proof. intro H. unfold last_line. now rewrite split_no_sep. Qed.

Lemma last_line_snoc (ex c : jstr) : ~ In LF c -> last_line (ex ++ LF :: c) = c.
Proof.
  intro H. unfold last_line. rewrite split_snoc_line by assumption. apply last_snoc.
Qed.

Lemma last_line_appended (ex c : jstr) : ~ In LF c -> last_line (appended ex c) = c.
Proof.
  intro H. destruct ex; [now apply last_line_plain | now apply last_line_snoc].
Qed.

Lemma appended_tidy (ex c : jstr) :
  ~ In LF c -> no_adjacent_dup (split LF ex) = true -> last_line ex <> c ->
  no_adjacent_dup (split LF (appended ex c)) = true.
Proof.
  intros Hc Hd Hl. destruct ex as [|y ex].
  - simpl. now rewrite split_no_sep.
  - unfold appended. rewrite split_snoc_line by assumption.
    apply no_adjacent_dup_snoc; [apply split_not_nil | assumption | exact Hl].
Qed.

Lemma appended_extends (ex c : jstr) : exists more, appended ex c = ex ++ more.
Proof.
  destruct ex as [|y ex]; [now exists c | now exists (LF :: c)].
Qed.

Lemma grows_refl (m : message) : grows m m.
Proof.
  destruct m; simpl; repeat split. exists []. now rewrite app_nil_r.
Qed.

Lemma grows_trans (a b c : message) : grows a b -> grows b c -> grows a c.
Proof.
  destruct a, b, c; simpl; try tauto.
  - intros (-> & -> & -> & m1 & ->) (-> & -> & -> & m2 & ->).
    repeat split. exists (m1 ++ m2). now rewrite app_assoc.
  - intros (-> & -> & ->) (-> & -> & ->). repeat split.
Qed.

Lemma Forall2_grows_refl (ms : list message) : Forall2 grows ms ms.
Proof. induction ms; constructor; [apply grows_refl | assumption]. Qed.

Lemma Forall2_grows_trans (a b c : list message) :
  Forall2 grows a b -> Forall2 grows b c -> Forall2 grows a c.
Proof.
  intro H. revert c. induction H as [|x y a b Hxy _ IH]; intros c Hc;
    inversion Hc; subst; constructor; [eapply grows_trans; eassumption | now apply IH].
Qed.

Lemma set_content_spec (n : nat) (ms : list message) (i : msg_id) (a ex t c : jstr) :
  nth_error ms n = Some (AgentTurn i a ex t) ->
  nth_error (set_content n c ms) n = Some (AgentTurn i a c t) /\
  (tidy (AgentTurn i a c t) -> Forall tidy ms -> Forall tidy (set_content n c ms)) /\
  ((exists more, c = ex ++ more) -> Forall2 grows ms (set_content n c ms)).
Proof.
  revert n; induction ms as [|m ms IH]; intros [|n] H; simpl in H; try discriminate.
  - injection H as ->. simpl. repeat split.
    + intros Ht Hall. inversion Hall; subst. now constructor.
    + intros Hmore. constructor; [|apply Forall2_grows_refl]. simpl. auto.
  - destruct (IH n H) as (H1 & H2 & H3). simpl. repeat split.
    + exact H1.
    + intros Ht Hall. inversion Hall; subst. constructor; auto.
    + intros Hmore. constructor; [apply grows_refl | auto].
Qed.

Lemma nth_error_tidy (ms : list message) (n : nat) (m : message) :
  Forall tidy ms -> nth_error ms n = Some m -> tidy m.
Proof.
  intros Hall Hn. rewrite Forall_forall in Hall. apply Hall.
  eapply nth_error_In; eassumption.
Qed.

(** The content function, case by case: it finds no agent turn and
    returns the list as it is or throws, or it finds one and leaves it
    or adds the line to it. *)
Lemma append_content_cases (last : msg_id) (c : jstr) (prev : list message) :
  ((forall n i a ex t, findIndex last prev = Some n ->
                       nth_error prev n <> Some (AgentTurn i a ex t)) /\
   (append_content last c prev = Some prev \/ append_content last c prev = None)) \/
  (exists n i a ex t,
      findIndex last prev = Some n /\
      nth_error prev n = Some (AgentTurn i a ex t) /\
      ((last_line ex = c /\ append_content last c prev = Some prev) \/
       (last_line ex <> c /\
        append_content last c prev = Some (set_content n (appended ex c) prev)))).
Proof.
  unfold append_content.
  destruct (findIndex last prev) as [n|]; [|left; split; [discriminate | auto]].
  destruct (nth_error prev n) as [[i a ex t|i s t]|] eqn:En.
  - right. exists n, i, a, ex, t.
    split; [reflexivity|]. split; [exact En|].
    destruct (JS.eqb (last_line ex) c) eqn:E.
    + left. apply eqb_eq in E. auto.
    + right. apply eqb_neq in E. split; [assumption|]. reflexivity.
  - left. split; [|auto]. intros n' i' a' ex' t' [= <-]. congruence.
  - left. split; [|auto]. intros n' i' a' ex' t' [= <-]. congruence.
Qed.

Lemma append_content_tidy (last : msg_id) (c : jstr) (prev ms : list message) :
  ~ In LF c -> Forall tidy prev ->
  append_content last c prev = Some ms -> Forall tidy ms.
Proof.
  intros Hc Hall.
  destruct (append_content_cases last c prev)
    as [[_ [->| ->]]|(n & i & a & ex & t & Hf & Hn & [[_ ->]|[Hl ->]])];
    intro H; try discriminate; injection H as <-; try assumption.
  destruct (set_content_spec n prev i a ex t (appended ex c) Hn) as (_ & H & _).
  apply H; [|assumption]. unfold tidy. simpl.
  apply appended_tidy; try assumption.
  apply (nth_error_tidy _ _ _ Hall Hn).
Qed.

Lemma append_content_grows (last : msg_id) (c : jstr) (prev ms : list message) :
  append_content last c prev = Some ms -> Forall2 grows prev ms.
Proof.
  destruct (append_content_cases last c prev)
    as [[_ [->| ->]]|(n & i & a & ex & t & Hf & Hn & [[_ ->]|[Hl ->]])];
    intro H; try discriminate; injection H as <-; try apply Forall2_grows_refl.
  destruct (set_content_spec n prev i a ex t (appended ex c) Hn) as (_ & _ & H).
  apply H, appended_extends.
Qed.

(** Once the content function has returned, calling it again with the
    same line changes nothing. *)
Lemma append_content_again (last : msg_id) (c : jstr) (prev ms : list message) :
  ~ In LF c ->
  append_content last c prev = Some ms ->
  append_content last c ms = Some ms.
Proof.
  intros Hc.
  destruct (append_content_cases last c prev)
    as [[Hnone [E|E]]|(n & i & a & ex & t & Hf & Hn & [[Hlast E]|[Hlast E]])];
    rewrite E; intro H; try discriminate; injection H as <-; try exact E.
  unfold append_content.
  rewrite (findIndex_ids _ _ prev) by apply set_content_ids.
  rewrite Hf.
  destruct (set_content_spec n prev i a ex t (appended ex c) Hn) as (-> & _).
  rewrite last_line_appended by assumption. now rewrite eqb_refl.
Qed.

(** *** The invariant, function by function *)

Lemma run_updater_tidy (w : World) (cur : option jstr) (last : msg_id) (f : updater)
    (prev : list message) (k : nat) (ms : list message) (k' : nat) :
  one_line f -> Forall tidy prev ->
  run_updater w cur last f prev k = Some (ms, k') -> Forall tidy ms.
Proof.
  intros Hf Hall.
  destruct f as [name|text| |c]; simpl;
    try (intros [= <- <-]; apply Forall_app; split; [assumption | repeat constructor]).
  destruct (append_content last c prev) as [ms1|] eqn:E; [|discriminate].
  intros [= <- <-]. eapply append_content_tidy; eassumption.
Qed.

Lemma render_tidy (w : World) (st : state) :
  Forall one_line (pending st) -> Forall tidy (messages st) ->
  Forall tidy (messages (state_of (render w st))).
Proof.
  intros Hq Hall.
  destruct (render w st) as [r|e r|e r] eqn:E; simpl.
  - apply render_done in E as (E & _).
    apply (run_updaters_invariant w _ _ one_line (fun ms _ => Forall tidy ms)
             (fun f prev k ms k' Hf Hp => run_updater_tidy w _ _ f prev k ms k' Hf Hp)
             _ _ _ _ _ Hq Hall E).
  - now apply render_not_raised in E.
  - apply render_crashed in E as [_ ->]. assumption.
Qed.

Lemma process_line_one_line (w : World) (st : state) (line : jstr) :
  ~ In LF line -> Forall one_line (pending st) ->
  Forall one_line (pending (process_line w st line)).
Proof.
  intro Hline. revert st.
  apply (process_line_cases w (fun s => Forall one_line (pending s))); simpl; auto;
    try (intros; apply Forall_app; split; [assumption | now repeat constructor]).
  intros st clean Hc _ H. apply Forall_app. split; [assumption|].
  constructor; [|constructor]. simpl. intro Hin. apply Hline.
  eapply content_line_units; eassumption.
Qed.

Lemma run_updater_grows (w : World) (cur : option jstr) (last : msg_id) (f : updater)
    (prev : list message) (k : nat) (ms : list message) (k' : nat) :
  run_updater w cur last f prev k = Some (ms, k') ->
  exists old new, ms = old ++ new /\ Forall2 grows prev old.
Proof.
  destruct f as [name|text| |c]; simpl;
    try (intros [= <- <-]; eexists; eexists; split;
         [reflexivity | apply Forall2_grows_refl]).
  destruct (append_content last c prev) as [ms1|] eqn:E; [|discriminate].
  intros [= <- <-]. exists ms1, []. rewrite app_nil_r. split; [reflexivity|].
  eapply append_content_grows; eassumption.
Qed.

Lemma run_updaters_grows (w : World) (cur : option jstr) (last : msg_id)
    (fs : list updater) :
  forall prev k ms k',
    run_updaters w cur last fs prev k = Some (ms, k') ->
    exists old new, ms = old ++ new /\ Forall2 grows prev old.
Proof.
  induction fs as [|f fs IH]; intros prev k ms k' H; simpl in H.
  - injection H as <- <-. exists prev, []. rewrite app_nil_r.
    split; [reflexivity | apply Forall2_grows_refl].
  - destruct (run_updater w cur last f prev k) as [[ms1 k1]|] eqn:E; [|discriminate].
    apply run_updater_grows in E as (old1 & new1 & -> & H1).
    apply IH in H as (old & new & -> & H2).
    apply Forall2_app_inv_l in H2 as (o1 & o2 & Ho1 & Ho2 & ->).
    exists o1, (o2 ++ new). rewrite app_assoc. split; [reflexivity|].
    eapply Forall2_grows_trans; eassumption.
Qed.

Lemma render_grows (w : World) (st : state) :
  exists old new,
    messages (state_of (render w st)) = old ++ new /\
    Forall2 grows (messages st) old.
Proof.
  destruct (render w st) as [r|e r|e r] eqn:E; simpl.
  - apply render_done in E as (E & _). eapply run_updaters_grows; eassumption.
  - now apply render_not_raised in E.
  - apply render_crashed in E as [_ ->]. exists (messages st), [].
    rewrite app_nil_r. split; [reflexivity | apply Forall2_grows_refl].
Qed.

(** An invariant of the loop body and of the render holds of every
    state the read loop passes through. *)
Lemma read_loop_invariant (w : World) (P : state -> Prop) :
  (forall st line, ~ In LF line -> P st -> P (process_line w st line)) ->
  (forall st st', P st -> render w st = Done st' -> P st') ->
  forall values st buffer dec,
    P st -> P (state_of (read_loop w st buffer dec values)).
Proof.
  intros Hline Hrender values.
  induction values as [|v values IH]; intros st buffer dec HP; simpl; [exact HP|].
  unfold feed. destruct (Utf8.decode dec v) as [dec' text].
  set (lines := removelast (split LF (buffer ++ text))).
  assert (H1 : P (process_lines w st lines)).
  { apply process_lines_cases; [|exact HP].
    pose proof (complete_lines_no_LF (buffer ++ text)) as Hno.
    unfold complete_lines in Hno. fold lines in Hno.
    eapply Forall_impl; [|exact Hno]. intros l Hl s. now apply Hline. }
  destruct (render w (process_lines w st lines)) as [r|e r|e r] eqn:E; simpl.
  - apply IH. eapply Hrender; eassumption.
  - now apply render_not_raised in E.
  - apply render_crashed in E as [_ ->]. exact H1.
Qed.

Lemma stream_tidy (w : World) (values : list (list byte)) :
  Forall tidy (messages (state_of (read_loop w initial_state [] Utf8.init values))).
Proof.
  apply (read_loop_invariant w (fun s => Forall one_line (pending s) /\
                                         Forall tidy (messages s))).
  - intros st line Hl [Hq Ht]. split; [now apply process_line_one_line|].
    now rewrite process_line_messages.
  - intros st st' [Hq Ht] Hr. pose proof (render_tidy w st Hq Ht) as H.
    rewrite Hr in H. apply render_done in Hr as (_ & _ & _ & _ & ->).
    split; [constructor | exact H].
  - split; constructor.
Qed.

(** The render after a content line, and after the same line again. *)
Lemma content_line_render (w : World) (st : state) (line clean : jstr) (r : state) :
  ~ In LF line ->
  content_line line = Some clean ->
  render w (process_line w st line) = Done r ->
  append_content (lastMessageId r) clean (messages r) = Some (messages r) /\
  falsy (currentAgentName r) = false.
Proof.
  intros Hline Hc Hr.
  assert (Hclean : ~ In LF clean)
    by (intro H; apply Hline; eapply content_line_units; eassumption).
  destruct (process_line_content w st line clean Hc) as (st1 & E & Hf & _).
  rewrite E in Hr. apply render_done in Hr as (Hr & _ & Cr & Lr & _).
  simpl in Hr, Cr, Lr. rewrite run_updaters_app in Hr.
  destruct (run_updaters w _ _ (pending st1) _ _) as [[ms k]|]; [|discriminate].
  simpl in Hr.
  destruct (append_content (lastMessageId st1) clean ms) as [ms1|] eqn:Ea;
    [|discriminate].
  injection Hr as Hm _. subst ms1. rewrite Cr, Lr. split; [|exact Hf].
  eapply append_content_again; eassumption.
Qed.

Lemma process_line_again (w : World) (st st1 : state) (line clean : jstr) :
  ~ In LF line ->
  content_line line = Some clean ->
  render w (process_line w st line) = Done st1 ->
  exists st2,
    render w (process_line w st1 line) = Done st2 /\ messages st2 = messages st1.
Proof.
  intros Hline Hc Hr.
  destruct (content_line_render w st line clean st1 Hline Hc Hr) as [Ha Hf].
  apply render_done in Hr as (_ & _ & _ & _ & Hq).
  destruct (process_line_content w st1 line clean Hc) as (s & E & _ & _ & Hs).
  specialize (Hs Hf). rewrite E.
  assert (Hidle : render w s = Done s).
  { apply render_idle. subst s. now destruct (recognized_differential line). }
  assert (Hs' : messages s = messages st1 /\ lastMessageId s = lastMessageId st1 /\
                created s = created st1)
    by (subst s; now destruct (recognized_differential line)).
  destruct Hs' as (Hm & Hl & Hk).
  rewrite (render_setMessages w _ s s Hidle). simpl.
  rewrite Hm, Hl, Ha. eexists. split; reflexivity.
Qed.

Lemma process_line_twice (w : World) (st : state) (line clean : jstr) :
  ~ In LF line ->
  content_line line = Some clean ->
  messages (state_of (render w (process_lines w st [line; line]))) =
  messages (state_of (render w (process_line w st line))).
Proof.
  intros Hline Hc.
  assert (Hclean : ~ In LF clean)
    by (intro H; apply Hline; eapply content_line_units; eassumption).
  rewrite !process_lines_cons. simpl process_lines.
  destruct (process_line_content w st line clean Hc) as (s1 & E1 & Hf1 & M1 & _).
  set (st1 := process_line w st line) in *.
  destruct (process_line_content w st1 line clean Hc) as (s2 & E2 & _ & M2 & Hs2).
  assert (Hf : falsy (currentAgentName st1) = false) by (now rewrite E1).
  specialize (Hs2 Hf). rewrite E2.
  assert (Hs' : messages s2 = messages st1 /\ lastMessageId s2 = lastMessageId st1 /\
                currentAgentName s2 = currentAgentName st1 /\
                created s2 = created st1 /\ pending s2 = pending st1 /\
                forall r, render w st1 = Done r ->
                          exists r', render w s2 = Done r' /\ messages r' = messages r /\
                                     created r' = created r).
  { subst s2. destruct (recognized_differential line) as [v|].
    - repeat split. intros r Hr. rewrite render_setDifferential, Hr.
      eexists. repeat split.
    - repeat split. intros r Hr. exists r. repeat split. exact Hr. }
  destruct Hs' as (Hm & Hl & Hn & Hk & Hq & Hren).
  destruct (render w st1) as [r|e r|e r] eqn:Er; simpl.
  - destruct (Hren r eq_refl) as (r' & Hr' & Mr & Kr).
    rewrite (render_setMessages w _ s2 r' Hr'). simpl.
    rewrite Hl, Mr.
    destruct (content_line_render w st line clean r Hline Hc Er) as [Ha _].
    apply render_done in Er as (_ & _ & _ & Lr & _).
    rewrite Lr in Ha. rewrite Ha. reflexivity.
  - now apply render_not_raised in Er.
  - assert (Hr := Er). apply render_crashed in Hr as [_ ->].
    assert (Ecr : render w (setMessages (AppendContent clean) s2) =
                  Crashed type_error (setMessages (AppendContent clean) s2)).
    { unfold render in Er |- *. simpl. rewrite Hn, Hl, Hq, Hm, Hk, run_updaters_app.
      destruct (run_updaters w _ _ (pending st1) _ _) as [[ms k]|]; [discriminate|].
      reflexivity. }
    rewrite Ecr. simpl. exact Hm.
Qed.

(** C4. Through a whole stream, and render by render, no turn ever holds
    the same line twice in a row; a render changes the turn list only by
    adding turns at its end and text at the end of contents; the content
    function leaves a content alone when the line equals its last line,
    and so a content line fed twice in a row, in one chunk or in two, is
    added once. *)
Theorem adjacent_duplicate_suppression (w : World) :
  (forall values,
      Forall tidy (messages (state_of (read_loop w initial_state [] Utf8.init values)))) /\
  (forall st line,
      ~ In LF line -> Forall one_line (pending st) -> Forall tidy (messages st) ->
      Forall one_line (pending (process_line w st line)) /\
      Forall tidy (messages (state_of (render w (process_line w st line))))) /\
  (forall st,
      exists old new,
        messages (state_of (render w st)) = old ++ new /\
        Forall2 grows (messages st) old) /\
  (forall st c ex,
      current_content st = Some ex -> last_line ex = c ->
      append_content (lastMessageId st) c (messages st) = Some (messages st)) /\
  (forall st st1 line clean,
      ~ In LF line -> content_line line = Some clean ->
      render w (process_line w st line) = Done st1 ->
      exists st2,
        render w (process_line w st1 line) = Done st2 /\ messages st2 = messages st1) /\
  (forall st line clean,
      ~ In LF line -> content_line line = Some clean ->
      messages (state_of (render w (process_lines w st [line; line]))) =
      messages (state_of (render w (process_line w st line)))).
Proof.
  split; [|split; [|split; [|split; [|split]]]].
  - apply stream_tidy.
  - intros st line Hl Hq Ht. split; [now apply process_line_one_line|].
    apply render_tidy; [now apply process_line_one_line|].
    now rewrite process_line_messages.
  - apply render_grows.
  - intros st c ex Hcur Hlast. unfold current_content in Hcur.
    destruct (append_content_cases (lastMessageId st) c (messages st))
      as [[Hnone _]|(n & i & a & ex' & t & Hf & Hn & [[_ E]|[Hne _]])].
    + destruct (findIndex (lastMessageId st) (messages st)) as [n|]; [|discriminate].
      destruct (nth_error (messages st) n) as [[i a ex' t|i s t]|] eqn:En;
        try discriminate.
      exfalso. now apply (Hnone n i a ex' t).
    + exact E.
    + rewrite Hf, Hn in Hcur. injection Hcur as <-. contradiction.
  - apply process_line_again.
  - apply process_line_twice.
Qed.

(** Scenario 2, with its content line fed twice. *)
Lemma adjacent_duplicate_suppression_witness :
  exists st2,
    render world_a
      (process_line world_a
         (state_of (render world_a (process_line world_a (house_state world_a)
                                      vasculitis_line)))
         vasculitis_line) = Done st2 /\
    messages st2 =
      [AgentTurn (IdNumber 7000) house (u16 "Consider vasculitis.") (u16 "10:00 AM")].
Proof.
  destruct (proj1 (proj2 (proj2 (proj2 (proj2 (adjacent_duplicate_suppression world_a)))))
              (house_state world_a)
              (state_of (render world_a (process_line world_a (house_state world_a)
                                           vasculitis_line)))
              vasculitis_line (u16 "Consider vasculitis."))
    as (st2 & E & Hm).
  - vm_compute. intros [H|H]; [discriminate|].
    repeat (destruct H as [H|H]; [discriminate|]). contradiction.
  - vm_compute; reflexivity.
  - vm_compute; reflexivity.
  - exists st2. split; [exact E|]. rewrite Hm. vm_compute; reflexivity.
Defined.

(** ** C1: chunk boundaries *)

Lemma process_lines_differential (w : World) (lines : list jstr) :
  forall st,
    differential (process_lines w st lines) = last_recognized lines (differential st).
Proof.
  unfold last_recognized.
  induction lines as [|l lines IH]; intro st; [reflexivity|].
  rewrite process_lines_cons, IH, process_line_differential. reflexivity.
Qed.

Lemma last_recognized_app (l1 l2 : list jstr) (d : option snapshot) :
  last_recognized (l1 ++ l2) d = last_recognized l2 (last_recognized l1 d).
Proof. apply fold_left_app. Qed.

(** Whatever the chunks, the lines that the loop has processed when it
    ends are the complete lines of the whole text, and the snapshot is
    the one of the last recognized line among them. *)
Lemma read_loop_differential (w : World) (values : list (list byte)) :
  forall st buffer dec st',
    ~ In LF buffer ->
    read_loop w st buffer dec values = Done st' ->
    differential st' =
    last_recognized
      (complete_lines (buffer ++ snd (Utf8.decode dec (List.concat values))))
      (differential st).
Proof.
  unfold complete_lines.
  induction values as [|v values IH]; intros st buffer dec st' Hbuf H.
  - simpl in *. injection H as <-.
    rewrite app_nil_r, split_no_sep by assumption. reflexivity.
  - change (List.concat (v :: values)) with (v ++ List.concat values).
    rewrite decode_app. simpl read_loop in H. unfold feed in H.
    destruct (Utf8.decode dec v) as [d1 o1].
    destruct (Utf8.decode d1 (List.concat values)) as [d2 o2] eqn:E2.
    simpl snd. rewrite app_assoc, (split_app LF (buffer ++ o1) o2), removelast_app_split.
    rewrite last_recognized_app.
    destruct (render w (process_lines w st (removelast (split LF (buffer ++ o1)))))
      as [r|e r|e r] eqn:Er; try discriminate.
    apply IH in H; [|apply last_split_no_sep]. rewrite E2 in H. simpl snd in H.
    rewrite H. apply render_done in Er as (_ & -> & _).
    now rewrite process_lines_differential.
Qed.

(** C1, on the code.  The buffer puts the lines together again whatever
    the chunks, and the snapshot at the end of a stream does not depend
    on them; the turn list does.  The functions queued for the lines of
    one chunk all read [lastMessageId] as the last line of the chunk
    left it: with two headers and a line of text in one chunk, both
    turns get the id made for the second header and the text goes to the
    first turn that carries it, the one of the first header; with the
    same bytes cut inside the second header, the text goes to the turn
    of the second. *)
Theorem chunk_boundaries_change_turns :
  (forall w cs1 cs2 st1 st2,
      List.concat cs1 = List.concat cs2 ->
      read_loop w initial_state [] Utf8.init cs1 = Done st1 ->
      read_loop w initial_state [] Utf8.init cs2 = Done st2 ->
      differential st1 = differential st2) /\
  List.concat two_agents_whole = List.concat two_agents_cut /\
  option_map app_messages
    (startDiagnosis world_a idle_app (response two_agents_whole EndOfStream)) =
    Some [AgentTurn (IdNumber 7001) (u16 "Dr. A") (u16 "y") (u16 "10:00 AM");
          AgentTurn (IdNumber 7001) (u16 "Dr. B") [] (u16 "10:00 AM")] /\
  option_map app_messages
    (startDiagnosis world_a idle_app (response two_agents_cut EndOfStream)) =
    Some [AgentTurn (IdNumber 7000) (u16 "Dr. A") [] (u16 "10:00 AM");
          AgentTurn (IdNumber 7002) (u16 "Dr. B") (u16 "y") (u16 "10:00 AM")].
Proof.
  split; [|split; [|split]].
  - intros w cs1 cs2 st1 st2 Hc H1 H2.
    apply read_loop_differential in H1; [|intros []].
    apply read_loop_differential in H2; [|intros []].
    now rewrite H1, H2, Hc.
  - vm_compute; reflexivity.
  - vm_compute; reflexivity.
  - vm_compute; reflexivity.
Qed.

(** The line of scenario 3, in one chunk and cut inside its glyph. *)
Lemma chunk_boundaries_change_turns_witness :
  exists st1 st2,
    read_loop world_a initial_state [] Utf8.init lupus_whole = Done st1 /\
    read_loop world_a initial_state [] Utf8.init lupus_cut = Done st2 /\
    differential st1 = Some lupus_snapshot /\
    differential st2 = Some lupus_snapshot.
Proof.
  assert (H1 : read_loop world_a initial_state [] Utf8.init lupus_whole =
               Done (state_of (read_loop world_a initial_state [] Utf8.init lupus_whole)))
    by (vm_compute; reflexivity).
  assert (H2 : read_loop world_a initial_state [] Utf8.init lupus_cut =
               Done (state_of (read_loop world_a initial_state [] Utf8.init lupus_cut)))
    by (vm_compute; reflexivity).
  assert (Hc : List.concat lupus_whole = List.concat lupus_cut)
    by (vm_compute; reflexivity).
  pose proof (proj1 chunk_boundaries_change_turns world_a _ _ _ _ Hc H1 H2) as E.
  eexists. eexists. split; [exact H1|]. split; [exact H2|].
  split; [|rewrite <- E]; vm_compute; reflexivity.
Defined.

(** ** The scenarios of the specification, from bytes to turns *)

Example scenario_status :
  option_map app_messages
    (startDiagnosis world_a idle_app
       (response [frame [0x1F914%N] " Gathering history..."] EndOfStream)) =
  Some [StatusTurn (IdNumber 7000) (codepoints [0x1F914%N] ++ u16 " Gathering history...")
          (u16 "10:00 AM")].
Proof. vm_compute; reflexivity. Qed.

Example scenario_agent_turn :
  option_map app_messages
    (startDiagnosis world_a idle_app
       (response [frame [0x256D; 0x2500; 0x2500]%N " Agent Name: Dr. House "
                  ++ frame [] "Consider vasculitis."] EndOfStream)) =
  Some [AgentTurn (IdNumber 7000) house (u16 "Consider vasculitis.") (u16 "10:00 AM")].
Proof. vm_compute; reflexivity. Qed.

Example scenario_differential :
  option_map app_differential
    (startDiagnosis world_a idle_app
       (response [frame [0x1F4CA%N] " Differential Diagnosis Updated: - Lupus: 42%"]
          EndOfStream)) =
  Some (Some lupus_snapshot).
Proof. vm_compute; reflexivity. Qed.

(** A chunk boundary inside the four bytes of a glyph. *)
Example split_inside_glyph :
  let whole := frame [0x1F914%N] " Gathering history..." in
  startDiagnosis world_a idle_app (response [firstn 8 whole; skipn 8 whole] EndOfStream) =
  startDiagnosis world_a idle_app (response [whole] EndOfStream).
Proof. vm_compute; reflexivity. Qed.

(** A last line without its line feed stays in [buffer] and is lost. *)
Example unterminated_line_dropped :
  option_map app_messages
    (startDiagnosis world_a idle_app
       (response [frame [] "Agent Name: Dr. House"; bytes "data: Consider"]
          EndOfStream)) =
  Some [AgentTurn (IdNumber 7000) house [] (u16 "10:00 AM")].
Proof. vm_compute; reflexivity. Qed.

(** A transport failure is reported, and no turn is added for it. *)
Example transport_error_reported :
  exists failed,
    startDiagnosis world_a idle_app
      (response [frame [] "Agent Name: Dr. House"] (ReadFails network_error)) =
      Some failed /\
    app_messages failed = [AgentTurn (IdNumber 7000) house [] (u16 "10:00 AM")] /\
    error failed = Some (u16 "Failed to connect to backend: network error").
Proof. eexists. split; [vm_compute; reflexivity|]. split; reflexivity. Qed.

Example missing_input_rejected :
  let a := {| inputs := {| initial_info := []; full_case := u16 "x"; ground_truth := [] |};
              app_messages := []; app_differential := None; isStreaming := false;
              error := None; abortControllerRef := false |} in
  option_map error (startDiagnosis world_a a (response [frame [] "Consider"] EndOfStream)) =
  Some (Some fill_required).
Proof. reflexivity. Qed.

(** Two agents and their lines in one chunk: both turns get the id made
    for the second header, and both lines go to the first turn; chunk by
    chunk, each line goes to its agent. *)
Example one_chunk_binds_late :
  option_map (fun a => map view (app_messages a))
    (startDiagnosis world_a idle_app
       (response [frame [] "Agent Name: Dr. A" ++ frame [] "x"
                  ++ frame [] "Agent Name: Dr. B" ++ frame [] "y"] EndOfStream)) =
  Some [AgentView (u16 "Dr. A") (u16 "x" ++ LF :: u16 "y"); AgentView (u16 "Dr. B") []] /\
  option_map (fun a => map view (app_messages a))
    (startDiagnosis world_a idle_app
       (response [frame [] "Agent Name: Dr. A"; frame [] "x";
                  frame [] "Agent Name: Dr. B"; frame [] "y"] EndOfStream)) =
  Some [AgentView (u16 "Dr. A") (u16 "x"); AgentView (u16 "Dr. B") (u16 "y")].
Proof. split; vm_compute; reflexivity. Qed.

(** A header whose name is blank and a line of text, in one chunk: the
    turn of the header gets the ['system-'] id and the text. *)
Example blank_header_takes_the_text :
  option_map app_messages
    (startDiagnosis world_a idle_app
       (response [(bytes "data: Agent Name:  " ++ utf8 0x256E ++ [x0a])
                  ++ frame [] "Consider vasculitis."] EndOfStream)) =
  Some [AgentTurn (IdSystem 1001) [] (u16 "Consider vasculitis.") (u16 "10:00 AM");
        AgentTurn (IdSystem 1001) system_orchestrator [] (u16 "10:00 AM")].
Proof. vm_compute; reflexivity. Qed.

(** A default turn opened in the chunk of a header takes the name and
    the id that the header left in the locals. *)
Example default_turn_takes_later_name :
  option_map app_messages
    (startDiagnosis world_a idle_app
       (response [frame [] "hello" ++ frame [] "Agent Name: Dr. B"] EndOfStream)) =
  Some [AgentTurn (IdNumber 7001) (u16 "Dr. B") (u16 "hello") (u16 "10:00 AM");
        AgentTurn (IdNumber 7001) (u16 "Dr. B") [] (u16 "10:00 AM")].
Proof. vm_compute; reflexivity. Qed.

(* ================================================================== *)
(** * Further properties of the component *)
(* ================================================================== *)

(** ** The decoder gives a line feed only for the byte 0x0A *)

Lemma low_bits (b q : N) (n : N) :
  (q * 2 ^ n <= b)%N -> (b < (q + 1) * 2 ^ n)%N ->
  N.land b (N.ones n) = (b - q * 2 ^ n)%N.
Proof.
  intros H1 H2. rewrite N.land_ones. symmetry.
  apply N.mod_unique with q; lia.
Qed.

Lemma joined_above_ascii (cp x : N) : cp <> 0%N -> N.lor (N.shiftl cp 6) x <> 0x0A%N.
Proof.
  intros H E. apply (f_equal (fun v => N.shiftr v 6)) in E.
  rewrite N.shiftr_lor, N.shiftr_shiftl_r in E by lia.
  rewrite N.sub_diag, N.shiftr_0_r in E. change (N.shiftr 10 6) with 0%N in E.
  apply N.lor_eq_0_iff in E. tauto.
Qed.

Lemma joined_nonzero (cp x : N) : cp <> 0%N \/ x <> 0%N -> N.lor (N.shiftl cp 6) x <> 0%N.
Proof.
  intros H E. apply N.lor_eq_0_iff in E as [E1 E2].
  apply N.shiftl_eq_0_iff in E1. tauto.
Qed.

Lemma utf16_no_LF (cp : N) : cp <> 0x0A%N -> ~ In LF (utf16 cp).
Proof.
  intros H. unfold utf16, LF. destruct (cp <? 0x10000)%N.
  - intros [E|[]]. congruence.
  - intros [E|[E|[]]]; lia.
Qed.

Lemma serialize_no_LF (cps : list N) :
  forall seen, Forall (fun cp => cp <> 0x0A%N) cps ->
               ~ In LF (snd (Utf8.serialize seen cps)).
Proof.
  induction cps as [|cp cps IH]; intros seen H; simpl; [intros []|].
  inversion H; subst. specialize (IH true H3).
  destruct (Utf8.serialize true cps) as [seen' out]. simpl in IH.
  destruct (negb seen && (cp =? 0xFEFF)%N); simpl; [assumption|].
  intro Hin. apply in_app_or in Hin as [Hin|Hin]; [|contradiction].
  now apply utf16_no_LF in Hin.
Qed.

Lemma between_spec (lo hi b : N) :
  Utf8.between lo hi b = true <-> (lo <= b /\ b <= hi)%N.
Proof. unfold Utf8.between. rewrite andb_true_iff, !N.leb_le. tauto. Qed.

(** A byte read when no sequence is open. *)
Lemma lead_above_ascii (d : Utf8.decoder) (b : N) :
  Utf8.bytes_needed d = 0%N ->
  decoding_above_ascii (fst (Utf8.lead d b)) /\
  Forall (fun cp => cp = b \/ cp = 0xFFFD%N) (snd (Utf8.lead d b)).
Proof.
  intro Hd. unfold Utf8.lead.
  destruct (Utf8.between 0 127 b) eqn:E1.
  { simpl. split; [now left|]. constructor; [now left | constructor]. }
  destruct (Utf8.between 194 223 b) eqn:E2.
  { simpl. split; [|constructor]. right; left. simpl.
    apply between_spec in E2. change 31%N with (N.ones 5).
    rewrite (low_bits b 6 5) by (simpl; lia). simpl. lia. }
  destruct (Utf8.between 224 239 b) eqn:E3.
  { simpl. split; [|constructor]. apply between_spec in E3.
    destruct (b =? 224)%N eqn:Eb.
    - right; right. simpl. destruct (b =? 237)%N; lia.
    - right; left. simpl. apply N.eqb_neq in Eb. change 15%N with (N.ones 4).
      rewrite (low_bits b 14 4) by (simpl; lia). simpl. lia. }
  destruct (Utf8.between 240 244 b) eqn:E4.
  { simpl. split; [|constructor]. apply between_spec in E4.
    destruct (b =? 240)%N eqn:Eb.
    - right; right. simpl. destruct (b =? 244)%N; lia.
    - right; left. simpl. apply N.eqb_neq in Eb. change 7%N with (N.ones 3).
      rewrite (low_bits b 30 3) by (simpl; lia). simpl. lia. }
  simpl. split; [now left|]. constructor; [now right | constructor].
Qed.

Lemma handler_above_ascii (d : Utf8.decoder) (b : N) :
  decoding_above_ascii d ->
  decoding_above_ascii (fst (Utf8.handler d b)) /\
  Forall (fun cp => cp = b \/ cp <> 0x0A%N) (snd (Utf8.handler d b)).
Proof.
  intro Hd. unfold Utf8.handler.
  assert (Hlead : forall d0, Utf8.bytes_needed d0 = 0%N ->
            decoding_above_ascii (fst (Utf8.lead d0 b)) /\
            Forall (fun cp => cp = b \/ cp <> 0x0A%N) (snd (Utf8.lead d0 b))).
  { intros d0 H0. destruct (lead_above_ascii d0 b H0) as [H1 H2]. split; [assumption|].
    eapply Forall_impl; [|exact H2]. intros cp [->| ->]; [now left | right; discriminate]. }
  destruct (Utf8.bytes_needed d =? 0)%N eqn:En.
  { apply N.eqb_eq in En. now apply Hlead. }
  apply N.eqb_neq in En.
  destruct (Utf8.between (Utf8.lower d) (Utf8.upper d) b) eqn:Eb; simpl negb; cbv iota.
  - apply between_spec in Eb.
    assert (Hjoin : N.lor (N.shiftl (Utf8.code_point d) 6) (N.land b 63) <> 0%N).
    { apply joined_nonzero. destruct Hd as [H|[H|(H1 & H2 & H3)]]; [contradiction|now left|].
      right. change 63%N with (N.ones 6).
      rewrite (low_bits b 2 6) by (simpl; lia). simpl. lia. }
    destruct (Utf8.bytes_seen d + 1 =? Utf8.bytes_needed d)%N eqn:Es; simpl.
    + split; [now left|]. constructor; [|constructor]. right.
      apply joined_above_ascii. apply N.eqb_eq in Es.
      destruct Hd as [H|[H|(H1 & _)]]; [contradiction | assumption | lia].
    + split; [|constructor]. right; left. exact Hjoin.
  - destruct (Hlead (Utf8.reset d) eq_refl) as [H1 H2].
    destruct (Utf8.lead (Utf8.reset d) b) as [d' out]. simpl in *.
    split; [assumption|]. constructor; [right; discriminate | assumption].
Qed.

Lemma step_above_ascii (d : Utf8.decoder) (b : byte) :
  decoding_above_ascii d ->
  decoding_above_ascii (fst (Utf8.step d b)) /\
  (b <> x0a -> ~ In LF (snd (Utf8.step d b))).
Proof.
  intro Hd. unfold Utf8.step.
  destruct (handler_above_ascii d (Byte.to_N b) Hd) as [H1 H2].
  destruct (Utf8.handler d (Byte.to_N b)) as [d' cps]. simpl in H1, H2.
  pose proof (serialize_no_LF cps (Utf8.bom_seen d')) as Hser.
  destruct (Utf8.serialize (Utf8.bom_seen d') cps) as [seen out]. simpl in *.
  split; [exact H1|].
  intro Hb. apply Hser. eapply Forall_impl; [|exact H2].
  intros cp [->|H]; [|assumption].
  intro E. apply Hb. apply (f_equal Byte.of_N) in E.
  rewrite Byte.of_to_N in E. now injection E.
Qed.

Lemma decode_above_ascii (bs : list byte) :
  forall d, decoding_above_ascii d ->
            decoding_above_ascii (fst (Utf8.decode d bs)) /\
            (~ In x0a bs -> ~ In LF (snd (Utf8.decode d bs))).
Proof.
  induction bs as [|b bs IH]; intros d Hd; simpl; [split; [assumption | intros _ []]|].
  destruct (step_above_ascii d b Hd) as [H1 H2].
  destruct (Utf8.step d b) as [d1 o1]. simpl in H1, H2.
  destruct (IH d1 H1) as [H3 H4].
  destruct (Utf8.decode d1 bs) as [d2 o2]. simpl in *.
  split; [assumption|]. intros Hno Hin.
  apply in_app_or in Hin as [Hin|Hin].
  - apply H2 in Hin; [assumption|]. intro E. apply Hno. now left.
  - apply H4 in Hin; [assumption|]. intro E. apply Hno. now right.
Qed.

Lemma complete_lines_tail (text tail : jstr) :
  ~ In LF tail -> complete_lines (text ++ tail) = complete_lines text.
Proof.
  intro H. unfold complete_lines. rewrite split_app, removelast_app_split.
  rewrite (split_no_sep LF (last (split LF text) [] ++ tail)).
  - simpl. apply app_nil_r.
  - intro Hin. apply in_app_or in Hin as [Hin|Hin]; [|contradiction].
    now apply last_split_no_sep in Hin.
Qed.

Lemma no_byte_in (x : byte) (l : list byte) :
  forallb (fun b => negb (Byte.eqb b x)) l = true -> ~ In x l.
Proof.
  intros H Hin. rewrite forallb_forall in H. specialize (H x Hin).
  rewrite (Byte.byte_dec_lb eq_refl) in H. discriminate.
Qed.

(** *** What the loop carries from chunk to chunk *)

Lemma read_loop_app (w : World) (v1 v2 : list (list byte)) :
  forall st buffer dec,
    read_loop w st buffer dec (v1 ++ v2) =
    match read_loop w st buffer dec v1 with
    | Done st' =>
        read_loop w st' (fst (carried buffer dec v1)) (snd (carried buffer dec v1)) v2
    | Raised e st' => Raised e st'
    | Crashed e st' => Crashed e st'
    end.
Proof.
  induction v1 as [|v v1 IH]; intros st buffer dec; [reflexivity|].
  simpl. unfold feed. destruct (Utf8.decode dec v) as [dec' text].
  destruct (render w _) as [r|e r|e r]; [apply IH | reflexivity | reflexivity].
Qed.

Lemma read_loop_cons (w : World) (st : state) (buffer : jstr) (dec : Utf8.decoder)
    (v : list byte) (vs : list (list byte)) :
  read_loop w st buffer dec (v :: vs) =
  match feed w st buffer dec v with
  | (st1, buffer', dec') =>
      match render w st1 with
      | Done st' => read_loop w st' buffer' dec' vs
      | Raised e st' => Raised e st'
      | Crashed e st' => Crashed e st'
      end
  end.
Proof. reflexivity. Qed.

Lemma carried_invariant (values : list (list byte)) :
  forall buffer dec,
    ~ In LF buffer -> decoding_above_ascii dec ->
    ~ In LF (fst (carried buffer dec values)) /\
    decoding_above_ascii (snd (carried buffer dec values)).
Proof.
  induction values as [|v values IH]; intros buffer dec Hb Hd; simpl; [auto|].
  destruct (decode_above_ascii v dec Hd) as [Hd' _].
  destruct (Utf8.decode dec v) as [dec' text]. simpl in Hd'.
  apply IH; [apply last_split_no_sep | assumption].
Qed.

Lemma read_loop_idle (w : World) (values : list (list byte)) :
  forall st buffer dec st',
    pending st = [] -> read_loop w st buffer dec values = Done st' -> pending st' = [].
Proof.
  induction values as [|v values IH]; intros st buffer dec st' Hq H; simpl in H.
  - now injection H as <-.
  - unfold feed in H. destruct (Utf8.decode dec v) as [dec' text].
    destruct (render w _) as [r|e r|e r] eqn:Er; try discriminate.
    apply render_done in Er as (_ & _ & _ & _ & Hr). eapply IH; eassumption.
Qed.

(** A chunk without the byte 0x0A completes no line: it only makes the
    buffer longer. *)
Lemma feed_no_line (w : World) (st : state) (buffer : jstr) (dec : Utf8.decoder)
    (value : list byte) :
  ~ In LF buffer -> decoding_above_ascii dec -> ~ In x0a value ->
  feed w st buffer dec value =
  (st, buffer ++ snd (Utf8.decode dec value), fst (Utf8.decode dec value)).
Proof.
  intros Hb Hd Hv. unfold feed.
  destruct (decode_above_ascii value dec Hd) as [_ Ht]. specialize (Ht Hv).
  destruct (Utf8.decode dec value) as [dec' text]. simpl in *.
  rewrite split_no_sep; [reflexivity|].
  intro Hin. apply in_app_or in Hin as [Hin|Hin]; contradiction.
Qed.

Lemma read_loop_no_line (w : World) (st : state) (buffer : jstr) (dec : Utf8.decoder)
    (value : list byte) (values : list (list byte)) :
  pending st = [] -> ~ In LF buffer -> decoding_above_ascii dec -> ~ In x0a value ->
  read_loop w st buffer dec (value :: values) =
  read_loop w st (buffer ++ snd (Utf8.decode dec value)) (fst (Utf8.decode dec value))
    values.
Proof.
  intros Hq Hb Hd Hv. simpl read_loop.
  rewrite (feed_no_line w st buffer dec value Hb Hd Hv).
  now rewrite (render_idle w st Hq).
Qed.

(** X1. Bytes that arrive after the last line feed of a response never
    reach the turns or the snapshot: a final chunk without the byte 0x0A
    can be left out without changing the outcome. *)
Theorem unterminated_tail_is_dropped (w : World) (a : app) (ok : bool) (status : nat)
    (e : ending) (values : list (list byte)) (tail : list byte) :
  ~ In x0a tail ->
  startDiagnosis w a (Response ok status {| chunks := values ++ [tail]; ending_of := e |}) =
  startDiagnosis w a (Response ok status {| chunks := values; ending_of := e |}).
Proof.
  intro Htail. unfold startDiagnosis, try_block.
  destruct ok; simpl negb; cbv iota; [|reflexivity].
  unfold read_body. simpl chunks. simpl ending_of.
  rewrite read_loop_app.
  destruct (read_loop w initial_state [] Utf8.init values) as [st|err st|err st] eqn:E;
    try reflexivity.
  assert (H0 : decoding_above_ascii Utf8.init) by now left.
  destruct (carried_invariant values [] Utf8.init (fun H => H) H0) as [Hb Hd].
  rewrite read_loop_no_line; try assumption.
  - reflexivity.
  - eapply read_loop_idle; [|exact E]. reflexivity.
Qed.

Lemma unterminated_tail_is_dropped_witness :
  startDiagnosis world_a idle_app
    (Response true 200
       {| chunks := [frame [] "Agent Name: Dr. House"] ++ [bytes "data: Consider"];
          ending_of := EndOfStream |}) =
  startDiagnosis world_a idle_app
    (Response true 200
       {| chunks := [frame [] "Agent Name: Dr. House"]; ending_of := EndOfStream |}).
Proof.
  apply unterminated_tail_is_dropped. apply no_byte_in. reflexivity.
Defined.

(** ** White space around a line *)

Lemma trimStart_all_ws (pad : jstr) : forallb is_ws pad = true -> trimStart pad = [].
Proof.
  induction pad as [|c pad IH]; simpl; [reflexivity|].
  intro H. apply andb_true_iff in H as [Hc Hp]. rewrite Hc. now apply IH.
Qed.

Lemma trimStart_pad (pad s : jstr) :
  forallb is_ws pad = true -> trimStart (pad ++ s) = trimStart s.
Proof.
  induction pad as [|c pad IH]; simpl; [reflexivity|].
  intro H. apply andb_true_iff in H as [Hc Hp]. rewrite Hc. now apply IH.
Qed.

Lemma trimEnd_pad (s pad : jstr) :
  forallb is_ws pad = true -> trimEnd (s ++ pad) = trimEnd s.
Proof.
  intro H. unfold trimEnd. rewrite rev_app_distr, trimStart_pad; [reflexivity|].
  rewrite forallb_forall in *. intros x Hx. apply H. now apply in_rev.
Qed.

Lemma trimStart_app_pad (s pad : jstr) :
  forallb is_ws pad = true ->
  trimStart (s ++ pad) =
  match trimStart s with
  | [] => []
  | x :: t => (x :: t) ++ pad
  end.
Proof.
  intro H. induction s as [|c s IH]; simpl.
  - now apply trimStart_all_ws.
  - destruct (is_ws c); [exact IH | reflexivity].
Qed.

Lemma trim_pad (pad1 s pad2 : jstr) :
  forallb is_ws pad1 = true -> forallb is_ws pad2 = true ->
  trim (pad1 ++ s ++ pad2) = trim s.
Proof.
  intros H1 H2. unfold trim. rewrite trimStart_pad, trimStart_app_pad by assumption.
  destruct (trimStart s) as [|x t]; [reflexivity|]. now apply trimEnd_pad.
Qed.

(** X2. White space before and after a line of the feed does not count:
    in particular a line that ends with a carriage return, as in a feed
    with CR LF line ends, is processed like the line without it. *)
Theorem surrounding_space_is_ignored (w : World) (st : state) (pad1 line pad2 : jstr) :
  forallb is_ws pad1 = true ->
  forallb is_ws pad2 = true ->
  process_line w st (pad1 ++ line ++ pad2) = process_line w st line.
Proof.
  intros H1 H2. unfold process_line, content_of. now rewrite trim_pad.
Qed.

Lemma surrounding_space_is_ignored_witness :
  process_line world_a initial_state ([] ++ vasculitis_line ++ [0x0D%N]) =
  process_line world_a initial_state vasculitis_line.
Proof. apply surrounding_space_is_ignored; reflexivity. Defined.

(** ** The matcher, forwards *)

Lemma rm_units (l : jstr) :
  forall i t c (k : cont),
    rm (fold_right (fun x r => Seq (Cls (N.eqb x)) r) Eps l) i (l ++ t) c k =
    k (i + List.length l) t c.
Proof.
  induction l as [|x l IH]; intros i t c k; simpl.
  - now rewrite Nat.add_0_r.
  - rewrite N.eqb_refl, IH. f_equal. lia.
Qed.

Lemma rm_lit (str : string) (i : nat) (t : jstr) (c : caps) (k : cont) :
  rm (lit str) i (u16 str ++ t) c k = k (i + List.length (u16 str)) t c.
Proof. apply rm_units. Qed.

(** A greedy quantifier takes the whole run when what follows the run
    lets the rest of the pattern succeed. *)
Lemma rep_greedy_max (p : char16 -> bool) (u : jstr) :
  forall lo i s' c (k : cont) r,
    forallb p u = true ->
    lo <= List.length u ->
    match s' with [] => True | x :: _ => p x = false end ->
    k (i + List.length u) s' c = Some r ->
    rep p true lo None i (u ++ s') c k = Some r.
Proof.
  induction u as [|y u IH]; intros lo i s' c k r Hu Hlo Hstop Hk.
  - simpl in Hlo. assert (lo = 0) by lia. subst lo. simpl in Hk.
    rewrite Nat.add_0_r in Hk. simpl.
    destruct s' as [|x s']; simpl; [now rewrite Hk|]. now rewrite Hstop, Hk.
  - simpl in Hu. apply andb_true_iff in Hu as [Hy Hu].
    assert (Hnext : forall lo', lo' <= List.length u ->
              rep p true lo' None (S i) (u ++ s') c k = Some r).
    { intros lo' Hlo'. apply IH; try assumption.
      simpl in Hk. now replace (S i + List.length u) with (i + S (List.length u)) by lia. }
    simpl. rewrite Hy. destruct lo as [|lo].
    + now rewrite (Hnext 0 (Nat.le_0_l _)).
    + simpl. apply Hnext. simpl in Hlo. lia.
Qed.

(** An optional quantifier does not stand in the way of a pattern that
    succeeds without it. *)
Lemma rep_optional (p : char16 -> bool) (g : bool) (hi : option nat)
    (i : nat) (s : jstr) (c : caps) (k : cont) :
  k i s c <> None -> rep p g 0 hi i s c k <> None.
Proof.
  intro Hk. destruct (k i s c) as [r|] eqn:Ek; [clear Hk | congruence].
  destruct s as [|x s]; simpl; destruct hi as [[|h]|]; rewrite ?Ek; try discriminate;
    destruct g; rewrite ?Ek; try discriminate;
    repeat match goal with
           | |- context [if ?b then _ else _] => destruct b
           | |- context [match ?o with Some _ => _ | None => _ end] => destruct o
           end; try discriminate; congruence.
Qed.

Lemma search_past (r : re) (pre s : jstr) :
  (forall i y t, In y pre -> match_at r i (y :: t) = None) ->
  forall i, search r i (pre ++ s) = search r (i + List.length pre) s.
Proof.
  intro Hno. induction pre as [|y pre IH]; intro i; simpl.
  - now rewrite Nat.add_0_r.
  - rewrite Hno by now left. rewrite IH.
    + f_equal. lia.
    + intros j z t Hz. apply Hno. now right.
Qed.

Lemma lit_spans (str : string) :
  forall i s c i' s' c',
    spans (lit str) i s c i' s' c' -> s = u16 str ++ s'.
Proof.
  unfold lit. induction str as [|a str IH]; intros i s c i' s' c' H; simpl in *.
  - now destruct H as (_ & -> & _).
  - destruct H as (i1 & s1 & c1 & (x & -> & Hx & _) & H).
    apply N.eqb_eq in Hx. subst x. apply IH in H. now rewrite H.
Qed.

Lemma agent_head (i : nat) (y : char16) (t : jstr) :
  y <> 0x41%N -> match_at Pat.agentRegex i (y :: t) = None.
Proof.
  intro Hy. destruct (match_at Pat.agentRegex i (y :: t)) as [[e c]|] eqn:E; [|reflexivity].
  apply match_at_sound in E as (s' & Hs); [|reflexivity].
  destruct Hs as (i1 & s1 & c1 & H1 & _).
  apply lit_spans_first in H1 as (s0 & H). injection H as ->. contradiction.
Qed.

Lemma agentMatch_needs_text (content name : jstr) :
  agentMatch content = Some name -> includes agent_name_text content = true.
Proof.
  unfold agentMatch, match_first.
  destruct (search Pat.agentRegex 0 content) as [h|] eqn:E; [|discriminate].
  intros _. apply search_sound in E as (pre & sfx & -> & _ & Hm).
  apply match_at_sound in Hm as (s' & Hs); [|reflexivity].
  destruct Hs as (i1 & s1 & c1 & H1 & _).
  apply lit_spans in H1. apply includes_spec.
  exists pre, (N_of_ascii ":" :: s1). rewrite H1. reflexivity.
Qed.

(** The documented header: the name is the run of letters, dots,
    hyphens and spaces after the colon and the white space, trimmed. *)
Lemma agent_match_at (i : nat) (spaces name rest : jstr) :
  forallb is_ws spaces = true ->
  forallb agent_unit name = true ->
  match name with [] => False | x :: _ => is_ws x = false end ->
  match rest with [] => True | x :: _ => agent_unit x = false end ->
  exists e,
    match_at Pat.agentRegex i (u16 "Agent Name:" ++ spaces ++ name ++ rest) =
    Some (e, [(1, name)]).
Proof.
  intros Hsp Hname Hfirst Hrest.
  exists (i + List.length (u16 "Agent Name:") + List.length spaces + List.length name).
  unfold match_at, Pat.agentRegex. cbn [rm]. rewrite rm_lit.
  unfold star. apply rep_greedy_max; try assumption; [lia | |].
  - destruct name as [|x name]; [contradiction | exact Hfirst].
  - unfold plus. cbn [rm].
    apply (rep_greedy_max agent_unit name); try assumption.
    + destruct name; [contradiction | simpl; lia].
    + rewrite firstn_span. reflexivity.
Qed.

Lemma search_here (r : re) (i : nat) (s : jstr) (e : nat) (c : caps) :
  match_at r i s = Some (e, c) ->
  search r i s = Some {| h_start := i; h_end := e; h_caps := c |}.
Proof. intro H. destruct s; simpl; now rewrite H. Qed.

(** X4. A payload that holds ["Agent Name:"], white space, and then a run
    of letters, dots, hyphens and spaces that something else (or the end
    of the line) stops, names that run, trimmed, whatever frame stands
    before and after, as long as no capital A comes before. *)
Theorem framed_header_is_recognized (pre spaces name rest : jstr) :
  ~ In 0x41%N pre ->
  forallb is_ws spaces = true ->
  forallb agent_unit name = true ->
  match name with [] => False | x :: _ => is_ws x = false end ->
  match rest with [] => True | x :: _ => agent_unit x = false end ->
  agentMatch (pre ++ u16 "Agent Name:" ++ spaces ++ name ++ rest) = Some (trim name).
Proof.
  intros Hpre Hsp Hname Hfirst Hrest. unfold agentMatch, match_first.
  rewrite search_past.
  - destruct (agent_match_at (0 + List.length pre) spaces name rest Hsp Hname Hfirst Hrest)
      as (e & He).
    rewrite (search_here _ _ _ _ _ He). reflexivity.
  - intros i y t Hy. apply agent_head. intros ->. contradiction.
Qed.

Lemma framed_header_is_recognized_witness :
  agentMatch documented_header = Some (u16 "Dr. Test-Chooser").
Proof.
  apply (framed_header_is_recognized
           (codepoints [0x256D; 0x2500; 0x2500; 0x2500; 0x2500; 0x2500]%N ++ u16 " ")
           (u16 " ") (u16 "Dr. Test-Chooser  ")
           (codepoints [0x2500; 0x2500; 0x2500; 0x2500; 0x2500; 0x256E]%N)).
  - intro H. vm_compute in H.
    repeat (destruct H as [H|H]; [discriminate|]). exact H.
  - reflexivity.
  - reflexivity.
  - reflexivity.
  - reflexivity.
Defined.

(** ** Colour codes *)

Lemma ansi_head (i : nat) (y : char16) (t : jstr) :
  y <> 0x1B%N -> match_at Pat.ansi i (y :: t) = None.
Proof.
  intro Hy. destruct (match_at Pat.ansi i (y :: t)) as [[e c]|] eqn:E; [|reflexivity].
  apply match_at_sound in E as (s' & Hs); [|reflexivity].
  destruct Hs as (i1 & s1 & c1 & (x & H & Hx & _) & _).
  apply N.eqb_eq in Hx. injection H as -> _. congruence.
Qed.

Lemma ansi_match_at (i : nat) (params rest : jstr) :
  forallb sgr_param params = true ->
  match_at Pat.ansi i (sgr params ++ rest) = Some (i + List.length (sgr params), []).
Proof.
  intro Hp. unfold match_at, Pat.ansi, sgr, chr, star. cbn [rm List.app].
  rewrite !N.eqb_refl. rewrite <- app_assoc.
  apply rep_greedy_max; try assumption; [lia | reflexivity |].
  cbn [List.app]. rewrite N.eqb_refl. f_equal. f_equal.
  simpl. rewrite length_app. simpl. lia.
Qed.

Lemma scan_inside (r : re) (u s : jstr) :
  forall i, scan r i (List.length u) (u ++ s) = scan r (i + List.length u) 0 s.
Proof.
  induction u as [|x u IH]; intro i; simpl.
  - now rewrite Nat.add_0_r.
  - rewrite IH. f_equal. lia.
Qed.

Lemma kept_cons_hit (h : hit) (ps : list piece) : kept (Hit h :: ps) = kept ps.
Proof. reflexivity. Qed.

Lemma kept_cons_kept (x : char16) (ps : list piece) : kept (Kept x :: ps) = x :: kept ps.
Proof. reflexivity. Qed.

Lemma scan_over_sgr (i : nat) (params rest : jstr) :
  forallb sgr_param params = true ->
  kept (scan Pat.ansi i 0 (sgr params ++ rest)) =
  kept (scan Pat.ansi (i + List.length (sgr params)) 0 rest).
Proof.
  intro Hp. pose proof (ansi_match_at i params rest Hp) as Hm.
  unfold sgr in *. cbn [List.app] in *. rewrite scan_step, Hm, kept_cons_hit.
  cbn [List.length] in *.
  replace (i + S (S (List.length (params ++ [N_of_ascii "m"]))) =? i) with false
    by (symmetry; apply Nat.eqb_neq; lia).
  replace (i + S (S (List.length (params ++ [N_of_ascii "m"]))) - i - 1)
    with (List.length (N_of_ascii "[" :: params ++ [N_of_ascii "m"]))
    by (cbn [List.length]; unfold char16; lia).
  change (N_of_ascii "[" :: (params ++ [N_of_ascii "m"]) ++ rest)
    with ((N_of_ascii "[" :: params ++ [N_of_ascii "m"]) ++ rest).
  rewrite scan_inside. f_equal. f_equal. cbn [List.length]. unfold char16. lia.
Qed.

Lemma scan_over_plain (text rest : jstr) :
  ~ In 0x1B%N text ->
  forall i, kept (scan Pat.ansi i 0 (text ++ rest)) =
            text ++ kept (scan Pat.ansi (i + List.length text) 0 rest).
Proof.
  induction text as [|x text IH]; intros Hno i.
  - simpl. now rewrite Nat.add_0_r.
  - cbn [List.app]. rewrite scan_step, ansi_head by (intro E; apply Hno; now left).
    rewrite kept_cons_kept, IH by (intro E; apply Hno; now right).
    replace (i + List.length (x :: text)) with (S i + List.length text)
      by (cbn [List.length]; lia).
    reflexivity.
Qed.

(** [cleanAnsi] on a payload between two colour codes. *)
Lemma remove_ansi_wrapped (p1 p2 text : jstr) :
  forallb sgr_param p1 = true -> forallb sgr_param p2 = true ->
  ~ In 0x1B%N text ->
  remove_all Pat.ansi (sgr p1 ++ text ++ sgr p2) = text.
Proof.
  intros H1 H2 Hno. unfold remove_all.
  rewrite scan_over_sgr, scan_over_plain by assumption.
  rewrite <- (app_nil_r (sgr p2)), scan_over_sgr by assumption.
  cbn [scan]. rewrite ansi_needs_escape by (intros []). simpl. apply app_nil_r.
Qed.

Lemma trim_ends (s : jstr) (d : char16) :
  s <> [] -> is_ws (hd d s) = false -> is_ws (last s d) = false -> trim s = s.
Proof.
  intros Hne Hh Hl. destruct (snoc_cases s) as [->|(l & y & ->)]; [congruence|].
  rewrite last_last in Hl. destruct l as [|x l].
  - unfold trim, trimEnd. simpl. rewrite Hl. simpl. now rewrite Hl.
  - simpl in Hh. now apply trim_keeps.
Qed.

(** X3. Colour codes around a payload change nothing: a line whose
    payload stands between two SGR sequences is processed like the line
    with the bare payload. *)
Theorem colour_codes_are_transparent (w : World) (st : state) (p1 p2 text : jstr) :
  forallb sgr_param p1 = true ->
  forallb sgr_param p2 = true ->
  ~ In 0x1B%N text ->
  text <> [] ->
  is_ws (hd 0%N text) = false ->
  is_ws (last text 0%N) = false ->
  process_line w st (data_prefix ++ sgr p1 ++ text ++ sgr p2) =
  process_line w st (data_prefix ++ text).
Proof.
  intros H1 H2 Hno Hne Hh Hl.
  assert (Ea : content_of (data_prefix ++ sgr p1 ++ text ++ sgr p2) = Some text).
  { unfold content_of.
    rewrite (trim_ends (data_prefix ++ sgr p1 ++ text ++ sgr p2) 0%N).
    - rewrite (proj2 (startsWith_spec data_prefix _)) by now eexists.
      simpl negb. cbv iota.
      change (slice 6 (data_prefix ++ sgr p1 ++ text ++ sgr p2))
        with (sgr p1 ++ text ++ sgr p2).
      rewrite (trim_ends (sgr p1 ++ text ++ sgr p2) 0%N).
      + rewrite remove_ansi_wrapped by assumption. now destruct text.
      + discriminate.
      + reflexivity.
      + unfold sgr at 2.
        change (0x1B%N :: N_of_ascii "[" :: p2 ++ [N_of_ascii "m"])
          with ((0x1B%N :: N_of_ascii "[" :: p2) ++ [N_of_ascii "m"]).
        rewrite !app_assoc. rewrite last_last. reflexivity.
    - discriminate.
    - reflexivity.
    - unfold sgr at 2.
      change (0x1B%N :: N_of_ascii "[" :: p2 ++ [N_of_ascii "m"])
        with ((0x1B%N :: N_of_ascii "[" :: p2) ++ [N_of_ascii "m"]).
      rewrite !app_assoc. rewrite last_last. reflexivity. }
  assert (Eb : content_of (data_prefix ++ text) = Some text).
  { unfold content_of.
    rewrite (trim_ends (data_prefix ++ text) 0%N).
    - rewrite (proj2 (startsWith_spec data_prefix _)) by now eexists.
      simpl negb. cbv iota.
      change (slice 6 (data_prefix ++ text)) with text.
      rewrite (trim_ends text 0%N) by assumption.
      rewrite remove_ansi_plain by assumption. now destruct text.
    - discriminate.
    - reflexivity.
    - destruct (snoc_cases text) as [->|(l & y & ->)]; [congruence|].
      rewrite last_last in Hl. rewrite app_assoc, last_last. exact Hl. }
  unfold process_line. now rewrite Ea, Eb.
Qed.

Lemma colour_codes_are_transparent_witness :
  process_line world_a (house_state world_a)
    (data_prefix ++ sgr (u16 "1;31") ++ u16 "Consider vasculitis." ++ sgr (u16 "0")) =
  process_line world_a (house_state world_a) (data_prefix ++ u16 "Consider vasculitis.").
Proof.
  apply colour_codes_are_transparent; try reflexivity.
  - intro H. vm_compute in H.
    repeat (destruct H as [H|H]; [discriminate|]). exact H.
  - discriminate.
Defined.

(** ** The status class, unit by unit *)

Lemma pictograph_high_unit (cp : N) :
  (0x1F000 <= cp)%N -> (cp <= 0x1FBFF)%N ->
  exists hi lo, utf16 cp = [hi; lo] /\ mem hi (codepoints Pat.status_glyphs) = true.
Proof.
  intros H1 H2. unfold utf16.
  replace (cp <? 0x10000)%N with false by (symmetry; apply N.ltb_ge; lia).
  cbv zeta. eexists. eexists. split; [reflexivity|].
  rewrite N.shiftr_div_pow2. change (2 ^ 10)%N with 1024%N.
  assert (Hlo : (60 <= (cp - 65536) / 1024)%N)
    by (apply N.div_le_lower_bound; lia).
  assert (Hhi : ((cp - 65536) / 1024 < 63)%N)
    by (apply N.Div0.div_lt_upper_bound; lia).
  set (q := ((cp - 65536) / 1024)%N) in *.
  assert (Hq : q = 60%N \/ q = 61%N \/ q = 62%N) by lia.
  destruct Hq as [-> |[-> | ->]]; reflexivity.
Qed.

Lemma isStatus_first_unit (x : char16) (s : jstr) :
  mem x (codepoints Pat.status_glyphs) = true -> isStatus (x :: s) = true.
Proof.
  intro Hx. unfold isStatus, match_first.
  assert (Hm : match_at Pat.statusRegex 0 (x :: s) <> None).
  { unfold match_at, Pat.statusRegex. cbn [rm Nat.eqb].
    apply rep_optional. now rewrite Hx. }
  simpl search. destruct (match_at Pat.statusRegex 0 (x :: s)) as [[e c]|];
    [reflexivity | congruence].
Qed.

(** X5. The status pattern has no [u] flag, so each half of a surrogate
    pair of its class is a member on its own: a payload that begins with
    any code point from U+1F000 to U+1FBFF, is shorter than 150 units and
    does not hold ["Agent Name"] becomes a StatusTurn, whether or not the
    glyph is one of the sixteen of the pattern. *)
Theorem any_pictograph_opens_a_status (w : World) (st : state) (line : jstr)
    (cp : N) (text : jstr) :
  (0x1F000 <= cp)%N -> (cp <= 0x1FBFF)%N ->
  content_of line = Some (utf16 cp ++ text) ->
  List.length (utf16 cp ++ text) < 150 ->
  includes agent_name_text (utf16 cp ++ text) = false ->
  status_line line = Some (utf16 cp ++ text) /\
  pending (process_line w st line) = pending st ++ [PushStatus (utf16 cp ++ text)] /\
  forall st1,
    render w st = Done st1 ->
    exists st2,
      render w (process_line w st line) = Done st2 /\
      messages st2 =
        messages st1 ++ [StatusTurn (IdNumber (now_plus_random w (created st1)))
                           (utf16 cp ++ text) (locale_time w (created st1))].
Proof.
  intros H1 H2 Hc Hlen Hno.
  assert (Hs : status_line line = Some (utf16 cp ++ text)).
  { unfold status_line. rewrite Hc.
    destruct (agentMatch (utf16 cp ++ text)) as [name|] eqn:Ea.
    - apply agentMatch_needs_text in Ea. congruence.
    - unfold status_test. rewrite Hno.
      destruct (pictograph_high_unit cp H1 H2) as (hi & lo & E & Hmem).
      rewrite E in *. cbn [List.app] in *. rewrite (isStatus_first_unit hi _ Hmem).
      apply Nat.ltb_lt in Hlen. now rewrite Hlen. }
  split; [exact Hs|].
  rewrite (status_line_step w st line _ Hs).
  split; [now destruct (recognized_differential line)|].
  intros st1 Hr.
  destruct (recognized_differential line) as [v|].
  - eexists. split; [apply render_status; now rewrite render_setDifferential, Hr|].
    reflexivity.
  - eexists. split; [apply render_status; exact Hr | reflexivity].
Qed.

Lemma any_pictograph_opens_a_status_witness :
  exists st2,
    render world_a (process_line world_a initial_state
                      (data_line [0x1F600%N] " All clear")) = Done st2 /\
    messages st2 =
      [StatusTurn (IdNumber 7000) (utf16 0x1F600 ++ u16 " All clear") (u16 "10:00 AM")].
Proof.
  apply (proj2 (proj2 (any_pictograph_opens_a_status world_a initial_state
                  (data_line [0x1F600%N] " All clear") 0x1F600 (u16 " All clear")
                  ltac:(vm_compute; discriminate) ltac:(vm_compute; discriminate)
                  eq_refl ltac:(vm_compute; lia) eq_refl))
           initial_state (render_idle world_a initial_state eq_refl)).
Defined.

(** ** [trim] twice *)

Lemma trimStart_fixed (s : jstr) : trimStart (trimStart s) = trimStart s.
Proof.
  induction s as [|c s IH]; simpl; [reflexivity|].
  destruct (is_ws c) eqn:E; [exact IH | simpl; now rewrite E].
Qed.

Lemma trimStart_snoc (l : jstr) (x : char16) :
  is_ws x = false -> exists y, trimStart (l ++ [x]) = y ++ [x].
Proof.
  intro Hx. induction l as [|c l IH]; simpl.
  - rewrite Hx. now exists [].
  - destruct (is_ws c); [exact IH | now exists (c :: l)].
Qed.

Lemma trimEnd_keeps_head (x : char16) (r : jstr) :
  is_ws x = false -> exists r', trimEnd (x :: r) = x :: r'.
Proof.
  intro Hx. unfold trimEnd. simpl rev.
  destruct (trimStart_snoc (rev r) x Hx) as (y & ->).
  rewrite rev_app_distr. simpl. now exists (rev y).
Qed.

Lemma trimStart_head (s : jstr) :
  trimStart s = [] \/ exists x r, trimStart s = x :: r /\ is_ws x = false.
Proof.
  induction s as [|c s IH]; simpl; [now left|].
  destruct (is_ws c) eqn:E; [exact IH | right; now exists c, s].
Qed.

Lemma trim_fixed (s : jstr) : trim (trim s) = trim s.
Proof.
  unfold trim. destruct (trimStart_head s) as [-> |(x & r & -> & Hx)]; [reflexivity|].
  destruct (trimEnd_keeps_head x r Hx) as (r' & E). rewrite E.
  rewrite trimStart_keeps by assumption. rewrite <- E.
  unfold trimEnd. rewrite rev_involutive, trimStart_fixed. reflexivity.
Qed.

Lemma forallb_trim (p : char16 -> bool) (s : jstr) :
  forallb p s = true -> forallb p (trim s) = true.
Proof.
  rewrite !forallb_forall. intros H x Hx. apply H. now apply in_trim.
Qed.

(** ** The turns of a stream are well formed *)

Lemma agentMatch_name_ok (content name : jstr) :
  agentMatch content = Some name -> agent_name_ok name.
Proof.
  unfold agentMatch, match_first.
  destruct (search Pat.agentRegex 0 content) as [h|] eqn:E; [|discriminate].
  intro H. injection H as <-.
  apply search_sound in E as (pre & sfx & _ & _ & Hm).
  apply match_at_sound in Hm as (s' & Hs); [|reflexivity].
  destruct Hs as (i1 & s1 & c1 & H1 & i2 & s2 & c2 & H2 & c3 & H3 & Hc).
  apply (spans_groupless (lit "Agent Name:") eq_refl) in H1. subst c1.
  destruct H2 as (u & -> & _ & _ & _ & -> & ->).
  destruct H3 as (name & Es & Hname & _ & _ & Ee & _).
  rewrite Hc, Ee, Es. simpl group. rewrite firstn_span.
  split; [now apply forallb_trim | apply trim_fixed].
Qed.

Lemma status_line_ok (line content : jstr) :
  ~ In LF line -> status_line line = Some content -> status_text_ok content.
Proof.
  unfold status_line. intros Hline.
  destruct (content_of line) as [c|] eqn:Ec; [|discriminate].
  destruct (agentMatch c); [discriminate|].
  destruct (status_test c) eqn:Et; [|discriminate].
  intro H. injection H as <-.
  unfold status_test in Et. apply andb_true_iff in Et as [Et Hno].
  apply andb_true_iff in Et as [_ Hlen]. apply Nat.ltb_lt in Hlen.
  apply negb_true_iff in Hno.
  repeat split; try assumption.
  - unfold content_of in Ec.
    destruct (negb (startsWith data_prefix (trim line))); [discriminate|].
    destruct (remove_all Pat.ansi _); [discriminate|]. injection Ec as <-. discriminate.
  - intro Hin. apply Hline. eapply content_of_units; eassumption.
Qed.

Lemma content_line_ok_of (line clean : jstr) :
  ~ In LF line -> content_line line = Some clean -> content_line_ok clean.
Proof.
  intros Hline Hc. pose proof Hc as Hc'. unfold content_line in Hc.
  destruct (content_of line) as [content|]; [|discriminate].
  destruct (agentMatch content); [discriminate|].
  destruct (status_test content); [discriminate|].
  destruct (remove_all Pat.fillerRegex _); [discriminate|].
  destruct (trim (remove_all Pat.boxRegex content)) as [|x cl] eqn:Et; [discriminate|].
  injection Hc as <-. rewrite <- Et. repeat split.
  - rewrite Et. discriminate.
  - apply trim_fixed.
  - apply forallb_trim. unfold Pat.boxRegex. rewrite remove_all_class.
    apply forallb_forall. intros y Hy. apply filter_In in Hy as [_ Hy]. exact Hy.
  - rewrite Et. intro Hin. apply Hline. eapply content_line_units; eassumption.
Qed.

Lemma appended_content_ok (ex clean : jstr) :
  content_ok ex -> content_line_ok clean -> content_ok (appended ex clean).
Proof.
  intros Hex Hcl. pose proof Hcl as (_ & _ & _ & Hlf). right.
  destruct ex as [|y ex]; unfold appended.
  - rewrite split_no_sep by assumption. now constructor.
  - rewrite split_snoc_line by assumption. apply Forall_app. split.
    + destruct Hex as [Hex|Hex]; [discriminate | exact Hex].
    + now constructor.
Qed.

Lemma set_content_forall (Q : message -> Prop) (n : nat) (ms : list message)
    (i : msg_id) (a ex t c : jstr) :
  nth_error ms n = Some (AgentTurn i a ex t) ->
  Q (AgentTurn i a c t) -> Forall Q ms -> Forall Q (set_content n c ms).
Proof.
  revert n; induction ms as [|m ms IH]; intros [|n] H HQ Hall; simpl in *;
    try discriminate.
  - injection H as ->. inversion Hall; subst. now constructor.
  - inversion Hall; subst. constructor; [assumption|]. now apply IH.
Qed.

Lemma append_content_turns_ok (last : msg_id) (clean : jstr) (prev ms : list message) :
  content_line_ok clean -> Forall turn_ok prev ->
  append_content last clean prev = Some ms -> Forall turn_ok ms.
Proof.
  intros Hcl Hall.
  destruct (append_content_cases last clean prev)
    as [[_ [->| ->]]|(n & i & a & ex & t & Hf & Hn & [[_ ->]|[Hl ->]])];
    intro H; try discriminate; injection H as <-; try assumption.
  eapply set_content_forall; try eassumption.
  pose proof (nth_error_In _ _ Hn) as Hin.
  rewrite Forall_forall in Hall. destruct (Hall _ Hin) as [Ha Hc].
  split; [assumption | now apply appended_content_ok].
Qed.

Lemma run_updater_turns_ok (w : World) (cur : option jstr) (last : msg_id) (f : updater)
    (prev : list message) (k : nat) (ms : list message) (k' : nat) :
  agent_name_ok (agent_text cur) -> updater_ok f -> Forall turn_ok prev ->
  run_updater w cur last f prev k = Some (ms, k') -> Forall turn_ok ms.
Proof.
  intros Hcur Hf Hall.
  assert (Hpush : forall m, turn_ok m -> Forall turn_ok (prev ++ [m]))
    by (intros m Hm; apply Forall_app; split; [assumption | now repeat constructor]).
  destruct f as [name|text| |c]; simpl in *.
  - intros [= <- <-]. apply Hpush. split; [assumption | now left].
  - intros [= <- <-]. apply Hpush. assumption.
  - intros [= <- <-]. apply Hpush. split; [assumption | now left].
  - destruct (append_content last c prev) as [ms1|] eqn:E; [|discriminate].
    intros [= <- <-]. eapply append_content_turns_ok; eassumption.
Qed.

Lemma stream_turns_ok (w : World) (values : list (list byte)) :
  Forall turn_ok (messages (state_of (read_loop w initial_state [] Utf8.init values))).
Proof.
  assert (Hso : agent_name_ok system_orchestrator) by (split; reflexivity).
  set (P := fun st : state =>
              Forall turn_ok (messages st) /\ Forall updater_ok (pending st) /\
              agent_name_ok (agent_text (currentAgentName st))).
  enough (H : P (state_of (read_loop w initial_state [] Utf8.init values))) by apply H.
  apply read_loop_invariant.
  - intros st line Hl. revert st.
    apply (process_line_cases w P); unfold P; simpl.
    + intros st v _ H. exact H.
    + intros st name Hh _ (H1 & H2 & H3).
      assert (Hn : agent_name_ok name).
      { unfold agent_header in Hh. destruct (content_of line); [|discriminate].
        eapply agentMatch_name_ok; eassumption. }
      split; [assumption|]. split; [|exact Hn].
      apply Forall_app. split; [assumption|]. constructor; [exact Hn | constructor].
    + intros st content Hs (H1 & H2 & H3).
      split; [assumption|]. split; [|exact H3].
      apply Forall_app. split; [assumption|]. constructor; [|constructor].
      eapply status_line_ok; eassumption.
    + intros st _ (H1 & H2 & H3).
      split; [assumption|]. split; [|exact Hso].
      apply Forall_app. split; [assumption|]. constructor; [exact I | constructor].
    + intros st clean Hc _ (H1 & H2 & H3).
      split; [assumption|]. split; [|exact H3].
      apply Forall_app. split; [assumption|]. constructor; [|constructor].
      eapply content_line_ok_of; eassumption.
  - intros st st' (H1 & H2 & H3) Hr.
    apply render_done in Hr as (Hr & _ & Hc & _ & Hq). unfold P.
    rewrite Hc, Hq. split; [|split; [constructor | exact H3]].
    apply (run_updaters_invariant w _ _ updater_ok (fun ms _ => Forall turn_ok ms)
             (fun f prev k ms k' Hf Hp =>
                run_updater_turns_ok w _ _ f prev k ms k' H3 Hf Hp)
             _ _ _ _ _ H2 H1 Hr).
  - unfold P. simpl. split; [constructor|]. split; [constructor | split; reflexivity].
Qed.

Lemma try_block_state (w : World) (net : fetch_result) :
  exists values,
    state_of (try_block w net) =
    state_of (read_loop w initial_state [] Utf8.init values).
Proof.
  destruct net as [e|ok status b]; simpl.
  - now exists [].
  - destruct ok; simpl.
    + exists (chunks b). unfold read_body.
      destruct (read_loop w initial_state [] Utf8.init (chunks b)); try reflexivity.
      now destruct (ending_of b).
    + now exists [].
Qed.

(** What [startDiagnosis] leaves in [messages] when the form is filled:
    the turns of the stream, and the stop notice after them when the
    request was aborted. *)
Lemma startDiagnosis_messages (w : World) (a : app) (net : fetch_result) (a' : app) :
  initial_info (inputs a) <> [] ->
  full_case (inputs a) <> [] ->
  startDiagnosis w a net = Some a' ->
  exists values,
    let st := state_of (read_loop w initial_state [] Utf8.init values) in
    app_differential a' = differential st /\
    isStreaming a' = false /\
    (app_messages a' = messages st \/
     app_messages a' =
       messages st ++ [StatusTurn (IdNumber (now w (created st))) stopped_by_user
                         (locale_time w (created st))]).
Proof.
  intros Hi Hf. destruct (try_block_state w net) as (values & E).
  exists values. cbv zeta. rewrite <- E. unfold startDiagnosis in H.
  destruct (initial_info (inputs a)); [congruence|].
  destruct (full_case (inputs a)); [congruence|].
  destruct (try_block w net) as [st|err st|err st]; simpl; try discriminate.
  - injection H as <-. simpl. auto.
  - destruct (JS.eqb (err_name err) abort_error); injection H as <-; simpl; auto.
Qed.

Lemma app_turns_ok (w : World) (a : app) (net : fetch_result) (a' : app) :
  initial_info (inputs a) <> [] ->
  full_case (inputs a) <> [] ->
  startDiagnosis w a net = Some a' ->
  Forall turn_ok (app_messages a').
Proof.
  intros Hi Hf H.
  destruct (startDiagnosis_messages w a net a' Hi Hf H) as (values & _ & _ & [-> | ->]).
  - apply stream_turns_ok.
  - apply Forall_app. split; [apply stream_turns_ok|].
    constructor; [|constructor]. simpl. unfold status_text_ok. repeat split.
    + discriminate.
    + vm_compute. lia.
    + vm_compute. intro H0. repeat (destruct H0 as [H0|H0]; [discriminate|]). exact H0.
Qed.

(** X6. Every status shown after a run is a non-empty single line of
    fewer than 150 units that does not hold ["Agent Name"]; this includes
    the stop notice. *)
Theorem status_turns_are_short_lines (w : World) (a : app) (net : fetch_result)
    (a' : app) (i : msg_id) (s t : jstr) :
  initial_info (inputs a) <> [] ->
  full_case (inputs a) <> [] ->
  startDiagnosis w a net = Some a' ->
  In (StatusTurn i s t) (app_messages a') ->
  s <> [] /\ List.length s < 150 /\ ~ In LF s /\ includes agent_name_text s = false.
Proof.
  intros Hi Hf Hrun Hin. pose proof (app_turns_ok w a net a' Hi Hf Hrun) as H.
  rewrite Forall_forall in H. exact (H _ Hin).
Qed.

Lemma status_turns_are_short_lines_witness :
  List.length (codepoints [0x1F914%N] ++ u16 " Gathering history...") < 150.
Proof.
  refine (proj1 (proj2 (status_turns_are_short_lines world_a idle_app
            (response [frame [0x1F914%N] " Gathering history..."] EndOfStream)
            {| inputs := filled_form;
               app_messages :=
                 [StatusTurn (IdNumber 7000)
                    (codepoints [0x1F914%N] ++ u16 " Gathering history...")
                    (u16 "10:00 AM")];
               app_differential := None; isStreaming := false; error := None;
               abortControllerRef := false |}
            (IdNumber 7000) _ (u16 "10:00 AM") _ _ _ _))).
  - discriminate.
  - discriminate.
  - vm_compute. reflexivity.
  - left. reflexivity.
Defined.

(** X7. Every agent turn of a run is named by letters, dots, hyphens and
    spaces only, without white space at either end; the name may be
    empty. *)
Theorem agent_names_are_plain (w : World) (a : app) (net : fetch_result)
    (a' : app) (i : msg_id) (name c t : jstr) :
  initial_info (inputs a) <> [] ->
  full_case (inputs a) <> [] ->
  startDiagnosis w a net = Some a' ->
  In (AgentTurn i name c t) (app_messages a') ->
  forallb agent_unit name = true /\ trim name = name.
Proof.
  intros Hi Hf Hrun Hin. pose proof (app_turns_ok w a net a' Hi Hf Hrun) as H.
  rewrite Forall_forall in H. exact (proj1 (H _ Hin)).
Qed.

Lemma agent_names_are_plain_witness :
  forallb agent_unit house = true /\ trim house = house.
Proof.
  refine (agent_names_are_plain world_a idle_app
            (response [frame [0x256D; 0x2500]%N " Agent Name: Dr. House "] EndOfStream)
            {| inputs := filled_form;
               app_messages := [AgentTurn (IdNumber 7000) house [] (u16 "10:00 AM")];
               app_differential := None; isStreaming := false; error := None;
               abortControllerRef := false |}
            (IdNumber 7000) house [] (u16 "10:00 AM") _ _ _ _).
  - discriminate.
  - discriminate.
  - vm_compute. reflexivity.
  - left. reflexivity.
Defined.

(** X8. The content of an agent turn is empty or made of lines that are
    not empty, carry no white space at either end and hold no frame
    glyph. *)
Theorem content_lines_are_clean (w : World) (a : app) (net : fetch_result)
    (a' : app) (i : msg_id) (name c t : jstr) :
  initial_info (inputs a) <> [] ->
  full_case (inputs a) <> [] ->
  startDiagnosis w a net = Some a' ->
  In (AgentTurn i name c t) (app_messages a') ->
  c = [] \/
  Forall (fun l => l <> [] /\ trim l = l /\
                   forallb (fun x => negb (is_box x)) l = true /\ ~ In LF l)
         (split LF c).
Proof.
  intros Hi Hf Hrun Hin. pose proof (app_turns_ok w a net a' Hi Hf Hrun) as H.
  rewrite Forall_forall in H. exact (proj2 (H _ Hin)).
Qed.

Lemma content_lines_are_clean_witness :
  u16 "Consider vasculitis." = [] \/
  Forall (fun l => l <> [] /\ trim l = l /\
                   forallb (fun x => negb (is_box x)) l = true /\ ~ In LF l)
         (split LF (u16 "Consider vasculitis.")).
Proof.
  refine (content_lines_are_clean world_a idle_app
            (response [frame [0x256D; 0x2500]%N " Agent Name: Dr. House "
                       ++ frame [0x2502%N] " Consider vasculitis. "] EndOfStream)
            {| inputs := filled_form;
               app_messages := [AgentTurn (IdNumber 7000) house
                                  (u16 "Consider vasculitis.") (u16 "10:00 AM")];
               app_differential := None; isStreaming := false; error := None;
               abortControllerRef := false |}
            (IdNumber 7000) house _ (u16 "10:00 AM") _ _ _ _).
  - discriminate.
  - discriminate.
  - vm_compute. reflexivity.
  - left. reflexivity.
Defined.

(** X14. Every turn of a run is drawn in the bubble of its kind: no
    status has an empty text, which would send it to the agent branch of
    the list. *)
Theorem turns_render_by_kind (w : World) (a : app) (net : fetch_result) (a' : app) :
  initial_info (inputs a) <> [] ->
  full_case (inputs a) <> [] ->
  startDiagnosis w a net = Some a' ->
  chat a' =
  match app_messages a' with
  | [] => None
  | ms => Some (map bubble_of_kind ms)
  end.
Proof.
  intros Hi Hf Hrun. pose proof (app_turns_ok w a net a' Hi Hf Hrun) as Hok.
  destruct (startDiagnosis_messages w a net a' Hi Hf Hrun) as (values & _ & Hs & _).
  unfold chat. rewrite Hs.
  destruct (app_messages a') as [|m ms]; [reflexivity|].
  f_equal. apply map_ext_in. intros x Hx.
  rewrite Forall_forall in Hok. specialize (Hok x Hx).
  destruct x as [i n c t|i s t]; [reflexivity|].
  destruct Hok as (Hne & _). destruct s; [congruence | reflexivity].
Qed.

Lemma turns_render_by_kind_witness :
  option_map chat
    (startDiagnosis world_a idle_app
       (response [frame [0x1F914%N] " Gathering history..."] EndOfStream)) =
  Some (Some [StatusBubble (u16 "10:00 AM")
                (codepoints [0x1F914%N] ++ u16 " Gathering history...")]).
Proof.
  destruct (startDiagnosis world_a idle_app
              (response [frame [0x1F914%N] " Gathering history..."] EndOfStream))
    as [a'|] eqn:E; [|vm_compute in E; discriminate].
  simpl. rewrite (turns_render_by_kind world_a idle_app _ a' ltac:(discriminate)
                    ltac:(discriminate) E).
  vm_compute in E. injection E as <-. reflexivity.
Defined.

(** ** The snapshot over a whole stream *)

(** X12. After any lines, the snapshot is the one of the last recognized
    differential line among them, or the snapshot held before when none
    of them is recognized; the render that follows does not change it. *)
Theorem last_recognized_line_wins (w : World) (lines : list jstr) (st : state) :
  differential (process_lines w st lines) = last_recognized lines (differential st) /\
  differential (state_of (render w (process_lines w st lines))) =
    last_recognized lines (differential st).
Proof.
  pose proof (process_lines_differential w lines st) as H. split; [exact H|].
  destruct (render w (process_lines w st lines)) as [r|e r|e r] eqn:E; simpl.
  - apply render_done in E as (_ & -> & _). exact H.
  - now apply render_not_raised in E.
  - apply render_crashed in E as [_ ->]. exact H.
Qed.

Lemma last_recognized_line_wins_witness :
  differential (process_lines world_a initial_state
                  [lupus_line; vasculitis_line; other_dx_line; gathering_line]) =
  Some other_snapshot.
Proof.
  rewrite (proj1 (last_recognized_line_wins world_a
                    [lupus_line; vasculitis_line; other_dx_line; gathering_line]
                    initial_state)).
  vm_compute; reflexivity.
Defined.

Lemma ranked_spec {A} (l : list A) :
  map fst (ranked l) = seq 1 (List.length l) /\ map snd (ranked l) = l /\
  List.length (ranked l) = List.length l.
Proof.
  unfold ranked. generalize 1 as k.
  induction l as [|x l IH]; intro k; simpl; [auto|].
  destruct (IH (S k)) as (H1 & H2 & H3). now rewrite H1, H2, H3.
Qed.

Lemma stream_snapshot_size (w : World) (values : list (list byte)) :
  let st := state_of (read_loop w initial_state [] Utf8.init values) in
  match differential st with
  | None => True
  | Some v => 1 <= List.length (items v) <= 3
  end.
Proof.
  cbv zeta.
  set (P := fun st : state =>
              match differential st with
              | None => True
              | Some v => 1 <= List.length (items v) <= 3
              end).
  enough (H : P (state_of (read_loop w initial_state [] Utf8.init values))) by apply H.
  apply read_loop_invariant.
  - intros st line _. revert st. apply (process_line_cases w P); unfold P; simpl; auto.
    intros st v Hrec _.
    apply recognized_differential_inv in Hrec as (content & _ & _ & Hne & ->).
    cbn [items]. rewrite length_map.
    split; [|apply firstn_le_length].
    destruct (matchAll Pat.dxRegex content); [congruence | simpl; lia].
  - intros st st' H Hr. apply render_done in Hr as (_ & Hd & _). unfold P.
    now rewrite Hd.
  - exact I.
Qed.

(** X13. The differential banner, when a run leaves one, lists one to
    three items, ranked 1, 2, 3 in the order of the snapshot. *)
Theorem banner_ranks (w : World) (a : app) (net : fetch_result) (a' : app) :
  initial_info (inputs a) <> [] ->
  full_case (inputs a) <> [] ->
  startDiagnosis w a net = Some a' ->
  match banner (app_differential a') with
  | None => app_differential a' = None
  | Some entries =>
      1 <= List.length entries <= 3 /\
      map fst entries = seq 1 (List.length entries) /\
      exists v, app_differential a' = Some v /\ map snd entries = items v
  end.
Proof.
  intros Hi Hf Hrun.
  destruct (startDiagnosis_messages w a net a' Hi Hf Hrun) as (values & -> & _).
  pose proof (stream_snapshot_size w values) as Hs. cbv zeta in Hs.
  destruct (differential _) as [v|]; simpl; [|reflexivity].
  destruct (ranked_spec (items v)) as (H1 & H2 & H3).
  rewrite H3. repeat split; try lia; try assumption. now exists v.
Qed.

Lemma banner_ranks_witness :
  exists a',
    startDiagnosis world_a idle_app
      (response [frame [0x1F4CA%N]
                   " Differential Diagnosis Updated: - Sarcoidosis: 30% - Gout: 12%"]
         EndOfStream) = Some a' /\
    banner (app_differential a') =
      Some [(1, {| diagnosis := u16 "Sarcoidosis"; probability := u16 "30%" |});
            (2, {| diagnosis := u16 "Gout"; probability := u16 "12%" |})] /\
    match banner (app_differential a') with
    | None => True
    | Some entries => 1 <= List.length entries <= 3
    end.
Proof.
  destruct (startDiagnosis world_a idle_app
              (response [frame [0x1F4CA%N]
                   " Differential Diagnosis Updated: - Sarcoidosis: 30% - Gout: 12%"]
                 EndOfStream)) as [a'|] eqn:E; [|vm_compute in E; discriminate].
  exists a'. split; [reflexivity|].
  pose proof (banner_ranks world_a idle_app _ a' ltac:(discriminate) ltac:(discriminate) E)
    as H.
  vm_compute in E. injection E as <-. split; [reflexivity|].
  destruct (banner _); [apply H | exact I].
Defined.

(** ** The form *)

(** X16. A run is refused with the notice of the form exactly when one of
    the two required fields is empty, and then nothing else changes, for
    any answer of the network: the request is not made.  White space
    alone counts as filled. *)
Theorem missing_input_is_refused (w : World) (a : app) (net : fetch_result) :
  ((exists a', startDiagnosis w a net = Some a' /\ error a' = Some fill_required) <->
   initial_info (inputs a) = [] \/ full_case (inputs a) = []) /\
  (initial_info (inputs a) = [] \/ full_case (inputs a) = [] ->
   startDiagnosis w a net =
     Some {| inputs := inputs a; app_messages := app_messages a;
             app_differential := app_differential a; isStreaming := isStreaming a;
             error := Some fill_required;
             abortControllerRef := abortControllerRef a |}) /\
  (initial_info (inputs a) <> [] -> full_case (inputs a) <> [] ->
   forall a',
     startDiagnosis w a net = Some a' ->
     isStreaming a' = false /\ abortControllerRef a' = false).
Proof.
  unfold startDiagnosis.
  destruct (initial_info (inputs a)) as [|x xs].
  { split; [|split]; [split | reflexivity | congruence]; [auto|].
    intros _. eexists. split; reflexivity. }
  destruct (full_case (inputs a)) as [|y ys].
  { split; [|split]; [split | reflexivity | congruence]; [auto|].
    intros _. eexists. split; reflexivity. }
  split; [|split].
  - split; [|intros [H|H]; discriminate].
    intros (a' & Hrun & He). exfalso.
    destruct (try_block w net) as [st|e st|e st]; try discriminate.
    + injection Hrun as <-. discriminate.
    + destruct (JS.eqb (err_name e) abort_error); injection Hrun as <-; discriminate.
  - intros [H|H]; discriminate.
  - intros _ _ a' Hrun.
    destruct (try_block w net) as [st|e st|e st]; try discriminate.
    + injection Hrun as <-. split; reflexivity.
    + destruct (JS.eqb (err_name e) abort_error); injection Hrun as <-; split; reflexivity.
Qed.

Lemma missing_input_is_refused_witness :
  let a := {| inputs := {| initial_info := u16 " "; full_case := []; ground_truth := [] |};
              app_messages := [StatusTurn (IdNumber 1) (u16 "old") []];
              app_differential := None; isStreaming := false;
              error := None; abortControllerRef := false |} in
  startDiagnosis world_a a (response [frame [] "Consider"] EndOfStream) =
  Some {| inputs := inputs a; app_messages := app_messages a;
          app_differential := None; isStreaming := false;
          error := Some fill_required; abortControllerRef := false |}.
Proof.
  cbv zeta.
  exact (proj1 (proj2 (missing_input_is_refused world_a
           {| inputs := {| initial_info := u16 " "; full_case := []; ground_truth := [] |};
              app_messages := [StatusTurn (IdNumber 1) (u16 "old") []];
              app_differential := None; isStreaming := false;
              error := None; abortControllerRef := false |}
           (response [frame [] "Consider"] EndOfStream)))
         (or_intror eq_refl)).
Defined.

(** ** A clock that never repeats: no queued function throws *)

Lemma set_content_status (n : nat) (c : jstr) (ms : list message) (i : msg_id)
    (s t : jstr) :
  In (StatusTurn i s t) (set_content n c ms) -> In (StatusTurn i s t) ms.
Proof.
  revert n; induction ms as [|m ms IH]; intros [|n]; simpl; auto.
  - intros [H|H]; [|now right]. left. destruct m; [discriminate | exact H].
  - intros [H|H]; [now left | right; eapply IH; eassumption].
Qed.

Lemma append_content_status (last : msg_id) (c : jstr) (prev ms : list message)
    (i : msg_id) (s t : jstr) :
  append_content last c prev = Some ms ->
  In (StatusTurn i s t) ms -> In (StatusTurn i s t) prev.
Proof.
  destruct (append_content_cases last c prev)
    as [[_ [->| ->]]|(n & j & a & ex & u & Hf & Hn & [[_ ->]|[Hl ->]])];
    intro H; try discriminate; injection H as <-; auto.
  apply set_content_status.
Qed.

(** With the ids of the statuses apart from [lastMessageId], the content
    function finds an agent turn or nothing. *)
Lemma append_content_returns (w : World) (last : msg_id) (c : jstr)
    (prev : list message) (k : nat) :
  status_ids_apart w last k prev -> append_content last c prev <> None.
Proof.
  intros Hs. unfold append_content.
  destruct (findIndex last prev) as [n|] eqn:Ef; [|discriminate].
  destruct (findIndex_found _ _ _ Ef) as (m & Hn & Hm). rewrite Hn.
  destruct m as [i a ex t|i s t].
  - now destruct (negb (JS.eqb (last_line ex) c)).
  - exfalso. apply nth_error_In in Hn. destruct (Hs i s t Hn) as [Hne _].
    simpl in Hm. contradiction.
Qed.

Lemma run_updater_apart (w : World) (cur : option jstr) (last : msg_id) (f : updater)
    (prev : list message) (k : nat) :
  never_repeats w ->
  id_issued w k last -> status_ids_apart w last k prev ->
  exists ms k',
    run_updater w cur last f prev k = Some (ms, k') /\
    k <= k' /\ status_ids_apart w last k' ms.
Proof.
  intros [Hr _] Hl Hs.
  assert (Hpush : forall m, (forall i s t, m <> StatusTurn i s t) ->
                            status_ids_apart w last (S k) (prev ++ [m])).
  { intros m Hm i s t Hin. apply in_app_or in Hin as [Hin|[Hin|[]]].
    - destruct (Hs i s t Hin) as (Hne & j & Hj & E). split; [exact Hne|].
      exists j. split; [lia | exact E].
    - now apply Hm in Hin. }
  destruct f as [name|text| |c]; simpl.
  - eexists. eexists. split; [reflexivity|]. split; [lia|]. apply Hpush. discriminate.
  - eexists. eexists. split; [reflexivity|]. split; [lia|].
    intros i s t Hin. apply in_app_or in Hin as [Hin|[Hin|[]]].
    + destruct (Hs i s t Hin) as (Hne & j & Hj & E). split; [exact Hne|].
      exists j. split; [lia | exact E].
    + injection Hin as <- <- <-. split; [|exists k; split; [lia | reflexivity]].
      intros <-. simpl in Hl. destruct Hl as (j & Hj & E). apply Hr in E. lia.
  - eexists. eexists. split; [reflexivity|]. split; [lia|]. apply Hpush. discriminate.
  - destruct (append_content last c prev) as [ms|] eqn:E.
    + exists ms, k. split; [reflexivity|]. split; [lia|].
      intros i s t Hin. apply (Hs i s t). eapply append_content_status; eassumption.
    + exfalso. eapply append_content_returns; eassumption.
Qed.

Lemma id_issued_later (w : World) (k k' : nat) (last : msg_id) :
  k <= k' -> id_issued w k last -> id_issued w k' last.
Proof.
  intros Hk. destruct last; simpl; auto.
  intros (j & Hj & E). exists j. split; [lia | exact E].
Qed.

Lemma run_updaters_apart (w : World) (cur : option jstr) (last : msg_id)
    (fs : list updater) :
  never_repeats w ->
  forall prev k,
    id_issued w k last -> status_ids_apart w last k prev ->
    exists ms k',
      run_updaters w cur last fs prev k = Some (ms, k') /\
      k <= k' /\ status_ids_apart w last k' ms.
Proof.
  intro Hw. induction fs as [|f fs IH]; intros prev k Hl Hs; simpl.
  - exists prev, k. split; [reflexivity|]. split; [lia | exact Hs].
  - destruct (run_updater_apart w cur last f prev k Hw Hl Hs) as (ms1 & k1 & E & Hk & H1).
    rewrite E.
    destruct (IH ms1 k1 (id_issued_later w k k1 last Hk Hl) H1) as (ms & k' & E' & Hk' & H').
    exists ms, k'. split; [exact E'|]. split; [lia | exact H'].
Qed.

Lemma render_apart (w : World) (st : state) :
  never_repeats w -> ids_apart w st ->
  exists st', render w st = Done st' /\ ids_apart w st'.
Proof.
  intros Hw [Hs Hl].
  destruct (run_updaters_apart w (currentAgentName st) (lastMessageId st) (pending st)
              Hw (messages st) (created st) Hl Hs) as (ms & k & E & Hk & H).
  unfold render. rewrite E. eexists. split; [reflexivity|].
  split; simpl; [exact H | eapply id_issued_later; eassumption].
Qed.

Lemma process_line_apart (w : World) (st : state) (line : jstr) :
  never_repeats w -> ids_apart w st -> ids_apart w (process_line w st line).
Proof.
  intros [Hr _]. revert st.
  apply (process_line_cases w (ids_apart w)); unfold ids_apart; simpl; auto.
  - intros st name _ _ [Hs Hl]. split; [|exists (created st); split; [lia | reflexivity]].
    intros i s t Hin. destruct (Hs i s t Hin) as (_ & j & Hj & E). split.
    + rewrite E. intros [= E']. apply Hr in E'. lia.
    + exists j. split; [lia | exact E].
  - intros st _ [Hs Hl]. split; [|exact I].
    intros i s t Hin. destruct (Hs i s t Hin) as (_ & j & Hj & E). split.
    + rewrite E. discriminate.
    + exists j. split; [lia | exact E].
Qed.

Lemma read_loop_apart (w : World) (values : list (list byte)) :
  never_repeats w ->
  forall st buffer dec,
    ids_apart w st ->
    exists st', read_loop w st buffer dec values = Done st' /\ ids_apart w st'.
Proof.
  intro Hw. induction values as [|v values IH]; intros st buffer dec H; simpl.
  - now exists st.
  - unfold feed. destruct (Utf8.decode dec v) as [dec' text].
    set (lines := removelast (split LF (buffer ++ text))).
    assert (H1 : ids_apart w (process_lines w st lines)).
    { apply process_lines_cases; [|exact H]. apply Forall_forall.
      intros l _ s Hs. now apply process_line_apart. }
    destruct (render_apart w _ Hw H1) as (r & -> & Hr). now apply IH.
Qed.

(** X17. When the clock and the random source never give the same value
    twice, no queued function throws: a body that is read to its end
    leaves the turns and the snapshot of the stream and no error
    notice. *)
Theorem complete_stream_reports_no_error (w : World) (a : app) (status : nat)
    (values : list (list byte)) :
  never_repeats w ->
  initial_info (inputs a) <> [] ->
  full_case (inputs a) <> [] ->
  exists st,
    read_loop w initial_state [] Utf8.init values = Done st /\
    startDiagnosis w a (Response true status {| chunks := values; ending_of := EndOfStream |}) =
      Some {| inputs := inputs a; app_messages := messages st;
              app_differential := differential st; isStreaming := false;
              error := None; abortControllerRef := false |}.
Proof.
  intros Hw Hi Hf.
  destruct (read_loop_apart w values Hw initial_state [] Utf8.init) as (st & E & _).
  { split; [intros i s t [] | exact I]. }
  exists st. split; [exact E|].
  unfold startDiagnosis, try_block, read_body. simpl. rewrite E.
  destruct (initial_info (inputs a)); [congruence|].
  destruct (full_case (inputs a)); [congruence|]. reflexivity.
Qed.

Lemma complete_stream_reports_no_error_witness :
  option_map error
    (startDiagnosis world_a idle_app (response two_agents_whole EndOfStream)) =
  Some None.
Proof.
  destruct (complete_stream_reports_no_error world_a idle_app 200 two_agents_whole)
    as (st & _ & E).
  - split; intros j k H; cbv [world_a now_plus_random now] in H; lia.
  - discriminate.
  - discriminate.
  - unfold response. rewrite E. reflexivity.
Defined.

(** ** A cut that completes no line *)

Lemma last_split_tail (text tail : jstr) :
  ~ In LF tail ->
  last (split LF (text ++ tail)) [] = last (split LF text) [] ++ tail.
Proof.
  intro H. rewrite split_app, last_app_split.
  rewrite (split_no_sep LF (last (split LF text) [] ++ tail)); [reflexivity|].
  intro Hin. apply in_app_or in Hin as [Hin|Hin]; [|contradiction].
  now apply last_split_no_sep in Hin.
Qed.

(** One chunk, or the same bytes in two chunks of which one holds no
    line feed: the loop goes on alike. *)
Lemma read_loop_cut (w : World) (st : state) (buffer : jstr) (dec : Utf8.decoder)
    (c1 c2 : list byte) (post : list (list byte)) :
  pending st = [] -> ~ In LF buffer -> decoding_above_ascii dec ->
  ~ In x0a c1 \/ ~ In x0a c2 ->
  read_loop w st buffer dec ((c1 ++ c2) :: post) =
  read_loop w st buffer dec (c1 :: c2 :: post).
Proof.
  intros Hq Hb Hd [H1|H2].
  - rewrite (read_loop_no_line w st buffer dec c1 (c2 :: post) Hq Hb Hd H1).
    simpl read_loop. unfold feed. rewrite decode_app.
    destruct (Utf8.decode dec c1) as [d1 t1]. simpl fst. simpl snd.
    destruct (Utf8.decode d1 c2) as [d2 t2]. now rewrite app_assoc.
  - destruct (decode_above_ascii c1 dec Hd) as [Hd1 _].
    destruct (Utf8.decode dec c1) as [d1 t1] eqn:E1. simpl in Hd1.
    destruct (decode_above_ascii c2 d1 Hd1) as [_ Ht2]. specialize (Ht2 H2).
    destruct (Utf8.decode d1 c2) as [d2 t2] eqn:E2. simpl in Ht2.
    set (st1 := process_lines w st (complete_lines (buffer ++ t1))).
    set (b1 := last (split LF (buffer ++ t1)) []).
    assert (F1 : feed w st buffer dec (c1 ++ c2) = (st1, b1 ++ t2, d2)).
    { unfold feed. rewrite decode_app, E1, E2, app_assoc.
      pose proof (complete_lines_tail (buffer ++ t1) t2 Ht2) as Hl.
      unfold complete_lines in Hl. now rewrite Hl, last_split_tail by assumption. }
    assert (F2 : feed w st buffer dec c1 = (st1, b1, d1))
      by (unfold feed; now rewrite E1).
    rewrite (read_loop_cons w st buffer dec (c1 ++ c2)), F1.
    rewrite (read_loop_cons w st buffer dec c1), F2.
    destruct (render w st1) as [r|e r|e r] eqn:Er; try reflexivity.
    apply render_done in Er as (_ & _ & _ & _ & Hr).
    rewrite (read_loop_no_line w r b1 d1 c2 post Hr
               (last_split_no_sep LF (buffer ++ t1)) Hd1 H2).
    now rewrite E2.
Qed.

(** X20. A chunk boundary that completes no line is not seen: when a
    chunk is delivered in two pieces of which one holds no byte 0x0A
    (a cut inside its first line, or inside the text after its last line
    feed, or inside a character), the run ends as with the whole
    chunk. *)
Theorem cut_inside_a_line (w : World) (a : app) (ok : bool) (status : nat)
    (e : ending) (pre post : list (list byte)) (c1 c2 : list byte) :
  ~ In x0a c1 \/ ~ In x0a c2 ->
  startDiagnosis w a
    (Response ok status {| chunks := pre ++ (c1 ++ c2) :: post; ending_of := e |}) =
  startDiagnosis w a
    (Response ok status {| chunks := pre ++ c1 :: c2 :: post; ending_of := e |}).
Proof.
  intro Hcut. unfold startDiagnosis, try_block.
  destruct ok; simpl negb; cbv iota; [|reflexivity].
  unfold read_body. simpl chunks. simpl ending_of.
  rewrite !read_loop_app.
  destruct (read_loop w initial_state [] Utf8.init pre) as [st|err st|err st] eqn:E;
    try reflexivity.
  assert (H0 : decoding_above_ascii Utf8.init) by now left.
  destruct (carried_invariant pre [] Utf8.init (fun H => H) H0) as [Hb Hd].
  rewrite read_loop_cut; try assumption; [reflexivity|].
  eapply read_loop_idle; [|exact E]. reflexivity.
Qed.

Lemma cut_inside_a_line_witness :
  startDiagnosis world_a idle_app
    (response ([frame [] "Agent Name: Dr. House"]
               ++ (bytes "data: Consider vasc" ++ frame [] "ulitis.") :: [])
       EndOfStream) =
  startDiagnosis world_a idle_app
    (response ([frame [] "Agent Name: Dr. House"]
               ++ bytes "data: Consider vasc" :: frame [] "ulitis." :: [])
       EndOfStream).
Proof.
  apply cut_inside_a_line. left. apply no_byte_in. reflexivity.
Defined.

(** ** The turns of one render *)

Lemma grows_carries (last : msg_id) (m m' : message) :
  grows m m' -> carries last m -> carries last m'.
Proof.
  destruct m, m'; simpl; try tauto. intros (<- & _). auto.
Qed.

Lemma Forall2_grows_carries (last : msg_id) (a b : list message) :
  Forall2 grows a b -> Forall (carries last) a -> Forall (carries last) b.
Proof.
  induction 1 as [|x y a b Hxy _ IH]; intro H; [constructor|].
  inversion H; subst. constructor; [eapply grows_carries; eassumption | now apply IH].
Qed.

Lemma run_updater_carries (w : World) (cur : option jstr) (last : msg_id) (f : updater)
    (prev : list message) (k : nat) (ms : list message) (k' : nat) :
  run_updater w cur last f prev k = Some (ms, k') ->
  exists old new,
    ms = old ++ new /\ Forall2 grows prev old /\ Forall (carries last) new.
Proof.
  destruct f as [name|text| |c]; simpl;
    try (intros [= <- <-]; eexists; eexists; split; [reflexivity|];
         split; [apply Forall2_grows_refl | now repeat constructor]).
  destruct (append_content last c prev) as [ms1|] eqn:E; [|discriminate].
  intros [= <- <-]. exists ms1, []. rewrite app_nil_r. split; [reflexivity|].
  split; [eapply append_content_grows; eassumption | constructor].
Qed.

Lemma run_updaters_carries (w : World) (cur : option jstr) (last : msg_id)
    (fs : list updater) :
  forall prev k ms k',
    run_updaters w cur last fs prev k = Some (ms, k') ->
    exists old new,
      ms = old ++ new /\ Forall2 grows prev old /\ Forall (carries last) new.
Proof.
  induction fs as [|f fs IH]; intros prev k ms k' H; simpl in H.
  - injection H as <- <-. exists prev, []. rewrite app_nil_r.
    split; [reflexivity|]. split; [apply Forall2_grows_refl | constructor].
  - destruct (run_updater w cur last f prev k) as [[ms1 k1]|] eqn:E; [|discriminate].
    apply run_updater_carries in E as (old1 & new1 & -> & H1 & C1).
    apply IH in H as (old & new & -> & H2 & C2).
    apply Forall2_app_inv_l in H2 as (o1 & o2 & Ho1 & Ho2 & ->).
    exists o1, (o2 ++ new). rewrite app_assoc. split; [reflexivity|].
    split; [eapply Forall2_grows_trans; eassumption|].
    apply Forall_app. split; [|exact C2].
    eapply Forall2_grows_carries; eassumption.
Qed.

(** X21. The agent turns that one render adds all carry the same id, the
    value [lastMessageId] has when React renders: two headers in one
    chunk open two turns with one id, whatever ids the loop made for
    them.  The turns shown before keep their place and their id. *)
Theorem turns_of_a_render_share_an_id (w : World) (st r : state) :
  render w st = Done r ->
  exists old new,
    messages r = old ++ new /\
    Forall2 grows (messages st) old /\
    Forall (carries (lastMessageId st)) new /\
    lastMessageId r = lastMessageId st.
Proof.
  intro H. apply render_done in H as (H & _ & _ & Hl & _).
  apply run_updaters_carries in H as (old & new & Hm & Hg & Hc).
  exists old, new. repeat split; assumption.
Qed.

Lemma turns_of_a_render_share_an_id_witness :
  exists r,
    render world_a
      (process_lines world_a initial_state
         [u16 "data: Agent Name: Dr. A"; u16 "data: Agent Name: Dr. B"]) = Done r /\
    messages r =
      [AgentTurn (IdNumber 7001) (u16 "Dr. A") [] (u16 "10:00 AM");
       AgentTurn (IdNumber 7001) (u16 "Dr. B") [] (u16 "10:00 AM")] /\
    Forall (carries (IdNumber 7001)) (messages r).
Proof.
  eexists. split; [vm_compute; reflexivity|]. split; [reflexivity|].
  destruct (turns_of_a_render_share_an_id world_a
              (process_lines world_a initial_state
                 [u16 "data: Agent Name: Dr. A"; u16 "data: Agent Name: Dr. B"])
              _ ltac:(vm_compute; reflexivity))
    as (old & new & Hm & Hg & Hc & _).
  inversion Hg; subst. simpl in Hm. rewrite Hm. exact Hc.
Defined.

(** ** A header alone in its chunk *)




